(** * corsika_reader: a shallow embedding of the binary reader stack

    The development follows the C++ sources
      - [src/corsika/RawStream.cxx]          (framed block stream, shape detection),
      - [src/corsika/RawParticleIterator.cxx] (particle iterator),
      - [src/corsika/CorsikaShowerFile.cxx]   (shower facade, longitudinal assembler).

    Conventions.
      - [size_t] values are integers in [Z]; the places where the code can wrap
        around 2^64 are written with [wrap64].
      - A C++ call that may throw returns an [outcome] together with the state
        of the object after the call: a C++ object survives an exception that
        leaves one of its methods, with whatever the method had written so far.
      - Memory that the code leaves uninitialised holds arbitrary bytes, which
        the model receives as a parameter ([junk]). *)

From Stdlib Require Import ZArith List Lia Bool String.
From stdpp Require Import base list gmap strings.

Local Open Scope Z_scope.

(** ** Bytes and little-endian integers *)

Definition byte_val (b : Byte.byte) : Z := Z.of_N (Byte.to_N b).

(** The byte whose value is [z mod 256]. *)
Definition byte_of_Z (z : Z) : Byte.byte :=
  match Byte.of_N (Z.to_N (z mod 256)) with
  | Some b => b
  | None => Byte.x00
  end.

(** Unsigned value of a little-endian byte sequence. *)
Fixpoint le_unsigned (bs : list Byte.byte) : Z :=
  match bs with
  | [] => 0
  | b :: bs' => byte_val b + 256 * le_unsigned bs'
  end.

(** Two's complement reading of the low [w] bits of [x]. *)
Definition to_signed (w : Z) (x : Z) : Z :=
  let y := x mod 2 ^ w in
  if y <? 2 ^ (w - 1) then y else y - 2 ^ w.

Definition wrap64 (x : Z) : Z := x mod 2 ^ 64.

(** [int32_t] and [int64_t] stored at the head of [bs] (little-endian host). *)
Definition int32_le (bs : list Byte.byte) : Z := to_signed 32 (le_unsigned (take 4 bs)).
Definition int64_le (bs : list Byte.byte) : Z := to_signed 64 (le_unsigned (take 8 bs)).

(** Writing [bs] at the start of the memory area [buf]: the first
    [length bs] bytes are replaced, the rest is kept. *)
Definition overlay (bs buf : list Byte.byte) : list Byte.byte :=
  bs ++ drop (length bs) buf.

(** ** Exceptions and outcomes *)

(** The exceptions thrown in the three source files, one constructor per
    [throw] site (the comment gives the message of the source). *)
Inductive exn : Type :=
  | PaddingMismatch       (* CorsikaIOException("Padding mismatch\n") *)
  | ErrorOpening          (* CorsikaIOException("Error opening Corsika file ...") *)
  | CantDetermineType     (* CorsikaIOException("Can't determine type of corsika file\n") *)
  | FailedDumbSeek        (* CorsikaIOException("Failed in dumb seek") *)
  | IteratorNotValid      (* IOException("RawParticleIterator not valid.") *)
  | ErrorReadingBlock.    (* IOException("Error reading block in CORSIKA file.") *)

(** The result of a call: a returned value, a thrown exception, undefined
    behaviour of the C++ program (an index outside a vector or an array), or
    a loop that did not finish within the fuel given to the model. *)
Inductive outcome (A : Type) : Type :=
  | Return (a : A)
  | Throw (e : exn)
  | Undefined
  | OutOfFuel.

Arguments Return {A} a.
Arguments Throw {A} e.
Arguments Undefined {A}.
Arguments OutOfFuel {A}.

Definition returned {A} (o : outcome A) : bool :=
  match o with Return _ => true | _ => false end.

(** ** Thinning modes and their constants *)

Inductive Thinning : Type := Thinned | NotThinned.

Definition Thinning_eqb (a b : Thinning) : bool :=
  match a, b with
  | Thinned, Thinned | NotThinned, NotThinned => true
  | _, _ => false
  end.

(** The constants of [struct Thinned] and [struct NotThinned] and the record
    sizes of [Block<Thinning>]; their declarations are in [CorsikaBlock.h],
    so the stream is parameterised by them. *)
Record ThinningConsts : Type := {
  kBytesPerBlock : Z;        (* Thinning::kBytesPerBlock *)
  kSubBlocksPerBlock : Z;    (* Thinning::kSubBlocksPerBlock *)
  kParticlesInBlock : Z;     (* Thinning::kParticlesInBlock *)
  sizeof_ParticleData : Z;   (* sizeof(Block<Thinning>::ParticleData) *)
  sizeof_Block : Z           (* sizeof(Block<Thinning>) *)
}.

(** Modelled from the spec: the constants of section 6 ("Binary file shape"):
    312 and 273 four-byte words per sub-block, 1 and 21 sub-blocks per
    sector; a sub-block holds 39 particle records of 8 and 7 words. *)
Definition spec_consts (T : Thinning) : ThinningConsts :=
  match T with
  | Thinned =>
      {| kBytesPerBlock := 312 * 4; kSubBlocksPerBlock := 1;
         kParticlesInBlock := 39; sizeof_ParticleData := 32;
         sizeof_Block := 312 * 4 |}
  | NotThinned =>
      {| kBytesPerBlock := 273 * 4; kSubBlocksPerBlock := 21;
         kParticlesInBlock := 39; sizeof_ParticleData := 28;
         sizeof_Block := 273 * 4 |}
  end.

(** ** Byte source *)

(** Modelled from the spec: [FileStream] (section 4.A, "Byte source").  A
    source is the content of the file, a read position and the [seekable]
    flag.  [read] hands out the bytes that are left, at most [n] of them, and
    returns their number: 0 at the end of the file, fewer than [n] when the
    file ends inside the request. *)
Record FileStream : Type := {
  data : list Byte.byte;
  pos : nat;
  seekable : bool
}.

Definition FileStream_read (n : Z) (f : FileStream) : list Byte.byte * FileStream :=
  let bs := take (Z.to_nat n) (drop (pos f) (data f)) in
  (bs, {| data := data f; pos := (pos f + length bs)%nat; seekable := seekable f |}).

Definition FileStream_seek (off : Z) (f : FileStream) : FileStream :=
  {| data := data f; pos := Z.to_nat off; seekable := seekable f |}.

(** A block is the byte image of a [Block<Thinning>]. *)
Definition Block : Type := list Byte.byte.

(** ** RawStream<Thinning, Padding> *)

Record RawStream : Type := {
  thinning : Thinning;          (* template parameter Thinning *)
  padding : nat;                (* template parameter Padding *)
  file : FileStream;
  filename : string;
  current_block : Z;
  current_disk_block : Z;
  buffer_valid : bool;
  buffer : list Byte.byte       (* the bytes of the DiskBlock *)
}.

Definition with_file (f : FileStream) (s : RawStream) : RawStream :=
  {| thinning := thinning s; padding := padding s; file := f;
     filename := filename s; current_block := current_block s;
     current_disk_block := current_disk_block s;
     buffer_valid := buffer_valid s; buffer := buffer s |}.

Definition with_buffer (b : list Byte.byte) (s : RawStream) : RawStream :=
  {| thinning := thinning s; padding := padding s; file := file s;
     filename := filename s; current_block := current_block s;
     current_disk_block := current_disk_block s;
     buffer_valid := buffer_valid s; buffer := b |}.

Definition with_buffer_valid (v : bool) (s : RawStream) : RawStream :=
  {| thinning := thinning s; padding := padding s; file := file s;
     filename := filename s; current_block := current_block s;
     current_disk_block := current_disk_block s;
     buffer_valid := v; buffer := buffer s |}.

Definition with_position (cb cdb : Z) (s : RawStream) : RawStream :=
  {| thinning := thinning s; padding := padding s; file := file s;
     filename := filename s; current_block := cb;
     current_disk_block := cdb;
     buffer_valid := buffer_valid s; buffer := buffer s |}.

(** The constants of the two thinning modes. *)
Class ThinningTraits : Type := {
  consts : Thinning -> ThinningConsts
}.

(** What the stream takes from its surroundings. *)
Class StreamEnv : Type := {
  (** [FileStream::open]: for a path that can be opened, the content of the
      file and whether its source supports [seek] *)
  file_system : string -> option (list Byte.byte * bool);
  (** [Block<Thinning>::IsRunHeader], declared in [CorsikaBlock.h] *)
  IsRunHeader : Block -> bool
}.

Section Stream.

Context `{ThinningTraits} `{StreamEnv}.

Definition FileStream_open (name : string) : option FileStream :=
  match file_system name with
  | Some (d, sk) => Some {| data := d; pos := 0%nat; seekable := sk |}
  | None => None
  end.

Definition kBlocksInDiskBlock (T : Thinning) : Z := kSubBlocksPerBlock (consts T).

(** sizeof(DiskBlock): [Padding] ints, the sub-blocks, [Padding] ints. *)
Definition sizeof_DiskBlock (T : Thinning) (P : nat) : Z :=
  4 * Z.of_nat P + kBlocksInDiskBlock T * sizeof_Block (consts T) + 4 * Z.of_nat P.

Definition offset_padding_end (T : Thinning) (P : nat) : Z :=
  4 * Z.of_nat P + kBlocksInDiskBlock T * sizeof_Block (consts T).

(** buffer.padding_start[i], buffer.padding_end[i], buffer.fBlock[i] *)
Definition padding_start (buf : list Byte.byte) (i : nat) : Z :=
  int32_le (drop (4 * i) buf).

Definition padding_end (T : Thinning) (P : nat) (buf : list Byte.byte) (i : nat) : Z :=
  int32_le (drop (Z.to_nat (offset_padding_end T P) + 4 * i) buf).

Definition fBlock (T : Thinning) (P : nat) (buf : list Byte.byte) (i : Z) : Block :=
  take (Z.to_nat (sizeof_Block (consts T)))
       (drop (Z.to_nat (4 * Z.of_nat P + i * sizeof_Block (consts T))) buf).

(** [DiskBlock::check_padding]: [true] when the loop finishes, [false] when it
    throws "Padding mismatch". *)
Definition check_padding (T : Thinning) (P : nat) (buf : list Byte.byte) : bool :=
  forallb (fun i => padding_start buf i =? padding_end T P buf i) (seq 0 P).

(** The buffer after the constructor has copied [len64] over its first eight
    bytes and read [bs] behind them; the other bytes are what the allocation
    held ([junk], by offset). *)
Definition initial_buffer (T : Thinning) (P : nat) (junk : nat -> Byte.byte)
    (len64 bs : list Byte.byte) : list Byte.byte :=
  let buf0 := overlay (take 8 len64) (map junk (seq 0 (Z.to_nat (sizeof_DiskBlock T P)))) in
  take 8 buf0 ++ overlay bs (drop 8 buf0).

(** The constructor.  [len64] is the object representation (8 bytes) of the
    [int64_t] read by [Create]. *)
Definition RawStream_new (T : Thinning) (P : nat) (junk : nat -> Byte.byte)
    (f : FileStream) (name : string) (len64 : list Byte.byte) : outcome RawStream :=
  let '(bs, f') := FileStream_read (sizeof_DiskBlock T P - 8) f in
  let buf := initial_buffer T P junk len64 bs in
  let valid := 0 <? Z.of_nat (length bs) in
  if valid && negb (check_padding T P buf) then Throw PaddingMismatch
  else Return {| thinning := T; padding := P; file := f'; filename := name;
                 current_block := 0; current_disk_block := 0;
                 buffer_valid := valid; buffer := buf |}.

Definition ReadDiskBlock (s : RawStream) : outcome bool * RawStream :=
  let '(bs, f') := FileStream_read (sizeof_DiskBlock (thinning s) (padding s)) (file s) in
  if Z.of_nat (length bs) <=? 0 then (Return false, with_file f' s)
  else
    let s1 := with_buffer (overlay bs (buffer s)) (with_file f' s) in
    if check_padding (thinning s) (padding s) (buffer s1)
    then (Return true, with_buffer_valid true s1)
    else (Throw PaddingMismatch, s1).

(** The part of [GetNextBlockImpl] behind the buffer refill: hand out the
    current sub-block and advance. *)
Definition take_block (s : RawStream) : outcome (option Block) * RawStream :=
  let theBlock := fBlock (thinning s) (padding s) (buffer s) (current_disk_block s) in
  let cdb := wrap64 (current_disk_block s + 1) in
  if kBlocksInDiskBlock (thinning s) <=? cdb
  then (Return (Some theBlock),
        with_buffer_valid false (with_position (wrap64 (current_block s + 1)) 0 s))
  else (Return (Some theBlock), with_position (current_block s) cdb s).

(** [GetNextBlockImpl]: [Some b] stands for [true] with [theBlock = b],
    [None] for [false] (the caller's block is left as it was). *)
Definition GetNextBlockImpl (s : RawStream) : outcome (option Block) * RawStream :=
  if buffer_valid s then take_block s
  else
    match ReadDiskBlock s with
    | (Return true, s1) => take_block s1
    | (Return false, s1) => (Return None, s1)
    | (Throw e, s1) => (Throw e, s1)
    | (Undefined, s1) => (Undefined, s1)
    | (OutOfFuel, s1) => (OutOfFuel, s1)
    end.

(** [GetNextBlock(Block<B>&)]: [NextBlockDispatch] forwards to
    [GetNextBlockImpl] when [B] is the stream's own thinning and returns
    [false] otherwise. *)
Definition GetNextBlock (B : Thinning) (s : RawStream) : outcome (option Block) * RawStream :=
  if Thinning_eqb B (thinning s) then GetNextBlockImpl s else (Return None, s).

Definition GetNextPosition (s : RawStream) : Z :=
  wrap64 (current_disk_block s + kBlocksInDiskBlock (thinning s) * current_block s).

Definition IsSeekable (s : RawStream) : bool := true.

Definition IsThinned (s : RawStream) : bool :=
  kBytesPerBlock (consts (thinning s)) =? kBytesPerBlock (consts Thinned).

(** The loop of the sequential branch of [SeekTo]:
    [while (thePosition > 0 && thePosition > current) { GetNextBlock(block); current = GetNextPosition(); }]
    The result of [GetNextBlock] is not looked at, so at the end of the file
    the loop does not finish; the model stops when [fuel] is used up. *)
Fixpoint skip_to (fuel : nat) (thePosition : Z) (s : RawStream) : outcome unit * RawStream :=
  if (0 <? thePosition) && (GetNextPosition s <? thePosition) then
    match fuel with
    | O => (OutOfFuel, s)
    | S fuel' =>
        match GetNextBlock (thinning s) s with
        | (Return _, s') => skip_to fuel' thePosition s'
        | (Throw e, s') => (Throw e, s')
        | (Undefined, s') => (Undefined, s')
        | (OutOfFuel, s') => (OutOfFuel, s')
        end
    end
  else (Return tt, s).

(** [SeekTo].  In the sequential branch the code runs
    [file.reset(FileStream::open(...))] before it tests the result, so a failed
    re-open throws "Failed in dumb seek" from an object whose [file] is the
    null pointer and whose other members are as they were (the counters and
    the buffer flag are reset behind the test only).  [RawStream] holds an
    open source, not a pointer: the state given with [FailedDumbSeek] is that
    object in every member but [file], and it stands for no stream that can be
    called again.  The properties of [SeekTo] below are about the seekable
    branch, about skipping forward and about a re-open that succeeds. *)
Definition SeekTo (fuel : nat) (thePosition : Z) (s : RawStream) : outcome unit * RawStream :=
  let newBlockNumber := thePosition / kBlocksInDiskBlock (thinning s) in
  let newIndexInBlock := thePosition mod kBlocksInDiskBlock (thinning s) in
  if seekable (file s) then
    let s1 := with_buffer_valid false (with_position newBlockNumber newIndexInBlock s) in
    (Return tt,
     with_file (FileStream_seek
                  (wrap64 (newBlockNumber * sizeof_DiskBlock (thinning s) (padding s)))
                  (file s)) s1)
  else
    if thePosition <? GetNextPosition s then
      match FileStream_open (filename s) with
      | None => (Throw FailedDumbSeek, s)
      | Some f =>
          skip_to fuel thePosition
            (with_buffer_valid false (with_position 0 0 (with_file f s)))
      end
    else skip_to fuel thePosition s.

(** The block size that [IsValid] expects in the leading padding word. *)
Definition expected_padding (T : Thinning) : Z :=
  wrap64 (kSubBlocksPerBlock (consts T) * kParticlesInBlock (consts T)
          * sizeof_ParticleData (consts T)).

(** [IsValid].  When [GetNextBlock] fails, [fail] is set before the
    run-header test of the (then unassigned) local block, so the result does
    not depend on that block. *)
Definition IsValid (fuel : nat) (s : RawStream) : outcome bool * RawStream :=
  if negb (seekable (file s)) then (Return true, s)
  else
    let currentBlockNumber := GetNextPosition s in
    let blockBufferValid := buffer_valid s in
    match SeekTo fuel 0 s with
    | (Return _, s1) =>
        match GetNextBlock (thinning s1) s1 with
        | (Return ob, s2) =>
            let fail1 := match ob with
                         | None => true
                         | Some block => negb (IsRunHeader block)
                         end in
            let fail2 := negb (wrap64 (padding_start (buffer s2) 0)
                               =? expected_padding (thinning s2)) in
            let fail3 := negb (padding_start (buffer s2) 0
                               =? padding_end (thinning s2) (padding s2) (buffer s2) 0) in
            (* leave things as they were *)
            let s3 := with_buffer_valid blockBufferValid s2 in
            match SeekTo fuel currentBlockNumber s3 with
            | (Return _, s4) => (Return (negb (fail1 || fail2 || fail3)), s4)
            | (Throw e, s4) => (Throw e, s4)
            | (Undefined, s4) => (Undefined, s4)
            | (OutOfFuel, s4) => (OutOfFuel, s4)
            end
        | (Throw e, s2) => (Throw e, s2)
        | (Undefined, s2) => (Undefined, s2)
        | (OutOfFuel, s2) => (OutOfFuel, s2)
        end
    | (Throw e, s1) => (Throw e, s1)
    | (Undefined, s1) => (Undefined, s1)
    | (OutOfFuel, s1) => (OutOfFuel, s1)
    end.

(** [VRawStream::Create].  [stack_junk] is what the local [len64] held before
    [file->read(8, &len64)] wrote the bytes it got over it. *)
Definition Create (junk : nat -> Byte.byte) (stack_junk : list Byte.byte)
    (theName : string) : outcome RawStream :=
  match FileStream_open theName with
  | None => Throw ErrorOpening
  | Some f =>
      let '(bs, f') := FileStream_read 8 f in
      let len64_bytes := take 8 (overlay bs stack_junk) in
      let len64 := int64_le len64_bytes in
      let len32 := int32_le len64_bytes in
      if len64 =? kBytesPerBlock (consts Thinned)
      then RawStream_new Thinned 2 junk f' theName len64_bytes
      else if len64 =? kBytesPerBlock (consts NotThinned)
      then RawStream_new NotThinned 2 junk f' theName len64_bytes
      else if len32 =? kBytesPerBlock (consts Thinned)
      then RawStream_new Thinned 1 junk f' theName len64_bytes
      else if len32 =? kBytesPerBlock (consts NotThinned)
      then RawStream_new NotThinned 1 junk f' theName len64_bytes
      else Throw CantDetermineType
  end.

End Stream.

(** ** The stream interface, floats and block layouts *)

(** [VRawStream], the abstract base class through which the particle iterator
    and the shower facade use a stream. *)
Class VRawStream (B S : Type) : Type := {
  stream_GetNextBlock : Thinning -> S -> outcome (option B) * S;
  stream_GetNextPosition : S -> Z;
  stream_SeekTo : Z -> S -> outcome unit * S;
  stream_IsSeekable : S -> bool;
  stream_IsThinned : S -> bool;
  stream_IsValid : S -> outcome bool * S
}.

(** [RawStream<Thinning, Padding>] implements the interface; [fuel] bounds the
    loop of the sequential [SeekTo]. *)
Definition RawStream_VRawStream `{ThinningTraits} `{StreamEnv} (fuel : nat) :
    VRawStream Block RawStream :=
  {| stream_GetNextBlock := GetNextBlock;
     stream_GetNextPosition := GetNextPosition;
     stream_SeekTo := SeekTo fuel;
     stream_IsSeekable := IsSeekable;
     stream_IsThinned := IsThinned;
     stream_IsValid := IsValid fuel |}.

(** The arithmetic of [float] and [double] that the facade uses.  The
    operations are parameters: the properties below depend on which values reach
    them, not on their rounding. *)
Class FloatOps (F : Type) : Type := {
  Fzero : F;
  Fadd : F -> F -> F;
  Fsub : F -> F -> F;
  Fmul : F -> F -> F;
  Fdiv : F -> F -> F;
  Fsqrt : F -> F;
  Fcos : F -> F;
  Fabs : F -> F;
  Fltb : F -> F -> bool;       (* x < y *)
  Fis_zero : F -> bool;        (* !x *)
  F_of_Z : Z -> F;             (* conversion of an integer *)
  F_to_int : F -> Z            (* int(x) *)
}.

Record EventHeader (F : Type) : Type := {
  fParticleId : F;
  fStartingHeight : F;
  fZFirst : F;
  fTheta : F;
  fObservationLevels : F;
  fObservationHeight : list F;   (* float fObservationHeight[...] *)
  fFlagCurved : F
}.
Arguments fParticleId {F} _.
Arguments fStartingHeight {F} _.
Arguments fZFirst {F} _.
Arguments fTheta {F} _.
Arguments fObservationLevels {F} _.
Arguments fObservationHeight {F} _.
Arguments fFlagCurved {F} _.

Record EventTrailer (F : Type) : Type := { trailer_words : list F }.
Arguments trailer_words {F} _.

(** An entry of a longitudinal block; the fields that the assembler reads. *)
Module LongEntry.
Record t (F : Type) : Type := {
  fDepth : F;
  fGamma : F;
  fEplus : F;
  fEminus : F;
  fMuPlus : F;
  fMuMinus : F;
  fCharged : F
}.
Arguments fDepth {F} _.
Arguments fGamma {F} _.
Arguments fEplus {F} _.
Arguments fEminus {F} _.
Arguments fMuPlus {F} _.
Arguments fMuMinus {F} _.
Arguments fCharged {F} _.
End LongEntry.

Record LongitudinalBlock (F : Type) : Type := {
  fStepsAndBlocks : F;
  fEntries : nat -> LongEntry.t F   (* fEntries[kLongEntriesPerBlock] *)
}.
Arguments fStepsAndBlocks {F} _.
Arguments fEntries {F} _ _.

(** [Block<Thinning>] as the iterator and the facade see it: the tests on
    the block type, the views of the union and the entry count of a
    longitudinal block, all declared in [CorsikaBlock.h]. *)
Class BlockOps (F B PD : Type) : Type := {
  IsControl : B -> bool;
  IsLongitudinal : B -> bool;
  IsEventHeader : B -> bool;
  IsEventTrailer : B -> bool;
  AsEventHeader : B -> EventHeader F;
  AsEventTrailer : B -> EventTrailer F;
  AsLongitudinalBlock : B -> LongitudinalBlock F;
  fParticle : B -> Z -> PD;        (* AsParticleBlock.fParticle[i] *)
  kLongEntriesPerBlock : nat
}.

(** ** A state monad with outcomes *)

Definition M (St A : Type) : Type := St -> outcome A * St.

Definition ret {St A} (a : A) : M St A := fun s => (Return a, s).

Definition bind {St A A'} (m : M St A) (k : A -> M St A') : M St A' :=
  fun s =>
    match m s with
    | (Return a, s') => k a s'
    | (Throw e, s') => (Throw e, s')
    | (Undefined, s') => (Undefined, s')
    | (OutOfFuel, s') => (OutOfFuel, s')
    end.

Definition gets {St A} (f : St -> A) : M St A := fun s => (Return (f s), s).
Definition modify {St} (f : St -> St) : M St unit := fun s => (Return tt, f s).
Definition throw {St A} (e : exn) : M St A := fun s => (Throw e, s).
Definition undefined {St A} : M St A := fun s => (Undefined, s).

Notation "'let*' x ':=' m 'in' k" := (bind m (fun x => k))
  (at level 10, x binder, k at level 200).

(** [v[i]] on a vector or an array: outside the bounds the behaviour of the
    program is undefined. *)
Definition at_index {St A} (v : list A) (i : Z) : M St A :=
  if i <? 0 then undefined
  else match v !! Z.to_nat i with
       | Some x => ret x
       | None => undefined
       end.

(** ** RawParticleIterator<Thinning> *)

Record RawParticleIterator (B : Type) : Type := {
  it_thinning : Thinning;     (* template parameter Thinning *)
  start : Z;
  current_particle : Z;
  valid : bool;
  block : B
}.
Arguments it_thinning {B} _.
Arguments start {B} _.
Arguments current_particle {B} _.
Arguments valid {B} _.
Arguments block {B} _.

Section Iterator.

Context {F B PD S : Type} `{ThinningTraits} `{BlockOps F B PD} `{VRawStream B S}.

(** The iterator together with the stream that its [stream] pointer shares. *)
Definition IterState : Type := RawParticleIterator B * S.

Definition on_iter_stream {A} (op : S -> outcome A * S) : M IterState A :=
  fun st => let '(o, s') := op (snd st) in (o, (fst st, s')).

Definition set_current_particle (n : Z) : M IterState unit :=
  modify (fun st => ({| it_thinning := it_thinning (fst st); start := start (fst st);
                        current_particle := n; valid := valid (fst st);
                        block := block (fst st) |}, snd st)).

Definition set_valid (v : bool) : M IterState unit :=
  modify (fun st => ({| it_thinning := it_thinning (fst st); start := start (fst st);
                        current_particle := current_particle (fst st); valid := v;
                        block := block (fst st) |}, snd st)).

Definition set_block (b : B) : M IterState unit :=
  modify (fun st => ({| it_thinning := it_thinning (fst st); start := start (fst st);
                        current_particle := current_particle (fst st);
                        valid := valid (fst st); block := b |}, snd st)).

Definition iter_kParticlesInBlock (it : RawParticleIterator B) : Z :=
  kParticlesInBlock (consts (it_thinning it)).

(** [return block.AsParticleBlock.fParticle + current_particle++;] *)
Definition return_current : M IterState (option PD) :=
  let* it := gets fst in
  let* _ := set_current_particle (current_particle it + 1) in
  ret (Some (fParticle (block it) (current_particle it))).

(** [GetOneParticle]: [Some d] is a pointer to a record, [None] the null
    pointer. *)
Definition GetOneParticle : M IterState (option PD) :=
  let* it := gets fst in
  if current_particle it =? iter_kParticlesInBlock it then
    if negb (valid it) then throw IteratorNotValid
    else
      let* ob := on_iter_stream (stream_GetNextBlock (it_thinning it)) in
      match ob with
      | None => throw ErrorReadingBlock
      | Some b =>
          let* _ := set_block b in
          if IsControl b || IsLongitudinal b   (* end of particle records *)
          then let* _ := set_valid false in ret None
          else let* _ := set_current_particle 0 in return_current
      end
  else return_current.

Definition Rewind : M IterState unit :=
  let* it := gets fst in
  let* _ := set_current_particle (iter_kParticlesInBlock it) in
  let* _ := set_valid true in
  on_iter_stream (stream_SeekTo (start it)).

(** The constructor; [block0] is what the member [block] holds before the
    first block is read. *)
Definition RawParticleIterator_new (T : Thinning) (block0 : B) (stream : S) (start0 : Z)
    : outcome unit * IterState :=
  let start1 := if start0 =? 0 then stream_GetNextPosition stream else start0 in
  Rewind ({| it_thinning := T; start := start1; current_particle := 0;
             valid := false; block := block0 |}, stream).

(** [VRawParticleIterator::Create] *)
Definition RawParticleIterator_Create (block0 : B) (stream : S) (start0 : Z)
    : outcome unit * IterState :=
  if stream_IsThinned stream
  then RawParticleIterator_new Thinned block0 stream start0
  else RawParticleIterator_new NotThinned block0 stream start0.

(** [Next] and [GetCorsikaParticle] convert the record that [GetOneParticle]
    points to into a [CorsikaParticle] and return null when it returns null. *)

(** [n] calls of [GetOneParticle] in a row, stopping at the first call that
    does not return a record: the records returned, the outcome of the run
    ([Return true] when a call returned the null pointer, [Return false] when
    all [n] calls returned a record) and the final state. *)
Fixpoint particles (n : nat) (st : IterState) : list PD * outcome bool * IterState :=
  match n with
  | O => ([], Return false, st)
  | Datatypes.S n' =>
      match GetOneParticle st with
      | (Return (Some d), st') =>
          let '(ds, o, st'') := particles n' st' in (d :: ds, o, st'')
      | (Return None, st') => ([], Return true, st')
      | (Throw e, st') => ([], Throw e, st')
      | (Undefined, st') => ([], Undefined, st')
      | (OutOfFuel, st') => ([], OutOfFuel, st')
      end
  end.

End Iterator.

(** ** CorsikaShowerFile *)

Inductive Status : Type := eSuccess | eFail | eEOF.

(** The seven profile vectors, which [CorsikaShower] and
    [CorsikaLongProfile] both hold under these names. *)
Record Profile (F : Type) : Type := {
  fdEdX : list F;
  fChargeProfile : list F;
  fGammaProfile : list F;
  fElectronProfile : list F;
  fMuonProfile : list F;
  fDepth_dE : list F;
  fDepth : list F
}.
Arguments fdEdX {F} _.
Arguments fChargeProfile {F} _.
Arguments fGammaProfile {F} _.
Arguments fElectronProfile {F} _.
Arguments fMuonProfile {F} _.
Arguments fDepth_dE {F} _.
Arguments fDepth {F} _.

Definition empty_profile {F} : Profile F :=
  {| fdEdX := []; fChargeProfile := []; fGammaProfile := [];
     fElectronProfile := []; fMuonProfile := []; fDepth_dE := []; fDepth := [] |}.

Record CorsikaLongProfile (F GH : Type) : Type := {
  lp_profile : Profile F;
  fGaisserHillas : GH;
  fCalorimetricEnergy : F
}.
Arguments lp_profile {F GH} _.
Arguments fGaisserHillas {F GH} _.
Arguments fCalorimetricEnergy {F GH} _.

(** The arguments with which [Read] constructs the
    [CorsikaShowerFileParticleIterator] of the current shower. *)
Record CorsikaShowerFileParticleIterator (F : Type) : Type := {
  pi_header : EventHeader F;
  pi_start : Z;
  pi_timeShift : F;
  pi_observationLevel : Z;
  pi_isThinned : bool;
  pi_keepMuProd : bool
}.
Arguments pi_header {F} _.
Arguments pi_start {F} _.
Arguments pi_timeShift {F} _.
Arguments pi_observationLevel {F} _.
Arguments pi_isThinned {F} _.
Arguments pi_keepMuProd {F} _.

(** Modelled from the spec: [CorsikaShower], one of the "event-model classes
    that merely hold decoded data": the header, the trailer, the particle
    iterator, the profile vectors and the two fit results. *)
Record CorsikaShower (F GH : Type) : Type := {
  shower_header : option (EventHeader F);
  shower_trailer : option (EventTrailer F);
  shower_particles : option (CorsikaShowerFileParticleIterator F);
  shower_profile : Profile F;
  shower_GaisserHillas : GH;
  shower_CalorimetricEnergy : F
}.
Arguments shower_header {F GH} _.
Arguments shower_trailer {F GH} _.
Arguments shower_particles {F GH} _.
Arguments shower_profile {F GH} _.
Arguments shower_GaisserHillas {F GH} _.
Arguments shower_CalorimetricEnergy {F GH} _.

Record FileIndex : Type := {
  eventHeaders : list Z;
  eventTrailers : list Z;
  longBlocks : list Z;
  IDToPosition : gmap Z Z
}.

(** The collaborators of the facade that are outside the three source files:
    the constants of [Constants.h], [ParticleList::CorsikaToPDG], the default
    [GaisserHillasParameter], and [CorsikaLongFile] (constructor, [size],
    [GetProfile]). *)
Class Collaborators (F GH LF : Type) : Type := {
  kEarthRadius : F;
  kSpeedOfLight : F;
  kDefaultAtmBoundary : F;             (* the literal 112.8292*1e5 *)
  CorsikaToPDG : Z -> Z;
  ePhoton : Z;                         (* CorsikaParticle::ePhoton *)
  GaisserHillas_default : GH;          (* GaisserHillasParameter gh; *)
  CorsikaLongFile_new : string -> F -> LF;
  CorsikaLongFile_size : LF -> Z;
  CorsikaLongFile_GetProfile : Z -> LF -> CorsikaLongProfile F GH * LF
}.

Record CorsikaShowerFile (F GH LF S : Type) : Type := {
  fRawStream : option S;               (* null when the file is closed *)
  fCurrentPosition : Z;
  fObservationLevel : Z;
  fIsThinned : bool;
  fFileScanned : bool;
  fIndex : FileIndex;
  fLongFile : string;
  fCorsikaLongFile : option LF;
  fCurrentShower : CorsikaShower F GH
}.
Arguments fRawStream {F GH LF S} _.
Arguments fCurrentPosition {F GH LF S} _.
Arguments fObservationLevel {F GH LF S} _.
Arguments fIsThinned {F GH LF S} _.
Arguments fFileScanned {F GH LF S} _.
Arguments fIndex {F GH LF S} _.
Arguments fLongFile {F GH LF S} _.
Arguments fCorsikaLongFile {F GH LF S} _.
Arguments fCurrentShower {F GH LF S} _.

Section Facade.

Context {F B PD S GH LF : Type}.
Context `{FloatOps F} `{BlockOps F B PD} `{VRawStream B S} `{Collaborators F GH LF}.

Definition ShowerFile : Type := CorsikaShowerFile F GH LF S.

Definition with_fRawStream (st : option S) (sf : ShowerFile) : ShowerFile :=
  {| fRawStream := st; fCurrentPosition := fCurrentPosition sf;
     fObservationLevel := fObservationLevel sf; fIsThinned := fIsThinned sf;
     fFileScanned := fFileScanned sf; fIndex := fIndex sf;
     fLongFile := fLongFile sf; fCorsikaLongFile := fCorsikaLongFile sf;
     fCurrentShower := fCurrentShower sf |}.

Definition with_fCurrentPosition (p : Z) (sf : ShowerFile) : ShowerFile :=
  {| fRawStream := fRawStream sf; fCurrentPosition := p;
     fObservationLevel := fObservationLevel sf; fIsThinned := fIsThinned sf;
     fFileScanned := fFileScanned sf; fIndex := fIndex sf;
     fLongFile := fLongFile sf; fCorsikaLongFile := fCorsikaLongFile sf;
     fCurrentShower := fCurrentShower sf |}.

Definition with_fObservationLevel (l : Z) (sf : ShowerFile) : ShowerFile :=
  {| fRawStream := fRawStream sf; fCurrentPosition := fCurrentPosition sf;
     fObservationLevel := l; fIsThinned := fIsThinned sf;
     fFileScanned := fFileScanned sf; fIndex := fIndex sf;
     fLongFile := fLongFile sf; fCorsikaLongFile := fCorsikaLongFile sf;
     fCurrentShower := fCurrentShower sf |}.

Definition with_fCorsikaLongFile (lf : option LF) (sf : ShowerFile) : ShowerFile :=
  {| fRawStream := fRawStream sf; fCurrentPosition := fCurrentPosition sf;
     fObservationLevel := fObservationLevel sf; fIsThinned := fIsThinned sf;
     fFileScanned := fFileScanned sf; fIndex := fIndex sf;
     fLongFile := fLongFile sf; fCorsikaLongFile := lf;
     fCurrentShower := fCurrentShower sf |}.

Definition with_fCurrentShower (sh : CorsikaShower F GH) (sf : ShowerFile) : ShowerFile :=
  {| fRawStream := fRawStream sf; fCurrentPosition := fCurrentPosition sf;
     fObservationLevel := fObservationLevel sf; fIsThinned := fIsThinned sf;
     fFileScanned := fFileScanned sf; fIndex := fIndex sf;
     fLongFile := fLongFile sf; fCorsikaLongFile := fCorsikaLongFile sf;
     fCurrentShower := sh |}.

(** A call through [fRawStream->]; through a null pointer the behaviour is
    undefined. *)
Definition on_stream {A} (op : S -> outcome A * S) : M ShowerFile A :=
  fun sf =>
    match fRawStream sf with
    | None => (Undefined, sf)
    | Some st => let '(o, st') := op st in (o, with_fRawStream (Some st') sf)
    end.

(** [IsOpen], declared in [CorsikaShowerFile.h]: the stream pointer is set
    (the test that [Read] spells [!fRawStream]). *)
Definition IsOpen (sf : ShowerFile) : bool :=
  match fRawStream sf with Some _ => true | None => false end.

(** [CorsikaShower(header, trailer, particleIterator)] *)
Definition CorsikaShower_new (header : EventHeader F) (trailer : EventTrailer F)
    (it : CorsikaShowerFileParticleIterator F) : CorsikaShower F GH :=
  {| shower_header := Some header; shower_trailer := Some trailer;
     shower_particles := Some it; shower_profile := empty_profile;
     shower_GaisserHillas := GaisserHillas_default;
     shower_CalorimetricEnergy := Fzero |}.

Definition set_profile (p : Profile F) (gh : GH) (e : F) (sh : CorsikaShower F GH)
    : CorsikaShower F GH :=
  {| shower_header := shower_header sh; shower_trailer := shower_trailer sh;
     shower_particles := shower_particles sh; shower_profile := p;
     shower_GaisserHillas := gh; shower_CalorimetricEnergy := e |}.

(** [GetCurrentShower().GetZenith()]: the zenith angle of the header. *)
Definition GetZenith (sh : CorsikaShower F GH) : F :=
  match shower_header sh with
  | Some h => fTheta h
  | None => Fzero
  end.

(** *** The in-stream longitudinal assembler *)

(** The [push_back]s of one entry onto the seven [aux] vectors. *)
Definition push_entry (e : LongEntry.t F) (aux : Profile F) : Profile F :=
  {| fdEdX := fdEdX aux ++ [Fzero];
     fChargeProfile := fChargeProfile aux ++ [LongEntry.fCharged e];
     fGammaProfile := fGammaProfile aux ++ [LongEntry.fGamma e];
     fElectronProfile :=
       fElectronProfile aux ++ [Fadd (LongEntry.fEplus e) (LongEntry.fEminus e)];
     fMuonProfile :=
       fMuonProfile aux ++ [Fadd (LongEntry.fMuPlus e) (LongEntry.fMuMinus e)];
     fDepth_dE := fDepth_dE aux ++ [LongEntry.fDepth e];
     fDepth := fDepth aux ++ [LongEntry.fDepth e] |}.

(** The loop over the entries of one block:
    [for (j = j0; j != kLongEntriesPerBlock; ++j, ++i) { if (i && !fEntries[j].fDepth) break; ... }]
    with [n] the number of indices from [j] to the end of the block.  In the
    loop over the first block [i] is itself the index, so there [j = i]. *)
Fixpoint collect_entries (entries : nat -> LongEntry.t F) (n : nat) (j : nat) (i : Z)
    (aux : Profile F) : Z * Profile F :=
  match n with
  | O => (i, aux)
  | Datatypes.S n' =>
      if negb (i =? 0) && Fis_zero (LongEntry.fDepth (entries j)) then (i, aux)
      else collect_entries entries n' (Datatypes.S j) (i + 1) (push_entry (entries j) aux)
  end.

(** The loop [for (int b = 1; b < nBlocks; ++b)], with [n] the number of
    iterations left; [None] is the [return eFail] inside the loop. *)
Fixpoint more_long_blocks (T : Thinning) (n : nat) (i : Z) (aux : Profile F)
    : M ShowerFile (option (Z * Profile F)) :=
  match n with
  | O => ret (Some (i, aux))
  | Datatypes.S n' =>
      let* ob := on_stream (stream_GetNextBlock T) in
      match ob with
      | None => ret None
      | Some block =>
          let longBlock := AsLongitudinalBlock block in
          let '(i', aux') :=
            collect_entries (fEntries longBlock) kLongEntriesPerBlock 0 i aux in
          more_long_blocks T n' i' aux'
      end
  end.

Definition set_shower_vectors (aux : Profile F) : M ShowerFile unit :=
  modify (fun sf =>
    with_fCurrentShower
      (set_profile aux (shower_GaisserHillas (fCurrentShower sf))
                   (shower_CalorimetricEnergy (fCurrentShower sf))
                   (fCurrentShower sf)) sf).

(** [ReadLongBlocks<Thinning>] *)
Definition ReadLongBlocks (T : Thinning) : M ShowerFile Status :=
  let* index := gets fIndex in
  let* position := gets fCurrentPosition in
  let* longPos := at_index (longBlocks index) position in
  let* _ := on_stream (stream_SeekTo longPos) in
  let* ob := on_stream (stream_GetNextBlock T) in
  match ob with
  | None => ret eFail
  | Some block =>
      if negb (IsLongitudinal block) then ret eFail
      else
        let longBlock := AsLongitudinalBlock block in
        let nBlocks := Z.rem (F_to_int (fStepsAndBlocks longBlock)) 100 in
        let '(i, aux) :=
          collect_entries (fEntries longBlock) kLongEntriesPerBlock 0 0 empty_profile in
        let* r := more_long_blocks T (Z.to_nat (nBlocks - 1)) i aux in
        match r with
        | None => ret eFail
        | Some (_, aux') =>
            let* _ := set_shower_vectors aux' in
            ret eSuccess
        end
  end.

(** [ReadLongFile] *)
Definition ReadLongFile : M ShowerFile Status :=
  let* _ := modify (fun sf =>
              match fCorsikaLongFile sf with
              | Some _ => sf
              | None =>
                  with_fCorsikaLongFile
                    (Some (CorsikaLongFile_new (fLongFile sf)
                             (GetZenith (fCurrentShower sf)))) sf
              end) in
  let* olf := gets fCorsikaLongFile in
  let* position := gets fCurrentPosition in
  match olf with
  | None => undefined
  | Some lf =>
      if position <=? CorsikaLongFile_size lf then
        let '(p, lf') := CorsikaLongFile_GetProfile position lf in
        let* _ := modify (with_fCorsikaLongFile (Some lf')) in
        let* _ := modify (fun sf =>
                    with_fCurrentShower
                      (set_profile (lp_profile p) (fGaisserHillas p)
                                   (fCalorimetricEnergy p) (fCurrentShower sf)) sf) in
        ret eSuccess
      else
        let* _ := modify (fun sf =>
                    with_fCurrentShower
                      (set_profile empty_profile GaisserHillas_default Fzero
                                   (fCurrentShower sf)) sf) in
        ret eSuccess
  end.

(** *** Read *)

(** Lines 189-197: a requested level above the number of levels of the
    header is replaced by 1. *)
Definition checked_observation_level (header : EventHeader F) (level : Z) : Z :=
  if Fltb (fObservationLevels header) (F_of_Z level) then 1 else level.

(** Lines 200-201: [header.fObservationHeight[int(header.fObservationLevels) - 1]] *)
Definition heightObsLevel_of {St} (header : EventHeader F) : M St F :=
  at_index (fObservationHeight header) (F_to_int (fObservationLevels header) - 1).

(** Lines 202-239: the time shift from the header and the observation
    height. *)
Definition time_shift (header : EventHeader F) (heightObsLevel : F) : F :=
  let heightFirstInt := Fabs (fZFirst header) in
  let hAtmBoundary :=
    if Fltb Fzero (fStartingHeight header) then fStartingHeight header
    else kDefaultAtmBoundary in
  let hReference :=
    if Fltb (fZFirst header) Fzero then hAtmBoundary else heightFirstInt in
  let cosZenith := Fcos (fTheta header) in
  if negb (Fis_zero (fFlagCurved header)) then
    let hReference :=
      if CorsikaToPDG (F_to_int (fParticleId header)) =? ePhoton
      then heightFirstInt else hReference in
    let r := Fadd kEarthRadius heightObsLevel in
    let d := Fsub hReference heightObsLevel in
    let t0 := Fadd (Fadd (Fmul (Fmul r cosZenith) (Fmul r cosZenith)) (Fmul d d))
                   (Fmul (Fmul (F_of_Z 2) r) d) in
    Fdiv (Fsub (Fsqrt t0) (Fmul r cosZenith)) kSpeedOfLight
  else
    Fdiv (Fsub hReference heightObsLevel) (Fmul cosZenith kSpeedOfLight).

(** Lines 252-255: which reader fills the longitudinal profile. *)
Definition read_profile (T : Thinning) : M ShowerFile unit :=
  let* index := gets fIndex in
  let* longFile := gets fLongFile in
  if 0 <? Z.of_nat (length (longBlocks index)) then
    let* _ := ReadLongBlocks T in ret tt
  else if negb (String.eqb longFile "") then
    let* _ := ReadLongFile in ret tt
  else ret tt.

(** [Read<Thinning>] *)
Definition Read (T : Thinning) : M ShowerFile Status :=
  fun sf0 =>
  if negb (IsOpen sf0)
     || (Z.of_nat (length (eventHeaders (fIndex sf0))) <=? fCurrentPosition sf0)
  then (Return eEOF, sf0)
  else
   (let* index := gets fIndex in
    let* position := gets fCurrentPosition in
    let* headerPos := at_index (eventHeaders index) position in
    let* _ := on_stream (stream_SeekTo headerPos) in
    let* ob := on_stream (stream_GetNextBlock T) in
    match ob with
    | None => ret eFail
    | Some headerBlock =>
      if negb (IsEventHeader headerBlock) then ret eFail
      else
        let header := AsEventHeader headerBlock in
        let* trailerPos := at_index (eventTrailers index) position in
        let* _ := on_stream (stream_SeekTo trailerPos) in
        let* ob' := on_stream (stream_GetNextBlock T) in
        match ob' with
        | None => ret eFail
        | Some trailerBlock =>
          if negb (IsEventTrailer trailerBlock) then ret eFail
          else
            let trailer := AsEventTrailer trailerBlock in
            let* _ := modify (fun sf =>
                        with_fObservationLevel
                          (checked_observation_level header (fObservationLevel sf)) sf) in
            let* heightObsLevel := heightObsLevel_of header in
            let timeShift := time_shift header heightObsLevel in
            let* level := gets fObservationLevel in
            let* thinned := gets fIsThinned in
            let particleIterator :=
              {| pi_header := header; pi_start := headerPos + 1;
                 pi_timeShift := timeShift; pi_observationLevel := level;
                 pi_isThinned := thinned; pi_keepMuProd := true |} in
            let* _ := modify (with_fCurrentShower
                                (CorsikaShower_new header trailer particleIterator)) in
            let* _ := read_profile T in
            let* _ := modify (fun sf =>
                        with_fCurrentPosition (fCurrentPosition sf + 1) sf) in
            ret eSuccess
        end
    end) sf0.

(** [FindEvent] *)
Definition FindEvent (eventId : Z) : M ShowerFile Status :=
  fun sf =>
  if negb (IsOpen sf) then (Return eEOF, sf)
  else
    match IDToPosition (fIndex sf) !! eventId with
    | None => (Return eFail, sf)
    | Some second =>
        if Z.of_nat (length (eventHeaders (fIndex sf))) <=? second
        then (Return eFail, sf)
        else
          let sf1 := with_fCurrentPosition second sf in
          if fIsThinned sf1 then Read Thinned sf1 else Read NotThinned sf1
    end.

End Facade.

(** ** CorsikaShowerFile: construction, Open, Close, IsValid, GetNEvents *)

(** The exceptions that the facade throws itself, one constructor per
    [throw] site of [CorsikaShowerFile.cxx] (the comment gives the message
    of the source). *)
Inductive facade_exn : Type :=
  | NoRandomAccess (theFileName : string)
      (* "File <name> does not support random access. This class can not handle it" *)
  | EventsOfClosedFile
      (* "Cannot request number of events from closed file" *)
  | EventsOfNotSeekable.
      (* "Cannot request number of events for this file. It is not seekable." *)

(** The result of a method that can throw itself: the outcome of the calls
    that it made (a returned value included), or its own exception. *)
Inductive call (A : Type) : Type :=
  | Done (o : outcome A)
  | Raised (e : facade_exn).

Arguments Done {A} o.
Arguments Raised {A} e.

(** The outcome of a call that did not return, at another result type. *)
Definition not_returned {A A'} (o : outcome A) : outcome A' :=
  match o with
  | Return _ => Undefined
  | Throw e => Throw e
  | Undefined => Undefined
  | OutOfFuel => OutOfFuel
  end.

(** What [Open], [GetNEvents] and the constructors take from outside the
    source files: [boost::filesystem] ([replace_extension], [exists],
    [is_regular_file]), [RawStreamFactory::Create], [VRawStream::Scan]
    (declared in [RawStream.h]), the default constructor of [CorsikaShower]
    and the default value of the parameter [scan] of [Open] (declared in
    [CorsikaShowerFile.h]). *)
Class FacadeEnv (F GH S : Type) : Type := {
  replace_extension_long : string -> string;
  is_regular_file : string -> bool;
  RawStreamFactory_Create : string -> outcome S;
  stream_Scan : bool -> S -> outcome FileIndex * S;
  CorsikaShower_default : CorsikaShower F GH;
  Open_scan_default : bool
}.

Definition empty_index : FileIndex :=
  {| eventHeaders := []; eventTrailers := []; longBlocks := []; IDToPosition := ∅ |}.

Section Lifecycle.

Context {F B PD S GH LF : Type}.
Context `{FloatOps F} `{BlockOps F B PD} `{VRawStream B S} `{Collaborators F GH LF}.
Context `{FacadeEnv F GH S}.

Definition with_fIsThinned (t : bool) (sf : CorsikaShowerFile F GH LF S)
    : CorsikaShowerFile F GH LF S :=
  {| fRawStream := fRawStream sf; fCurrentPosition := fCurrentPosition sf;
     fObservationLevel := fObservationLevel sf; fIsThinned := t;
     fFileScanned := fFileScanned sf; fIndex := fIndex sf;
     fLongFile := fLongFile sf; fCorsikaLongFile := fCorsikaLongFile sf;
     fCurrentShower := fCurrentShower sf |}.

Definition with_fFileScanned (b : bool) (sf : CorsikaShowerFile F GH LF S)
    : CorsikaShowerFile F GH LF S :=
  {| fRawStream := fRawStream sf; fCurrentPosition := fCurrentPosition sf;
     fObservationLevel := fObservationLevel sf; fIsThinned := fIsThinned sf;
     fFileScanned := b; fIndex := fIndex sf;
     fLongFile := fLongFile sf; fCorsikaLongFile := fCorsikaLongFile sf;
     fCurrentShower := fCurrentShower sf |}.

Definition with_fIndex (index : FileIndex) (sf : CorsikaShowerFile F GH LF S)
    : CorsikaShowerFile F GH LF S :=
  {| fRawStream := fRawStream sf; fCurrentPosition := fCurrentPosition sf;
     fObservationLevel := fObservationLevel sf; fIsThinned := fIsThinned sf;
     fFileScanned := fFileScanned sf; fIndex := index;
     fLongFile := fLongFile sf; fCorsikaLongFile := fCorsikaLongFile sf;
     fCurrentShower := fCurrentShower sf |}.

Definition with_fLongFile (name : string) (sf : CorsikaShowerFile F GH LF S)
    : CorsikaShowerFile F GH LF S :=
  {| fRawStream := fRawStream sf; fCurrentPosition := fCurrentPosition sf;
     fObservationLevel := fObservationLevel sf; fIsThinned := fIsThinned sf;
     fFileScanned := fFileScanned sf; fIndex := fIndex sf;
     fLongFile := name; fCorsikaLongFile := fCorsikaLongFile sf;
     fCurrentShower := fCurrentShower sf |}.

(** [CorsikaShowerFile()]: the members that the initialiser list does not
    name are default-constructed. *)
Definition CorsikaShowerFile_new : CorsikaShowerFile F GH LF S :=
  {| fRawStream := None; fCurrentPosition := 0; fObservationLevel := 1;
     fIsThinned := true; fFileScanned := false; fIndex := empty_index;
     fLongFile := ""; fCorsikaLongFile := None;
     fCurrentShower := CorsikaShower_default |}.

(** [Close]: the stream pointer is reset and the four containers of the
    index are cleared. *)
Definition Close (sf : CorsikaShowerFile F GH LF S) : CorsikaShowerFile F GH LF S :=
  with_fIndex empty_index (with_fRawStream None sf).

(** [fIndex = fRawStream->Scan(false); fFileScanned = true;] for the stream
    [stream]: when [Scan] does not return, the assignments are not made. *)
Definition scan_into (stream : S) (sf : CorsikaShowerFile F GH LF S)
    : outcome unit * CorsikaShowerFile F GH LF S :=
  match stream_Scan false stream with
  | (Return index, stream') =>
      (Return tt,
       with_fFileScanned true (with_fIndex index (with_fRawStream (Some stream') sf)))
  | (o, stream') => (not_returned o, with_fRawStream (Some stream') sf)
  end.

(** [Open] *)
Definition Open (theFileName : string) (scan : bool) (sf0 : CorsikaShowerFile F GH LF S)
    : call unit * CorsikaShowerFile F GH LF S :=
  let sf1 := Close sf0 in
  (* the name for the long file *)
  let p := replace_extension_long theFileName in
  let sf2 := with_fLongFile (if is_regular_file p then p else "") sf1 in
  match RawStreamFactory_Create theFileName with
  | Return stream =>
      let sf3 := with_fIsThinned (stream_IsThinned stream)
                   (with_fRawStream (Some stream) sf2) in
      if scan && stream_IsSeekable stream then
        let '(o, sf4) := scan_into stream sf3 in (Done o, sf4)
      else if negb (stream_IsSeekable stream) then
        (Raised (NoRandomAccess theFileName), sf3)
      else (Done (Return tt), sf3)
  | o => (Done (not_returned o), sf2)
  end.

(** [CorsikaShowerFile(theFileName, requireParticleFile)] *)
Definition CorsikaShowerFile_new_named (theFileName : string) (requireParticleFile : bool)
    : call unit * CorsikaShowerFile F GH LF S :=
  if requireParticleFile then Open theFileName Open_scan_default CorsikaShowerFile_new
  else (Done (Return tt), CorsikaShowerFile_new).

(** [IsValid()]: [return fRawStream->IsValid();] *)
Definition CorsikaShowerFile_IsValid : M (CorsikaShowerFile F GH LF S) bool :=
  on_stream stream_IsValid.

(** [IsValid(theFileName)]: a reader of its own opens the file without a
    scan and is asked. *)
Definition IsValid_file (theFileName : string) : call bool :=
  match Open theFileName false CorsikaShowerFile_new with
  | (Done (Return _), file) => Done (fst (CorsikaShowerFile_IsValid file))
  | (Done o, _) => Done (not_returned o)
  | (Raised e, _) => Raised e
  end.

(** [GetNEvents] *)
Definition GetNEvents (sf : CorsikaShowerFile F GH LF S)
    : call Z * CorsikaShowerFile F GH LF S :=
  match fRawStream sf with
  | None => (Raised EventsOfClosedFile, sf)
  | Some stream =>
      if negb (stream_IsSeekable stream) then (Raised EventsOfNotSeekable, sf)
      else if negb (fFileScanned sf) then
        match scan_into stream sf with
        | (Return _, sf') =>
            (Done (Return (Z.of_nat (size (IDToPosition (fIndex sf'))))), sf')
        | (o, sf') => (Done (not_returned o), sf')
        end
      else (Done (Return (Z.of_nat (size (IDToPosition (fIndex sf))))), sf)
  end.

End Lifecycle.

(** ** The resolution order in the words of the spec *)

(** Section 4.B: the shape [(thinning, word_size)] for the two readings
    [len64] and [len32] of the first eight bytes; [None] is [UnknownShape]. *)
Definition spec_resolution_order `{ThinningTraits} (len64 len32 : Z) : option (Thinning * Z) :=
  if len64 =? kBytesPerBlock (consts Thinned) then Some (Thinned, 64)
  else if len64 =? kBytesPerBlock (consts NotThinned) then Some (NotThinned, 64)
  else if len32 =? kBytesPerBlock (consts Thinned) then Some (Thinned, 32)
  else if len32 =? kBytesPerBlock (consts NotThinned) then Some (NotThinned, 32)
  else None.

(** ** Notions used in the statements *)

(** *** The framed block stream *)

(** The constants describe a block layout: a disk block holds at least one
    sub-block and a sub-block at least one byte. *)
Definition wf_consts `{ThinningTraits} : Prop :=
  forall T, 0 < kSubBlocksPerBlock (consts T) /\ 0 < sizeof_Block (consts T).

(** Offsets into the file and one disk block more fit [size_t]. *)
Definition file_fits `{ThinningTraits} (d : list Byte.byte) : Prop :=
  forall T P, (P <= 2)%nat -> Z.of_nat (length d) + sizeof_DiskBlock T P <= 2 ^ 64.

Section StreamNotions.

Context `{ThinningTraits} `{StreamEnv}.

(** The padding words pairwise equal, as a proposition. *)
Definition padding_equal (T : Thinning) (P : nat) (buf : list Byte.byte) : Prop :=
  forall i, (i < P)%nat -> padding_start buf i = padding_end T P buf i.

(** The bytes that [ReadDiskBlock] gets from the source in state [s]. *)
Definition next_read (s : RawStream) : list Byte.byte :=
  fst (FileStream_read (sizeof_DiskBlock (thinning s) (padding s)) (file s)).

Definition stream_K (s : RawStream) : Z := kBlocksInDiskBlock (thinning s).
Definition stream_S (s : RawStream) : Z := sizeof_DiskBlock (thinning s) (padding s).

(** Where the disk block [current_block] starts in the source, as [SeekTo]
    computes it, and the bytes that a read of a disk block gets there. *)
Definition sector_offset (s : RawStream) : nat :=
  Z.to_nat (wrap64 (current_block s * stream_S s)).

Definition sector_bytes (s : RawStream) : list Byte.byte :=
  take (Z.to_nat (stream_S s)) (drop (sector_offset s) (data (file s))).

(** What no operation on a seekable source changes. *)
Record static_ok (s : RawStream) : Prop := {
  st_seekable : seekable (file s) = true;
  st_K : 0 < stream_K s;
  st_Bs : 0 < sizeof_Block (consts (thinning s));
  st_P : (1 <= padding s)%nat;
  st_size : Z.of_nat (length (data (file s))) + stream_S s <= 2 ^ 64
}.

(** The buffer and the source agree with the position: a valid buffer is
    what a read of the current disk block leaves in it and has passed the
    padding check, and the source stands behind that disk block; with an
    invalid buffer the source stands at the start of the current disk block
    (or both are behind the end of the file). *)
Record synced (s : RawStream) : Prop := {
  sync_static : static_ok s;
  sync_cdb : 0 <= current_disk_block s < stream_K s;
  sync_cb : 0 <= current_block s;
  sync_off : current_block s * stream_S s < 2 ^ 64;
  sync_tell : current_disk_block s + stream_K s * current_block s < 2 ^ 64;
  sync_pos :
    drop (pos (file s)) (data (file s))
    = drop (sector_offset s + (if buffer_valid s then length (sector_bytes s) else 0))
           (data (file s));
  sync_buf :
    buffer_valid s = true ->
    sector_bytes s <> [] /\
    overlay (sector_bytes s) (buffer s) = buffer s /\
    check_padding (thinning s) (padding s) (buffer s) = true
}.

(** The states that the stream reaches from the state [s0] in which [Create]
    returned it, through calls that returned: [GetNextBlock], [SeekTo] (to a
    block whose byte offset fits [size_t]) and [IsValid]. *)
Inductive reachable (s0 : RawStream) : RawStream -> Prop :=
  | reach_start : reachable s0 s0
  | reach_GetNextBlock B s o s' :
      reachable s0 s ->
      GetNextBlock B s = (Return o, s') ->
      reachable s0 s'
  | reach_SeekTo fuel p s s' :
      reachable s0 s ->
      0 <= p < 2 ^ 64 ->
      p / kBlocksInDiskBlock (thinning s) * sizeof_DiskBlock (thinning s) (padding s) < 2 ^ 64 ->
      SeekTo fuel p s = (Return tt, s') ->
      reachable s0 s'
  | reach_IsValid fuel s b s' :
      reachable s0 s ->
      IsValid fuel s = (Return b, s') ->
      reachable s0 s'.

(** What the operations never change on a seekable source. *)
Definition same_source (s s' : RawStream) : Prop :=
  thinning s' = thinning s /\ padding s' = padding s /\
  data (file s') = data (file s) /\ seekable (file s') = seekable (file s).

(** What a caller sees of [GetNextBlock]: the outcome and the position
    behind the call. *)
Definition observe (r : outcome (option Block) * RawStream)
    : outcome (option Block) * Z * Z :=
  (fst r, current_block (snd r), current_disk_block (snd r)).

(** The position behind a sub-block that was handed out. *)
Definition advanced (s : RawStream) : Z * Z :=
  if stream_K s <=? wrap64 (current_disk_block s + 1)
  then (wrap64 (current_block s + 1), 0)
  else (current_block s, wrap64 (current_disk_block s + 1)).

(** On a file of whole disk blocks the buffer has the size of a disk block
    and the first disk block passes the padding check. *)
Record whole (s : RawStream) : Prop := {
  whole_file : exists m, 0 < m /\ Z.of_nat (length (data (file s))) = m * stream_S s;
  whole_buffer : Z.of_nat (length (buffer s)) = stream_S s;
  whole_first :
    check_padding (thinning s) (padding s)
      (take (Z.to_nat (stream_S s)) (data (file s))) = true
}.

End StreamNotions.

(** *** The particle iterator *)

Section IteratorNotions.

Context {F B PD S : Type} `{ThinningTraits} `{BlockOps F B PD} `{VRawStream B S}.

(** The records of a particle block, in the order of the array. *)
Definition block_records (T : Thinning) (b : B) : list PD :=
  map (fun i => fParticle b (Z.of_nat i)) (seq 0 (Z.to_nat (kParticlesInBlock (consts T)))).

(** [stream_yields T s bs s']: from [s], successive calls of [GetNextBlock]
    return the blocks [bs] and leave the stream in [s']. *)
Inductive stream_yields (T : Thinning) : S -> list B -> S -> Prop :=
  | yields_nil s : stream_yields T s [] s
  | yields_cons s b s1 bs s2 :
      stream_GetNextBlock T s = (Return (Some b), s1) ->
      stream_yields T s1 bs s2 ->
      stream_yields T s (b :: bs) s2.

Definition is_end_block (b : B) : bool := IsControl b || IsLongitudinal b.

Definition iter_with (it : RawParticleIterator B) (cp : Z) (v : bool) (b : B)
    : RawParticleIterator B :=
  {| it_thinning := it_thinning it; start := start it; current_particle := cp;
     valid := v; block := b |}.

End IteratorNotions.

(** *** The shower facade *)

Section FacadeNotions.

Context {F B PD S GH LF : Type}.

Context `{FloatOps F} `{BlockOps F B PD} `{VRawStream B S} `{Collaborators F GH LF}.

(** The entries of a longitudinal block, in the order of the array. *)
Definition entries_of (lb : LongitudinalBlock F) : list (LongEntry.t F) :=
  map (fEntries lb) (seq 0 kLongEntriesPerBlock).

(** The entries of one block that the assembler takes: all up to the first
    one with depth zero; before anything was collected ([started = false])
    the very first entry is taken whatever its depth. *)
Fixpoint kept_prefix (started : bool) (es : list (LongEntry.t F)) : list (LongEntry.t F) :=
  match es with
  | [] => []
  | e :: es' =>
      if started && Fis_zero (LongEntry.fDepth e) then []
      else e :: kept_prefix true es'
  end.

(** The entries taken from a chain of blocks, with [i] entries collected
    before: every block is cut at its own first zero depth. *)
Fixpoint kept_chain (i : Z) (lbs : list (LongitudinalBlock F)) : list (LongEntry.t F) :=
  match lbs with
  | [] => []
  | lb :: lbs' =>
      let k := kept_prefix (negb (i =? 0)) (entries_of lb) in
      k ++ kept_chain (i + Z.of_nat (length k)) lbs'
  end.

(** The seven columns of a list of entries. *)
Definition profile_of (es : list (LongEntry.t F)) : Profile F :=
  {| fdEdX := map (fun _ => Fzero) es;
     fChargeProfile := map LongEntry.fCharged es;
     fGammaProfile := map LongEntry.fGamma es;
     fElectronProfile := map (fun e => Fadd (LongEntry.fEplus e) (LongEntry.fEminus e)) es;
     fMuonProfile := map (fun e => Fadd (LongEntry.fMuPlus e) (LongEntry.fMuMinus e)) es;
     fDepth_dE := map LongEntry.fDepth es;
     fDepth := map LongEntry.fDepth es |}.

(** All seven columns have [n] elements. *)
Definition columns_have_length (p : Profile F) (n : nat) : Prop :=
  length (fdEdX p) = n /\ length (fChargeProfile p) = n /\
  length (fGammaProfile p) = n /\ length (fElectronProfile p) = n /\
  length (fMuonProfile p) = n /\ length (fDepth_dE p) = n /\ length (fDepth p) = n.

(** [reads_blocks T sf bs sf']: successive calls of [GetNextBlock] through
    the reader's stream return the blocks [bs]. *)
Inductive reads_blocks (T : Thinning) :
    CorsikaShowerFile F GH LF S -> list B -> CorsikaShowerFile F GH LF S -> Prop :=
  | reads_nil sf : reads_blocks T sf [] sf
  | reads_cons sf b sf1 bs sf2 :
      on_stream (stream_GetNextBlock T) sf = (Return (Some b), sf1) ->
      reads_blocks T sf1 bs sf2 ->
      reads_blocks T sf (b :: bs) sf2.

End FacadeNotions.

(** *** Runs of reads *)

Section StreamRuns.

Context `{ThinningTraits} `{StreamEnv}.

(** The stream behind [n] calls of [GetNextBlock] for blocks of the stream's
    own thinning that all returned a block; [None] when one of them did
    not. *)
Fixpoint read_blocks (n : nat) (s : RawStream) : option RawStream :=
  match n with
  | O => Some s
  | Datatypes.S n' =>
      match GetNextBlock (thinning s) s with
      | (Return (Some _), s') => read_blocks n' s'
      | _ => None
      end
  end.


End StreamRuns.

(** *** The record index of the particle iterator *)

Section IteratorBounds.

Context {F B PD S : Type} `{ThinningTraits} `{BlockOps F B PD} `{VRawStream B S}.

(** The index of the next record is inside the block or just behind it. *)
Definition index_in_block (it : RawParticleIterator B) : Prop :=
  0 <= current_particle it <= iter_kParticlesInBlock it.

End IteratorBounds.

(** *** Frames of the shower facade *)

Section FacadeFrames.

Context {F B PD S GH LF : Type}.
Context `{FloatOps F} `{BlockOps F B PD} `{VRawStream B S} `{Collaborators F GH LF}.

(** [stable g m]: the computation [m] leaves the part [g] of the reader as
    it was, whatever its outcome. *)
Definition stable {X A} (g : CorsikaShowerFile F GH LF S -> X)
    (m : M (CorsikaShowerFile F GH LF S) A) : Prop :=
  forall sf, g (snd (m sf)) = g sf.

(** The request that the reader holds: where it stands, what it was asked
    for and what it knows of the file. *)
Definition request (sf : CorsikaShowerFile F GH LF S) :=
  (fCurrentPosition sf, fObservationLevel sf, fIsThinned sf, fFileScanned sf,
   fIndex sf, fLongFile sf).

(** The header, the trailer and the particle iterator of the current
    shower. *)
Definition shower_identity (sf : CorsikaShowerFile F GH LF S) :=
  (shower_header (fCurrentShower sf), shower_trailer (fCurrentShower sf),
   shower_particles (fCurrentShower sf)).

(** What [Read] never touches. *)
Definition file_knowledge (sf : CorsikaShowerFile F GH LF S) :=
  (fIsThinned sf, fFileScanned sf, fIndex sf, fLongFile sf).

(** A computation that moves the position on by one exactly when it
    returns [eSuccess]. *)
Definition counts_success (m : M (CorsikaShowerFile F GH LF S) Status) : Prop :=
  forall sf,
    fCurrentPosition (snd (m sf))
    = match fst (m sf) with
      | Return eSuccess => fCurrentPosition sf + 1
      | _ => fCurrentPosition sf
      end.

(** What [Open] and [Close] leave alone. *)
Definition session (sf : CorsikaShowerFile F GH LF S) :=
  (fCurrentPosition sf, fObservationLevel sf, fCorsikaLongFile sf, fCurrentShower sf).

End FacadeFrames.

(** ** Instances used in the examples *)

(** *** Files for the byte-level stream *)

Definition bytes_of (l : list Z) : list Byte.byte := map byte_of_Z l.

(** Modelled from the spec: the block classifier of section 4.D, which
    compares the first four bytes of a block with an ASCII tag. *)
Definition has_tag (tag : list Z) (b : Block) : bool :=
  bool_decide (map byte_val (take 4 b) = tag).

Definition tag_RUNH : list Z := [82; 85; 78; 72].
Definition tag_EVTH : list Z := [69; 86; 84; 72].

(** A thinned sub-block of the spec's size (312 words) that starts with
    [tag] and is filled with the byte [fill]. *)
Definition tagged_block (tag : list Z) (fill : Z) : Block :=
  bytes_of tag ++ repeat (byte_of_Z fill) (312 * 4 - 4).

(** A disk block of a thinned file with 64-bit framing: the padding value
    [pad] as two 32-bit words (the second one zero) before and behind the one
    sub-block. *)
Definition sector64 (pad_start pad_end : Z) (b : Block) : list Byte.byte :=
  bytes_of [pad_start; pad_start / 256; 0; 0; 0; 0; 0; 0] ++ b ++
  bytes_of [pad_end; pad_end / 256; 0; 0; 0; 0; 0; 0].

(** Two disk blocks; the padding words of the second one are equal to each
    other (both 0) but are not the block size 1248. *)
Definition file_two_sectors : list Byte.byte :=
  sector64 1248 1248 (tagged_block tag_RUNH 0) ++ sector64 0 0 (tagged_block tag_EVTH 1).

(** A file that ends behind the eight bytes that [Create] reads. *)
Definition file_eight_bytes : list Byte.byte :=
  bytes_of [1248; 1248 / 256; 0; 0; 0; 0; 0; 0].

(** Two whole disk blocks and a third one cut off behind its first twelve
    bytes (the leading padding and the tag of its sub-block). *)
Definition file_truncated : list Byte.byte :=
  sector64 1248 1248 (tagged_block tag_RUNH 0) ++
  sector64 1248 1248 (tagged_block tag_EVTH 1) ++
  take 12 (sector64 1248 1248 (tagged_block tag_EVTH 2)).

(** Three whole disk blocks. *)
Definition file_three_sectors : list Byte.byte :=
  sector64 1248 1248 (tagged_block tag_RUNH 0) ++
  sector64 1248 1248 (tagged_block tag_EVTH 1) ++
  sector64 1248 1248 (tagged_block tag_EVTH 2).

Definition example_files (name : string) : option (list Byte.byte * bool) :=
  if String.eqb name "two_sectors" then Some (file_two_sectors, true)
  else if String.eqb name "eight_bytes" then Some (file_eight_bytes, true)
  else if String.eqb name "truncated" then Some (file_truncated, true)
  else if String.eqb name "three_sectors" then Some (file_three_sectors, true)
  else None.

Definition spec_traits : ThinningTraits := {| consts := spec_consts |}.

Definition example_env : StreamEnv :=
  {| file_system := example_files; IsRunHeader := has_tag tag_RUNH |}.

(** Memory that holds zero bytes. *)
Definition zero_junk (i : nat) : Byte.byte := Byte.x00.

(** *** Decoded blocks and a stream over them *)

(** Floats of the examples: terms over integer literals.  The arithmetic
    stays symbolic; tests and conversions are decided on literals. *)
Inductive fexp : Type :=
  | FInt (z : Z)
  | FAdd (a b : fexp)
  | FSub (a b : fexp)
  | FMul (a b : fexp)
  | FDiv (a b : fexp)
  | FSqrt (a : fexp)
  | FCos (a : fexp)
  | FAbs (a : fexp).

Definition fexp_FloatOps : FloatOps fexp :=
  {| Fzero := FInt 0;
     Fadd := FAdd; Fsub := FSub; Fmul := FMul; Fdiv := FDiv;
     Fsqrt := FSqrt; Fcos := FCos; Fabs := FAbs;
     Fltb := fun a b => match a, b with FInt x, FInt y => x <? y | _, _ => false end;
     Fis_zero := fun a => match a with FInt 0 => true | _ => false end;
     F_of_Z := FInt;
     F_to_int := fun a => match a with FInt x => x | _ => 0 end |}.

(** Modelled from the spec: the particle record of section 3 (a composite
    id, momentum, position, time, and the weight of a thinned file). *)
Record ParticleData : Type := {
  fDescription : Z;
  fPx : Z; fPy : Z; fPz : Z;
  fX : Z; fY : Z; fTorZ : Z;
  fWeight : Z
}.

Definition zero_particle : ParticleData :=
  {| fDescription := 0; fPx := 0; fPy := 0; fPz := 0;
     fX := 0; fY := 0; fTorZ := 0; fWeight := 0 |}.

Definition particle (description : Z) : ParticleData :=
  {| fDescription := description; fPx := 1; fPy := 1; fPz := 1;
     fX := 1; fY := 1; fTorZ := 1; fWeight := 1 |}.

(** A block by its type and decoded content. *)
Inductive DBlock : Type :=
  | RunHeaderBlock
  | RunEndBlock
  | EventHeaderBlock (h : EventHeader fexp)
  | EventTrailerBlock (t : EventTrailer fexp)
  | LongBlock (l : LongitudinalBlock fexp)
  | ParticleBlock (ps : list ParticleData).

Definition zero_header : EventHeader fexp :=
  {| fParticleId := FInt 0; fStartingHeight := FInt 0; fZFirst := FInt 0;
     fTheta := FInt 0; fObservationLevels := FInt 0; fObservationHeight := [];
     fFlagCurved := FInt 0 |}.

Definition zero_entry : LongEntry.t fexp :=
  {| LongEntry.fDepth := FInt 0; LongEntry.fGamma := FInt 0;
     LongEntry.fEplus := FInt 0; LongEntry.fEminus := FInt 0;
     LongEntry.fMuPlus := FInt 0; LongEntry.fMuMinus := FInt 0;
     LongEntry.fCharged := FInt 0 |}.

(** The views of a block of another type give zeroed records. *)
Definition DBlock_ops : BlockOps fexp DBlock ParticleData :=
  {| IsControl := fun b =>
       match b with
       | RunHeaderBlock | RunEndBlock | EventHeaderBlock _ | EventTrailerBlock _ => true
       | _ => false
       end;
     IsLongitudinal := fun b => match b with LongBlock _ => true | _ => false end;
     IsEventHeader := fun b => match b with EventHeaderBlock _ => true | _ => false end;
     IsEventTrailer := fun b => match b with EventTrailerBlock _ => true | _ => false end;
     AsEventHeader := fun b => match b with EventHeaderBlock h => h | _ => zero_header end;
     AsEventTrailer := fun b =>
       match b with EventTrailerBlock t => t | _ => {| trailer_words := [] |} end;
     AsLongitudinalBlock := fun b =>
       match b with
       | LongBlock l => l
       | _ => {| fStepsAndBlocks := FInt 0; fEntries := fun _ => zero_entry |}
       end;
     fParticle := fun b i =>
       match b with
       | ParticleBlock ps => nth (Z.to_nat i) ps zero_particle
       | _ => zero_particle
       end;
     kLongEntriesPerBlock := 26 |}.

(** A seekable thinned stream over a list of decoded blocks. *)
Record MemStream : Type := {
  mem_blocks : list DBlock;
  mem_next : Z
}.

Definition MemStream_VRawStream : VRawStream DBlock MemStream :=
  {| stream_GetNextBlock := fun T s =>
       match T with
       | Thinned =>
           match mem_blocks s !! Z.to_nat (mem_next s) with
           | Some b => (Return (Some b),
                        {| mem_blocks := mem_blocks s; mem_next := mem_next s + 1 |})
           | None => (Return None, s)
           end
       | NotThinned => (Return None, s)
       end;
     stream_GetNextPosition := mem_next;
     stream_SeekTo := fun p s => (Return tt, {| mem_blocks := mem_blocks s; mem_next := p |});
     stream_IsSeekable := fun _ => true;
     stream_IsThinned := fun _ => true;
     stream_IsValid := fun s => (Return true, s) |}.

Definition example_collaborators : Collaborators fexp unit unit :=
  {| kEarthRadius := FInt 637131500; kSpeedOfLight := FInt 30;
     kDefaultAtmBoundary := FInt 11282920;
     CorsikaToPDG := fun id => if id =? 1 then 22 else id;
     ePhoton := 22;
     GaisserHillas_default := tt;
     CorsikaLongFile_new := fun _ _ => tt;
     CorsikaLongFile_size := fun _ => 0;
     CorsikaLongFile_GetProfile := fun _ lf =>
       ({| lp_profile := empty_profile; fGaisserHillas := tt;
           fCalorimetricEnergy := FInt 0 |}, lf) |}.

(** A particle block of 39 records: one particle, a zeroed record, a second
    particle, and zeroed records up to the end. *)
Definition particle_block_with_gap : DBlock :=
  ParticleBlock (particle 5001 :: zero_particle :: particle 6001 :: repeat zero_particle 36).

(** A header with two observation levels, at 100 and at 200, of a vertical
    planar shower whose first interaction is at height 5000. *)
Definition header_two_levels : EventHeader fexp :=
  {| fParticleId := FInt 14; fStartingHeight := FInt 0; fZFirst := FInt 5000;
     fTheta := FInt 0; fObservationLevels := FInt 2;
     fObservationHeight := [FInt 100; FInt 200]; fFlagCurved := FInt 0 |}.

Definition entry_at_depth (d : Z) : LongEntry.t fexp :=
  {| LongEntry.fDepth := FInt d; LongEntry.fGamma := FInt 1;
     LongEntry.fEplus := FInt 2; LongEntry.fEminus := FInt 3;
     LongEntry.fMuPlus := FInt 4; LongEntry.fMuMinus := FInt 5;
     LongEntry.fCharged := FInt 6 |}.

(** A longitudinal block whose header word announces 3 steps in 1 block and
    whose entries have the depths 10, 20, 0, 0, ... *)
Definition long_block_two_entries : DBlock :=
  LongBlock {| fStepsAndBlocks := FInt 301;
               fEntries := fun j => if (j <? 2)%nat
                                    then entry_at_depth (10 * (Z.of_nat j + 1))
                                    else zero_entry |}.

(** A file of two events; the first one has a longitudinal block, the second
    one has none. *)
Definition two_event_blocks : list DBlock :=
  [ RunHeaderBlock;
    EventHeaderBlock header_two_levels; particle_block_with_gap;
    long_block_two_entries; EventTrailerBlock {| trailer_words := [] |};
    EventHeaderBlock header_two_levels; particle_block_with_gap;
    EventTrailerBlock {| trailer_words := [] |};
    RunEndBlock ].

Definition two_event_index : FileIndex :=
  {| eventHeaders := [1; 5]; eventTrailers := [4; 7]; longBlocks := [3];
     IDToPosition := <[1 := 0]> (<[2 := 1]> ∅) |}.

Definition empty_shower : CorsikaShower fexp unit :=
  {| shower_header := None; shower_trailer := None; shower_particles := None;
     shower_profile := empty_profile; shower_GaisserHillas := tt;
     shower_CalorimetricEnergy := FInt 0 |}.

(** The reader on the two-event file, at slot [slot], asked for observation
    level [level]. *)
Definition two_event_reader (slot level : Z) : CorsikaShowerFile fexp unit unit MemStream :=
  {| fRawStream := Some {| mem_blocks := two_event_blocks; mem_next := 0 |};
     fCurrentPosition := slot; fObservationLevel := level; fIsThinned := true;
     fFileScanned := true; fIndex := two_event_index; fLongFile := "";
     fCorsikaLongFile := None; fCurrentShower := empty_shower |}.

(** A reader as the default constructor leaves it: no stream, empty index. *)
Definition closed_reader : CorsikaShowerFile fexp unit unit MemStream :=
  {| fRawStream := None; fCurrentPosition := 0; fObservationLevel := 1;
     fIsThinned := true; fFileScanned := false;
     fIndex := {| eventHeaders := []; eventTrailers := []; longBlocks := [];
                  IDToPosition := ∅ |};
     fLongFile := ""; fCorsikaLongFile := None; fCurrentShower := empty_shower |}.


Definition closed_stream : RawStream :=
  {| thinning := Thinned; padding := 0; file := {| data := []; pos := 0; seekable := false |};
     filename := ""; current_block := 0; current_disk_block := 0;
     buffer_valid := false; buffer := [] |}.

(** The stream that [Create] returns for the example file [name], with the
    constants of the spec and zeroed memory. *)
Definition opened (name : string) : RawStream :=
  match @Create spec_traits example_env zero_junk [] name with
  | Return s => s
  | _ => closed_stream
  end.

(** The stream behind [n] calls of [GetNextBlock] for thinned blocks. *)
Fixpoint after_blocks (n : nat) (s : RawStream) : RawStream :=
  match n with
  | O => s
  | Datatypes.S n' => after_blocks n' (snd (@GetNextBlock spec_traits Thinned s))
  end.

(** *** The example files behind a source without [seek] *)

(** The files of [example_files] as a source that cannot seek (a pipe, a
    decompressor). *)
Definition pipe_env : StreamEnv :=
  {| file_system := fun name =>
       match example_files name with
       | Some (d, _) => Some (d, false)
       | None => None
       end;
     IsRunHeader := has_tag tag_RUNH |}.

(** The stream that [Create] returns for the example file [name] read
    through a pipe. *)
Definition piped (name : string) : RawStream :=
  match @Create spec_traits pipe_env zero_junk [] name with
  | Return s => s
  | _ => closed_stream
  end.

(** *** A file with a damaged disk block *)

(** Three disk blocks; the trailing padding of the second one is 7 instead
    of 1248. *)
Definition file_damaged : list Byte.byte :=
  sector64 1248 1248 (tagged_block tag_RUNH 0) ++
  sector64 1248 7 (tagged_block tag_EVTH 1) ++
  sector64 1248 1248 (tagged_block tag_EVTH 2).

Definition damaged_env : StreamEnv :=
  {| file_system := fun name =>
       if String.eqb name "damaged" then Some (file_damaged, true) else None;
     IsRunHeader := has_tag tag_RUNH |}.

Definition damaged : RawStream :=
  match @Create spec_traits damaged_env zero_junk [] "damaged" with
  | Return s => s
  | _ => closed_stream
  end.

(** *** Readers of the two-event file *)

(** An index of the two-event file whose longitudinal positions point at the
    particle blocks of the events. *)
Definition misleading_index : FileIndex :=
  {| eventHeaders := [1; 5]; eventTrailers := [4; 7]; longBlocks := [2; 6];
     IDToPosition := <[1 := 0]> (<[2 := 1]> (<[3 := 2]> ∅)) |}.

(** The reader on the two-event file with the index [index], at slot
    [slot]. *)
Definition reader_with_index (index : FileIndex) (slot : Z)
    : CorsikaShowerFile fexp unit unit MemStream :=
  {| fRawStream := Some {| mem_blocks := two_event_blocks; mem_next := 0 |};
     fCurrentPosition := slot; fObservationLevel := 1; fIsThinned := true;
     fFileScanned := true; fIndex := index; fLongFile := "";
     fCorsikaLongFile := None; fCurrentShower := empty_shower |}.

(** *** Byte blocks and readers for the examples of the facade *)

Definition tag_EVTE : list Z := [69; 86; 84; 69].
Definition tag_RUNE : list Z := [82; 85; 78; 69].
Definition tag_LONG : list Z := [76; 79; 78; 71].

(** Modelled from the spec: the classifier of section 4.D on the bytes of a
    block; a particle record is the 32 bytes at its index, the decoded views
    are zeroed. *)
Definition byte_block_ops : BlockOps fexp Block (list Byte.byte) :=
  {| IsControl := fun b =>
       has_tag tag_RUNH b || has_tag tag_EVTH b || has_tag tag_EVTE b || has_tag tag_RUNE b;
     IsLongitudinal := has_tag tag_LONG;
     IsEventHeader := has_tag tag_EVTH;
     IsEventTrailer := has_tag tag_EVTE;
     AsEventHeader := fun _ => zero_header;
     AsEventTrailer := fun _ => {| trailer_words := [] |};
     AsLongitudinalBlock := fun _ =>
       {| fStepsAndBlocks := FInt 0; fEntries := fun _ => zero_entry |};
     fParticle := fun b i => take 32 (drop (Z.to_nat (32 * i)) b);
     kLongEntriesPerBlock := 26 |}.

(** The surroundings of a reader over decoded blocks: one file,
    "two_events", without a side file; [Scan] returns the index of the
    two-event file. *)
Definition example_facade_env : FacadeEnv fexp unit MemStream :=
  {| replace_extension_long := fun name => (name ++ ".long")%string;
     is_regular_file := fun _ => false;
     RawStreamFactory_Create := fun name =>
       if String.eqb name "two_events"
       then Return {| mem_blocks := two_event_blocks; mem_next := 0 |}
       else Throw ErrorOpening;
     stream_Scan := fun _ s => (Return two_event_index, s);
     CorsikaShower_default := empty_shower;
     Open_scan_default := true |}.

(** The surroundings of a reader over the piped example files; [Scan]
    finds no event. *)
Definition pipe_facade_env : FacadeEnv fexp unit RawStream :=
  {| replace_extension_long := fun name => (name ++ ".long")%string;
     is_regular_file := fun _ => false;
     RawStreamFactory_Create := @Create spec_traits pipe_env zero_junk [];
     stream_Scan := fun _ s => (Return empty_index, s);
     CorsikaShower_default := empty_shower;
     Open_scan_default := true |}.

(** A reader that has scanned a file and holds a reader of its side file. *)
Definition scanned_reader : CorsikaShowerFile fexp unit unit MemStream :=
  {| fRawStream := Some {| mem_blocks := two_event_blocks; mem_next := 0 |};
     fCurrentPosition := 1; fObservationLevel := 1; fIsThinned := true;
     fFileScanned := true; fIndex := two_event_index; fLongFile := "";
     fCorsikaLongFile := Some tt; fCurrentShower := empty_shower |}.

(** * Properties of the framed block stream *)

Lemma overlay_nil (buf : list Byte.byte) : overlay [] buf = buf.
Proof. reflexivity. Qed.

Lemma overlay_idem (bs buf : list Byte.byte) :
  overlay bs (overlay bs buf) = overlay bs buf.
Proof.
  unfold overlay. by rewrite drop_app_length.
Qed.

Lemma overlay_full (bs buf : list Byte.byte) :
  (length buf <= length bs)%nat -> overlay bs buf = bs.
Proof.
  intros Hl. unfold overlay. rewrite drop_ge by lia. apply app_nil_r.
Qed.

Lemma length_overlay (bs buf : list Byte.byte) :
  (length bs <= length buf)%nat -> length (overlay bs buf) = length buf.
Proof.
  intros Hl. unfold overlay. rewrite length_app, length_drop. lia.
Qed.

Lemma byte_val_range (b : Byte.byte) : 0 <= byte_val b < 256.
Proof.
  unfold byte_val. pose proof (Byte.to_N_bounded b). lia.
Qed.

Lemma le_unsigned_app (a b : list Byte.byte) :
  le_unsigned (a ++ b) = le_unsigned a + 256 ^ Z.of_nat (length a) * le_unsigned b.
Proof.
  induction a as [|x a IH]; simpl le_unsigned.
  - simpl. lia.
  - rewrite IH. change (length (x :: a)) with (Datatypes.S (length a)).
    rewrite Nat2Z.inj_succ, Z.pow_succ_r by lia. ring.
Qed.

Lemma le_unsigned_nonneg (bs : list Byte.byte) : 0 <= le_unsigned bs.
Proof.
  induction bs as [|x bs IH]; simpl; [lia|].
  pose proof (byte_val_range x). lia.
Qed.

Lemma to_signed_mod (w x y : Z) :
  x mod 2 ^ w = y mod 2 ^ w -> to_signed w x = to_signed w y.
Proof. unfold to_signed. by intros ->. Qed.

(** The [int32_t] at the address of an [int64_t] is its low half. *)
Lemma int32_le_low_half (bs : list Byte.byte) :
  int32_le bs = to_signed 32 (int64_le bs).
Proof.
  unfold int32_le, int64_le. apply to_signed_mod.
  assert (Hs : forall y, to_signed 64 y mod 2 ^ 32 = y mod 2 ^ 32).
  { intros y. unfold to_signed.
    change (2 ^ 64) with 18446744073709551616.
    change (2 ^ (64 - 1)) with 9223372036854775808.
    change (2 ^ 32) with 4294967296.
    destruct (_ <? _); Z.div_mod_to_equations; lia. }
  rewrite Hs.
  replace (take 8 bs) with (take 4 bs ++ take 4 (drop 4 bs))
    by apply (take_take_drop bs 4 4).
  rewrite le_unsigned_app.
  destruct (decide (length bs < 4)%nat) as [Hlt|Hge].
  - rewrite (drop_ge bs 4) by lia. simpl. f_equal. lia.
  - rewrite length_take_le by lia.
    change (256 ^ Z.of_nat 4) with (2 ^ 32).
    rewrite Z.mul_comm, Z_mod_plus_full. reflexivity.
Qed.

Section StreamProperties.

Context `{ThinningTraits} `{StreamEnv}.

Lemma RawStream_new_shape T P junk f name len64 s :
  RawStream_new T P junk f name len64 = Return s ->
  thinning s = T /\ padding s = P /\ filename s = name /\
  current_block s = 0 /\ current_disk_block s = 0.
Proof.
  unfold RawStream_new. destruct (FileStream_read _ f) as [bs f'].
  cbv zeta. destruct (_ && _); [discriminate|].
  intros [= <-]. by simpl.
Qed.

(** What [Create] reads first: the eight leading bytes of a file that has
    them, whatever the local held before. *)
Lemma Create_reads_len64 (d stack_junk : list Byte.byte) :
  (8 <= length d)%nat ->
  take 8 (overlay (take 8 (drop 0 d)) stack_junk) = take 8 d.
Proof.
  intros Hd. rewrite drop_0. unfold overlay.
  rewrite take_app_le by (rewrite length_take; lia).
  rewrite take_take. f_equal.
Qed.

(** [Create] on a file that can be opened and holds at least eight bytes. *)
Lemma Create_on_file (junk : nat -> Byte.byte) (stack_junk : list Byte.byte)
    (theName : string) (d : list Byte.byte) (sk : bool) :
  file_system theName = Some (d, sk) ->
  (8 <= length d)%nat ->
  let len64 := int64_le d in
  let len32 := to_signed 32 len64 in
  let f' := {| data := d; pos := 8; seekable := sk |} in
  Create junk stack_junk theName =
    if len64 =? kBytesPerBlock (consts Thinned)
    then RawStream_new Thinned 2 junk f' theName (take 8 d)
    else if len64 =? kBytesPerBlock (consts NotThinned)
    then RawStream_new NotThinned 2 junk f' theName (take 8 d)
    else if len32 =? kBytesPerBlock (consts Thinned)
    then RawStream_new Thinned 1 junk f' theName (take 8 d)
    else if len32 =? kBytesPerBlock (consts NotThinned)
    then RawStream_new NotThinned 1 junk f' theName (take 8 d)
    else Throw CantDetermineType.
Proof.
  intros Hfs Hd len64 len32 f'.
  unfold Create, FileStream_open. rewrite Hfs.
  unfold FileStream_read. cbn [data pos seekable].
  rewrite Create_reads_len64 by done.
  assert (Hpos : (0 + length (take (Z.to_nat 8) (drop 0 d)))%nat = 8%nat).
  { rewrite drop_0, length_take. change (Z.to_nat 8) with 8%nat. lia. }
  rewrite Hpos. fold f'.
  assert (H64 : int64_le (take 8 d) = len64).
  { unfold len64, int64_le. by rewrite take_take. }
  assert (H32 : int32_le (take 8 d) = len32).
  { unfold len32. rewrite int32_le_low_half. by rewrite H64. }
  rewrite H64, H32. reflexivity.
Qed.

(** C1.  On a file that can be opened and holds at least eight bytes, with
    [len64] the little-endian 64-bit integer of the first eight bytes and
    [len32] its low 32-bit half, [Create] follows the resolution order of the
    spec: it constructs the stream of the shape that the order selects, on the
    source positioned behind the eight bytes and with these bytes handed over,
    and throws "Can't determine type" when the order selects none.  A stream
    that [Create] returns has the selected shape. *)
Theorem Create_resolution_order (junk : nat -> Byte.byte) (stack_junk : list Byte.byte)
    (theName : string) (d : list Byte.byte) (sk : bool) :
  file_system theName = Some (d, sk) ->
  (8 <= length d)%nat ->
  let len64 := int64_le d in
  let len32 := to_signed 32 len64 in
  let f' := {| data := d; pos := 8; seekable := sk |} in
  match spec_resolution_order len64 len32 with
  | Some (T, word_size) =>
      Create junk stack_junk theName
      = RawStream_new T (Z.to_nat (word_size / 32)) junk f' theName (take 8 d)
      /\ forall s, Create junk stack_junk theName = Return s ->
                   thinning s = T /\ Z.of_nat (padding s) * 32 = word_size
  | None => Create junk stack_junk theName = Throw CantDetermineType
  end.
Proof.
  intros Hfs Hd len64 len32 f'.
  rewrite (Create_on_file junk stack_junk theName d sk Hfs Hd).
  fold len64 len32 f'. unfold spec_resolution_order.
  repeat (destruct (_ =? _); [split; [reflexivity|]; intros s Hs;
    apply RawStream_new_shape in Hs as (-> & -> & _); by split|]).
  reflexivity.
Qed.

Lemma check_padding_spec T P buf :
  check_padding T P buf = true <-> padding_equal T P buf.
Proof.
  unfold check_padding, padding_equal. rewrite forallb_forall. split.
  - intros Hall i Hi. apply Z.eqb_eq, Hall, in_seq. lia.
  - intros Hall i Hi%in_seq. apply Z.eqb_eq, Hall. lia.
Qed.

Lemma forallb_false_witness {A} (f : A -> bool) (l : list A) :
  forallb f l = false -> exists x, In x l /\ f x = false.
Proof.
  induction l as [|a l IH]; simpl; [discriminate|].
  destruct (f a) eqn:Hfa; simpl.
  - intros (x & Hx & Hfx)%IH. exists x. auto.
  - intros _. exists a. auto.
Qed.

Lemma check_padding_false T P buf :
  check_padding T P buf = false ->
  exists i, (i < P)%nat /\ padding_start buf i <> padding_end T P buf i.
Proof.
  unfold check_padding. intros (i & Hi & Hne)%forallb_false_witness.
  exists i. apply in_seq in Hi. split; [lia|].
  by apply Z.eqb_neq.
Qed.

End StreamProperties.



Section PaddingCheck.

Context `{ThinningTraits} `{StreamEnv}.

Lemma ReadDiskBlock_cases (s : RawStream) :
  let bs := next_read s in
  let f' := snd (FileStream_read (sizeof_DiskBlock (thinning s) (padding s)) (file s)) in
  let s1 := with_buffer (overlay bs (buffer s)) (with_file f' s) in
  ReadDiskBlock s =
    if decide (bs = []) then (Return false, with_file f' s)
    else if check_padding (thinning s) (padding s) (overlay bs (buffer s))
         then (Return true, with_buffer_valid true s1)
         else (Throw PaddingMismatch, s1).
Proof.
  unfold ReadDiskBlock, next_read.
  destruct (FileStream_read _ (file s)) as [bs f'] eqn:Hr. cbn [fst snd].
  destruct bs as [|b bs]; [reflexivity|].
  rewrite decide_False by discriminate.
  replace (Z.of_nat (length (b :: bs)) <=? 0) with false
    by (symmetry; apply Z.leb_gt; simpl length; lia).
  reflexivity.
Qed.


End PaddingCheck.



Section StreamInvariant.

Context `{ThinningTraits} `{StreamEnv}.

Lemma stream_S_gt_K (s : RawStream) : static_ok s -> stream_K s < stream_S s.
Proof.
  intros [_ HK HB HP _]. unfold stream_S, sizeof_DiskBlock, stream_K in *.
  nia.
Qed.

Lemma sector_offset_small (s : RawStream) :
  0 <= current_block s -> static_ok s -> current_block s * stream_S s < 2 ^ 64 ->
  sector_offset s = Z.to_nat (current_block s * stream_S s).
Proof.
  intros Hcb Hst Hoff. unfold sector_offset, wrap64.
  pose proof (stream_S_gt_K s Hst). pose proof (st_K s Hst).
  rewrite Z.mod_small; [done|]. split; [nia|done].
Qed.

Lemma next_read_synced (s : RawStream) :
  synced s -> buffer_valid s = false -> next_read s = sector_bytes s.
Proof.
  intros Hs Hv. unfold next_read, sector_bytes, FileStream_read. cbn [fst].
  fold (stream_S s). rewrite (sync_pos s Hs), Hv. by rewrite Nat.add_0_r.
Qed.

Lemma SeekTo_seekable (fuel : nat) (p : Z) (s : RawStream) :
  seekable (file s) = true ->
  SeekTo fuel p s =
    (Return tt,
     with_file (FileStream_seek (wrap64 (p / stream_K s * stream_S s)) (file s))
       (with_buffer_valid false (with_position (p / stream_K s) (p mod stream_K s) s))).
Proof.
  intros Hsk. unfold SeekTo. by rewrite Hsk.
Qed.

(** [SeekTo] on a seekable source leaves a synced stream, whatever the
    buffer and the position were before. *)
Lemma synced_SeekTo (fuel : nat) (p : Z) (s : RawStream) :
  static_ok s -> 0 <= p < 2 ^ 64 -> p / stream_K s * stream_S s < 2 ^ 64 ->
  synced (snd (SeekTo fuel p s)).
Proof.
  intros Hst Hp Hoff. rewrite SeekTo_seekable by apply Hst. cbn [snd].
  pose proof (st_K s Hst) as HK.
  assert (Hst' : static_ok
    (with_file (FileStream_seek (wrap64 (p / stream_K s * stream_S s)) (file s))
       (with_buffer_valid false (with_position (p / stream_K s) (p mod stream_K s) s)))).
  { destruct Hst. by constructor. }
  constructor; cbn [current_disk_block current_block buffer_valid with_file
                    with_buffer_valid with_position].
  - exact Hst'.
  - apply Z.mod_pos_bound. exact HK.
  - apply Z.div_pos; lia.
  - exact Hoff.
  - change (stream_K (with_file _ _)) with (stream_K s).
    pose proof (Z.div_mod p (stream_K s)). lia.
  - unfold sector_offset. cbn [file with_file FileStream_seek pos data current_block
      with_buffer_valid with_position].
    change (stream_S (with_file _ _)) with (stream_S s).
    by rewrite Nat.add_0_r.
  - discriminate.
Qed.

Lemma sector_bytes_nonempty (s : RawStream) :
  static_ok s -> 0 <= current_block s -> current_block s * stream_S s < 2 ^ 64 ->
  sector_bytes s <> [] ->
  current_block s * stream_S s < Z.of_nat (length (data (file s))).
Proof.
  intros Hst Hcb Hoff Hne.
  destruct (decide (current_block s * stream_S s < Z.of_nat (length (data (file s)))))
    as [|Hge]; [done|].
  exfalso. apply Hne. unfold sector_bytes.
  rewrite sector_offset_small by done.
  rewrite drop_ge by lia. apply take_nil.
Qed.

Lemma synced_take_block (s : RawStream) :
  synced s -> buffer_valid s = true ->
  exists s',
    take_block s
    = (Return (Some (fBlock (thinning s) (padding s) (buffer s) (current_disk_block s))), s')
    /\ synced s' /\ buffer s' = buffer s.
Proof.
  intros Hs Hv.
  pose proof (sync_static s Hs) as Hst.
  pose proof (stream_S_gt_K s Hst) as HKS.
  pose proof (st_K s Hst) as HK. pose proof (st_size s Hst) as Hsize.
  destruct (sync_buf s Hs Hv) as (Hne & Hidem & Hchk).
  pose proof (sector_bytes_nonempty s Hst (sync_cb s Hs) (sync_off s Hs) Hne) as Hlt.
  pose proof (sync_cdb s Hs) as Hcdb. pose proof (sync_cb s Hs) as Hcb.
  pose proof (sync_off s Hs) as Hoff.
  unfold take_block. fold (stream_K s).
  assert (Hw : wrap64 (current_disk_block s + 1) = current_disk_block s + 1).
  { unfold wrap64. apply Z.mod_small. lia. }
  rewrite Hw.
  destruct (stream_K s <=? current_disk_block s + 1) eqn:Hadv.
  - apply Z.leb_le in Hadv.
    assert (Hw' : wrap64 (current_block s + 1) = current_block s + 1).
    { unfold wrap64. apply Z.mod_small. nia. }
    rewrite Hw'. eexists. split; [reflexivity|]. split; [|reflexivity].
    assert (Hst' : static_ok
      (with_buffer_valid false (with_position (current_block s + 1) 0 s))).
    { destruct Hst. by constructor. }
    constructor; cbn [current_disk_block current_block buffer_valid
                      with_buffer_valid with_position].
    + exact Hst'.
    + change (stream_K (with_buffer_valid _ _)) with (stream_K s). lia.
    + lia.
    + change (stream_S (with_buffer_valid _ _)) with (stream_S s). lia.
    + change (stream_K (with_buffer_valid _ _)) with (stream_K s). nia.
    + cbn [file with_buffer_valid with_position].
      rewrite (sync_pos s Hs), Hv.
      rewrite Nat.add_0_r.
      rewrite (sector_offset_small s) by done.
      rewrite sector_offset_small;
        [|cbn [current_block with_buffer_valid with_position]; lia|done|
         cbn [current_block with_buffer_valid with_position];
         change (stream_S (with_buffer_valid _ _)) with (stream_S s); lia].
      cbn [current_block with_buffer_valid with_position].
      change (stream_S (with_buffer_valid _ _)) with (stream_S s).
      unfold sector_bytes. rewrite (sector_offset_small s) by done.
      rewrite length_take, length_drop.
      destruct (decide ((current_block s + 1) * stream_S s
                        <= Z.of_nat (length (data (file s))))) as [Hfull|Hshort].
      * f_equal. lia.
      * rewrite !drop_ge by lia. reflexivity.
    + discriminate.
  - apply Z.leb_gt in Hadv.
    eexists. split; [reflexivity|]. split; [|reflexivity].
    assert (Hst' : static_ok
      (with_position (current_block s) (current_disk_block s + 1) s)).
    { destruct Hst. by constructor. }
    constructor; cbn [current_disk_block current_block buffer_valid with_position].
    + exact Hst'.
    + change (stream_K (with_position _ _ _)) with (stream_K s). lia.
    + lia.
    + exact (sync_off s Hs).
    + change (stream_K (with_position _ _ _)) with (stream_K s). nia.
    + exact (sync_pos s Hs).
    + intros _. split; [exact Hne|]. split; [exact Hidem|exact Hchk].
Qed.

(** A refill of the buffer from a synced stream. *)
Lemma synced_ReadDiskBlock (s : RawStream) :
  synced s -> buffer_valid s = false ->
  match ReadDiskBlock s with
  | (Return true, s') =>
      synced s' /\ buffer_valid s' = true /\ sector_bytes s <> [] /\
      buffer s' = overlay (sector_bytes s) (buffer s) /\
      current_disk_block s' = current_disk_block s /\
      thinning s' = thinning s /\ padding s' = padding s
  | (Return false, s') =>
      synced s' /\ sector_bytes s = [] /\ buffer_valid s' = false /\
      buffer s' = buffer s /\ current_block s' = current_block s /\
      current_disk_block s' = current_disk_block s
  | (Throw e, s') =>
      e = PaddingMismatch /\ sector_bytes s <> [] /\
      check_padding (thinning s) (padding s) (overlay (sector_bytes s) (buffer s)) = false
  | _ => False
  end.
Proof.
  intros Hs Hv.
  pose proof (sync_static s Hs) as Hst.
  rewrite ReadDiskBlock_cases. cbv zeta.
  rewrite (next_read_synced s Hs Hv).
  destruct (decide (sector_bytes s = [])) as [He|Hne].
  - split; [|by repeat split].
    assert (Hpos : pos (snd (FileStream_read
                      (sizeof_DiskBlock (thinning s) (padding s)) (file s)))
                   = pos (file s)).
    { unfold FileStream_read. cbn [snd pos].
      pose proof (next_read_synced s Hs Hv) as Hn.
      unfold next_read, FileStream_read in Hn. cbn [fst] in Hn.
      rewrite Hn, He. simpl. lia. }
    destruct Hs as [Hst' Hcdb Hcb Hoff Htell Hp Hb].
    constructor; try done.
    + destruct Hst'. by constructor.
    + cbn [file with_file buffer_valid]. rewrite Hpos. exact Hp.
  - destruct (check_padding _ _ _) eqn:Hc; [|by repeat split].
    split; [|by repeat split].
    destruct Hs as [Hst' Hcdb Hcb Hoff Htell Hp Hb].
    constructor; try done.
    + destruct Hst'. by constructor.
    + cbn [file with_file with_buffer with_buffer_valid buffer_valid].
      unfold FileStream_read. cbn [snd pos data].
      change (sector_offset (with_buffer_valid _ _)) with (sector_offset s).
      change (sector_bytes (with_buffer_valid _ _)) with (sector_bytes s).
      pose proof (next_read_synced s
        (Build_synced s Hst' Hcdb Hcb Hoff Htell Hp Hb) Hv) as Hn.
      unfold next_read, FileStream_read in Hn. cbn [fst] in Hn.
      rewrite Hn. rewrite Hv, Nat.add_0_r in Hp.
      rewrite <- !drop_drop. by rewrite Hp.
    + intros _.
      change (sector_bytes (with_buffer_valid _ _)) with (sector_bytes s).
      cbn [buffer thinning padding with_buffer_valid with_buffer with_file].
      split; [done|]. split; [apply overlay_idem|exact Hc].
Qed.

Lemma synced_GetNextBlockImpl (s : RawStream) (o : option Block) (s' : RawStream) :
  synced s -> GetNextBlockImpl s = (Return o, s') -> synced s'.
Proof.
  intros Hs. unfold GetNextBlockImpl.
  destruct (buffer_valid s) eqn:Hv.
  - destruct (synced_take_block s Hs Hv) as (s1 & -> & Hs1 & _).
    by intros [= _ <-].
  - pose proof (synced_ReadDiskBlock s Hs Hv) as Hr.
    destruct (ReadDiskBlock s) as [[[]| | |] s1]; try done.
    + destruct Hr as (Hs1 & Hv1 & _).
      destruct (synced_take_block s1 Hs1 Hv1) as (s2 & -> & Hs2 & _).
      by intros [= _ <-].
    + destruct Hr as (Hs1 & _). by intros [= _ <-].
Qed.

Lemma synced_GetNextBlock (B : Thinning) (s : RawStream) (o : option Block)
    (s' : RawStream) :
  synced s -> GetNextBlock B s = (Return o, s') -> synced s'.
Proof.
  intros Hs. unfold GetNextBlock. destruct (Thinning_eqb _ _).
  - by apply synced_GetNextBlockImpl.
  - by intros [= _ <-].
Qed.

Lemma GetNextPosition_synced (s : RawStream) :
  synced s ->
  GetNextPosition s = current_disk_block s + stream_K s * current_block s.
Proof.
  intros Hs. unfold GetNextPosition, wrap64. fold (stream_K s).
  pose proof (sync_cdb s Hs). pose proof (sync_cb s Hs).
  pose proof (sync_tell s Hs). pose proof (st_K s (sync_static s Hs)).
  apply Z.mod_small. nia.
Qed.

Lemma tell_div_mod (s : RawStream) :
  synced s ->
  GetNextPosition s / stream_K s = current_block s /\
  GetNextPosition s mod stream_K s = current_disk_block s.
Proof.
  intros Hs. rewrite GetNextPosition_synced by done.
  pose proof (sync_cdb s Hs). pose proof (st_K s (sync_static s Hs)).
  rewrite Z.add_comm, Z.mul_comm. split.
  - rewrite Z.div_add_l by lia. rewrite Z.div_small by lia. lia.
  - rewrite Z.add_comm, Z_mod_plus_full. apply Z.mod_small. lia.
Qed.

(** The state after [SeekTo(GetNextPosition())]: the position is kept, the
    buffer is declared invalid and the source stands at the start of the
    current disk block. *)
Lemma SeekTo_tell (fuel : nat) (s : RawStream) :
  synced s ->
  SeekTo fuel (GetNextPosition s) s =
    (Return tt,
     with_file (FileStream_seek (wrap64 (current_block s * stream_S s)) (file s))
       (with_buffer_valid false s)).
Proof.
  intros Hs. rewrite SeekTo_seekable by apply Hs.
  destruct (tell_div_mod s Hs) as [-> ->].
  by destruct s.
Qed.

End StreamInvariant.


Section Reachable.

Context `{ThinningTraits} `{StreamEnv}.

Lemma same_source_refl s : same_source s s.
Proof. by repeat split. Qed.

Lemma same_source_trans s1 s2 s3 :
  same_source s1 s2 -> same_source s2 s3 -> same_source s1 s3.
Proof.
  intros (?&?&?&?) (?&?&?&?). repeat split; congruence.
Qed.

Lemma take_block_same_source s : same_source s (snd (take_block s)).
Proof.
  unfold take_block. destruct (_ <=? _); by repeat split.
Qed.

Lemma take_block_outcome s :
  fst (take_block s)
  = Return (Some (fBlock (thinning s) (padding s) (buffer s) (current_disk_block s))).
Proof.
  unfold take_block. by destruct (_ <=? _).
Qed.

Lemma ReadDiskBlock_same_source s : same_source s (snd (ReadDiskBlock s)).
Proof.
  rewrite ReadDiskBlock_cases. cbv zeta.
  destruct (decide _); [by repeat split|].
  destruct (check_padding _ _ _); by repeat split.
Qed.

Lemma GetNextBlock_same_source B s : same_source s (snd (GetNextBlock B s)).
Proof.
  unfold GetNextBlock. destruct (Thinning_eqb _ _); [|apply same_source_refl].
  unfold GetNextBlockImpl. destruct (buffer_valid s); [apply take_block_same_source|].
  pose proof (ReadDiskBlock_same_source s) as Hr.
  destruct (ReadDiskBlock s) as [[[]| | |] s1]; cbn [snd] in *; try done.
  eapply same_source_trans; [exact Hr|apply take_block_same_source].
Qed.

Lemma static_ok_same_source s s' : same_source s s' -> static_ok s -> static_ok s'.
Proof.
  intros (HT & HP & Hd & Hsk) [? ? ? ? ?].
  unfold stream_K, stream_S in *.
  constructor; unfold stream_K, stream_S; rewrite ?HT, ?HP, ?Hd, ?Hsk; done.
Qed.

(** The stream after [IsValid] on a seekable source. *)
Lemma synced_IsValid fuel s b s' :
  synced s -> IsValid fuel s = (Return b, s') ->
  synced s' /\ current_block s' = current_block s /\
  current_disk_block s' = current_disk_block s /\ buffer_valid s' = false /\
  same_source s s'.
Proof.
  intros Hs. pose proof (sync_static s Hs) as Hst.
  unfold IsValid. rewrite (st_seekable s Hst). cbn [negb].
  rewrite (SeekTo_seekable fuel 0 s) by apply Hst.
  set (s1 := with_file _ _).
  assert (Hs1 : synced s1).
  { pose proof (synced_SeekTo fuel 0 s Hst) as Hx.
    rewrite SeekTo_seekable in Hx by apply Hst. apply Hx; [lia|].
    rewrite Zdiv_0_l. lia. }
  assert (Hss1 : same_source s s1) by (by repeat split).
  destruct (GetNextBlock (thinning s1) s1) as [[ob| | |] s2] eqn:Hn; try done.
  pose proof (synced_GetNextBlock _ _ _ _ Hs1 Hn) as Hs2.
  pose proof (GetNextBlock_same_source (thinning s1) s1) as Hss2.
  rewrite Hn in Hss2. cbn [snd] in Hss2.
  set (s3 := with_buffer_valid (buffer_valid s) s2).
  assert (Hss3 : same_source s s3).
  { eapply same_source_trans; [exact Hss1|].
    eapply same_source_trans; [exact Hss2|]. by repeat split. }
  assert (Hst3 : static_ok s3) by (by apply (static_ok_same_source s)).
  assert (HK3 : stream_K s3 = stream_K s).
  { unfold stream_K. by destruct Hss3 as (-> & _). }
  assert (HS3 : stream_S s3 = stream_S s).
  { unfold stream_S. by destruct Hss3 as (-> & -> & _). }
  rewrite (SeekTo_seekable fuel _ s3) by apply Hst3.
  intros [= _ <-].
  pose proof (tell_div_mod s Hs) as [Hdiv Hmod].
  rewrite HK3, HS3, Hdiv, Hmod.
  assert (Htell : 0 <= GetNextPosition s < 2 ^ 64).
  { unfold GetNextPosition, wrap64. apply Z.mod_pos_bound. lia. }
  pose proof (synced_SeekTo fuel (GetNextPosition s) s3 Hst3 Htell) as Hx.
  rewrite SeekTo_seekable in Hx by apply Hst3. cbn [snd] in Hx.
  rewrite HK3, HS3, Hdiv, Hmod in Hx.
  split; [apply Hx, (sync_off s Hs)|].
  split; [reflexivity|]. split; [reflexivity|]. split; [reflexivity|].
  eapply same_source_trans; [exact Hss3|]. by repeat split.
Qed.

(** The buffer that the constructor fills from a file holding at least the
    eight bytes of [len64]. *)
Lemma initial_buffer_overlay T P junk (d : list Byte.byte) :
  (8 <= length d)%nat -> 8 <= sizeof_DiskBlock T P ->
  initial_buffer T P junk (take 8 d)
    (take (Z.to_nat (sizeof_DiskBlock T P - 8)) (drop 8 d))
  = overlay (take (Z.to_nat (sizeof_DiskBlock T P)) d)
            (map junk (seq 0 (Z.to_nat (sizeof_DiskBlock T P)))).
Proof.
  intros Hd HS. unfold initial_buffer.
  set (J := map junk _).
  assert (HJ : length J = Z.to_nat (sizeof_DiskBlock T P)).
  { unfold J. by rewrite length_map, length_seq. }
  assert (Hl8 : length (take 8 d) = 8%nat) by (rewrite length_take; lia).
  assert (Hb0 : overlay (take 8 (take 8 d)) J = take 8 d ++ drop 8 J).
  { rewrite take_take. change (8 `min` 8)%nat with 8%nat.
    unfold overlay. by rewrite Hl8. }
  rewrite Hb0.
  rewrite (take_app_length' (take 8 d)) by done.
  rewrite (drop_app_length' (take 8 d)) by done.
  unfold overlay. rewrite drop_drop.
  rewrite app_assoc.
  replace (take 8 d ++ take (Z.to_nat (sizeof_DiskBlock T P - 8)) (drop 8 d))
    with (take (Z.to_nat (sizeof_DiskBlock T P)) d).
  2:{ rewrite take_take_drop. f_equal. lia. }
  f_equal. f_equal. rewrite !length_take, length_drop. lia.
Qed.

Lemma synced_RawStream_new T P junk (d : list Byte.byte) name s :
  wf_consts -> file_fits d -> (8 < length d)%nat -> (1 <= P <= 2)%nat ->
  RawStream_new T P junk {| data := d; pos := 8; seekable := true |} name (take 8 d)
  = Return s ->
  synced s /\ data (file s) = d /\
  Z.of_nat (length (buffer s)) = sizeof_DiskBlock T P /\
  check_padding T P (overlay (take (Z.to_nat (sizeof_DiskBlock T P)) d)
                             (map junk (seq 0 (Z.to_nat (sizeof_DiskBlock T P))))) = true.
Proof.
  intros Hwf Hfit Hd HP.
  destruct (Hwf T) as [HK HB]. pose proof (Hfit T P ltac:(lia)) as Hsize.
  assert (HS : 8 < sizeof_DiskBlock T P).
  { unfold sizeof_DiskBlock, kBlocksInDiskBlock. nia. }
  unfold RawStream_new, FileStream_read. cbn [data pos seekable].
  rewrite initial_buffer_overlay by lia.
  set (sb := take (Z.to_nat (sizeof_DiskBlock T P)) d).
  set (J := map junk _).
  assert (Hbs : 0 < Z.of_nat (length (take (Z.to_nat (sizeof_DiskBlock T P - 8)) (drop 8 d)))).
  { rewrite length_take, length_drop. lia. }
  apply Z.ltb_lt in Hbs. rewrite Hbs. cbn [andb].
  destruct (check_padding T P (overlay sb J)) eqn:Hc; cbn [negb]; [|discriminate].
  intros [= <-].
  set (s0 := {| thinning := T; padding := P; file := _; filename := name;
                current_block := 0; current_disk_block := 0;
                buffer_valid := true; buffer := overlay sb J |}).
  assert (HJ : length J = Z.to_nat (sizeof_DiskBlock T P)).
  { unfold J. by rewrite length_map, length_seq. }
  assert (Hsb : (length sb <= length J)%nat).
  { unfold sb. rewrite length_take. lia. }
  assert (Hne : sb <> []).
  { intros Hnil. assert (Hl : length sb = 0%nat) by (by rewrite Hnil).
    unfold sb in Hl. rewrite length_take in Hl. lia. }
  assert (HK0 : stream_K s0 = kSubBlocksPerBlock (consts T)) by done.
  assert (HS0 : stream_S s0 = sizeof_DiskBlock T P) by done.
  assert (Hoff0 : sector_offset s0 = 0%nat) by done.
  assert (Hsb0 : sector_bytes s0 = sb).
  { unfold sector_bytes. rewrite Hoff0, HS0. by rewrite drop_0. }
  assert (Hcb0 : current_block s0 = 0) by done.
  assert (Hcdb0 : current_disk_block s0 = 0) by done.
  assert (Hd0 : data (file s0) = d) by done.
  assert (Hp0 : pos (file s0)
    = (8 + length (take (Z.to_nat (sizeof_DiskBlock T P - 8)) (drop 8 d)))%nat) by done.
  assert (Hv0 : buffer_valid s0 = true) by done.
  assert (Hb0 : buffer s0 = overlay sb J) by done.
  split; [|split; [done|split; [rewrite Hb0, length_overlay by done; lia|done]]].
  constructor; rewrite ?HK0, ?HS0, ?Hoff0, ?Hsb0, ?Hcb0, ?Hcdb0, ?Hd0, ?Hp0, ?Hv0, ?Hb0.
  - constructor; rewrite ?HK0, ?HS0, ?Hd0; try done;
      change (padding s0) with P; change (thinning s0) with T; lia.
  - lia.
  - lia.
  - lia.
  - lia.
  - f_equal. unfold sb. rewrite !length_take, length_drop. lia.
  - intros _. split; [done|]. split; [apply overlay_idem|exact Hc].
Qed.

(** [Create] on a seekable file of more than eight bytes returns a synced
    stream with a valid buffer. *)
Lemma synced_Create junk stack_junk theName (d : list Byte.byte) s :
  wf_consts -> file_fits d -> file_system theName = Some (d, true) ->
  (8 < length d)%nat ->
  Create junk stack_junk theName = Return s ->
  synced s /\ data (file s) = d /\
  Z.of_nat (length (buffer s)) = stream_S s /\
  check_padding (thinning s) (padding s)
    (overlay (take (Z.to_nat (stream_S s)) d)
             (map junk (seq 0 (Z.to_nat (stream_S s))))) = true.
Proof.
  intros Hwf Hfit Hfs Hd.
  rewrite (Create_on_file junk stack_junk theName d true Hfs) by lia.
  cbv zeta.
  repeat (destruct (_ =? _);
    [intros Hn; pose proof (RawStream_new_shape _ _ _ _ _ _ _ Hn) as (HT & HP & _);
     unfold stream_S; rewrite HT, HP;
     apply (synced_RawStream_new _ _ junk d theName); (done || lia)|]).
  discriminate.
Qed.

End Reachable.



Section SeekAndValidate.

Context `{ThinningTraits} `{StreamEnv}.

Lemma observe_take_block (s : RawStream) :
  observe (take_block s)
  = (Return (Some (fBlock (thinning s) (padding s) (buffer s) (current_disk_block s))),
     fst (advanced s), snd (advanced s)).
Proof.
  unfold observe, take_block, advanced. fold (stream_K s).
  by destruct (_ <=? _).
Qed.

(** [GetNextBlockImpl] on a synced stream, in terms of the bytes of the
    current disk block in the source. *)
Lemma observe_GetNextBlockImpl (s : RawStream) :
  synced s ->
  observe (GetNextBlockImpl s) =
    let sb := sector_bytes s in
    let buf := overlay sb (buffer s) in
    if decide (sb = []) then (Return None, current_block s, current_disk_block s)
    else if check_padding (thinning s) (padding s) buf
    then (Return (Some (fBlock (thinning s) (padding s) buf (current_disk_block s))),
          fst (advanced s), snd (advanced s))
    else (Throw PaddingMismatch, current_block s, current_disk_block s).
Proof.
  intros Hs. cbv zeta. unfold GetNextBlockImpl.
  destruct (buffer_valid s) eqn:Hv.
  - destruct (sync_buf s Hs Hv) as (Hne & Hidem & Hchk).
    rewrite decide_False by done. rewrite Hidem, Hchk.
    apply observe_take_block.
  - rewrite ReadDiskBlock_cases. cbv zeta.
    rewrite (next_read_synced s Hs Hv).
    destruct (decide (sector_bytes s = [])); [done|].
    destruct (check_padding _ _ _); [|done].
    by rewrite observe_take_block.
Qed.

Lemma observe_GetNextBlock (B : Thinning) (s : RawStream) :
  synced s ->
  observe (GetNextBlock B s) =
    if Thinning_eqb B (thinning s) then observe (GetNextBlockImpl s)
    else (Return None, current_block s, current_disk_block s).
Proof.
  intros Hs. unfold GetNextBlock. by destruct (Thinning_eqb _ _).
Qed.

(** Seeking to the position that [GetNextPosition] reports does not change
    what the next [GetNextBlock] delivers, on a synced stream. *)
Lemma seek_tell_synced (fuel : nat) (B : Thinning) (s : RawStream) :
  synced s ->
  fst (SeekTo fuel (GetNextPosition s) s) = Return tt /\
  observe (GetNextBlock B (snd (SeekTo fuel (GetNextPosition s) s)))
  = observe (GetNextBlock B s).
Proof.
  intros Hs.
  assert (Hs1 : synced (snd (SeekTo fuel (GetNextPosition s) s))).
  { apply synced_SeekTo; [apply Hs| |].
    - unfold GetNextPosition, wrap64. apply Z.mod_pos_bound. lia.
    - destruct (tell_div_mod s Hs) as [-> _]. apply Hs. }
  rewrite SeekTo_tell in * by done. cbn [fst snd] in *.
  split; [done|].
  rewrite !observe_GetNextBlock by done.
  rewrite !observe_GetNextBlockImpl by done.
  reflexivity.
Qed.

Lemma reachable_synced (s0 s : RawStream) :
  synced s0 -> reachable s0 s -> synced s.
Proof.
  intros Hs0 Hr.
  induction Hr as [|B s o s' _ IH Hn|fuel p s s' _ IH Hp Hoff Hsk
                   |fuel s b s' _ IH Hv].
  - done.
  - by apply (synced_GetNextBlock B s o s').
  - pose proof (synced_SeekTo fuel p s (sync_static s IH) Hp Hoff) as Hx.
    by rewrite Hsk in Hx.
  - by apply (synced_IsValid fuel s b s').
Qed.

(** C7 (as amended).  On a seekable file that holds more than the eight
    bytes that [Create] reads (and fits [size_t]), in every state that the
    stream reaches through calls that returned, [SeekTo(GetNextPosition())]
    returns and the [GetNextBlock] behind it has the outcome of a
    [GetNextBlock] without the seek: the same block, the same end of file or
    the same exception, and the same position afterwards. *)
Theorem seek_to_tell_is_noop (junk : nat -> Byte.byte) (stack_junk : list Byte.byte)
    (theName : string) (d : list Byte.byte) (s0 s : RawStream)
    (fuel : nat) (B : Thinning) :
  wf_consts -> file_fits d -> file_system theName = Some (d, true) ->
  (8 < length d)%nat ->
  Create junk stack_junk theName = Return s0 ->
  reachable s0 s ->
  fst (SeekTo fuel (GetNextPosition s) s) = Return tt /\
  observe (GetNextBlock B (snd (SeekTo fuel (GetNextPosition s) s)))
  = observe (GetNextBlock B s).
Proof.
  intros Hwf Hfit Hfs Hd Hc Hr.
  apply seek_tell_synced. apply (reachable_synced s0); [|done].
  by apply (synced_Create junk stack_junk theName d s0).
Qed.

End SeekAndValidate.



Section Validate.

Context `{ThinningTraits} `{StreamEnv}.

Lemma sector_bytes_whole (s : RawStream) :
  synced s -> whole s ->
  sector_bytes s = [] \/ Z.of_nat (length (sector_bytes s)) = stream_S s.
Proof.
  intros Hs [(m & Hm & HL) _ _].
  pose proof (sync_static s Hs) as Hst. pose proof (stream_S_gt_K s Hst) as HKS.
  pose proof (st_K s Hst) as HK. pose proof (sync_cb s Hs) as Hcb.
  unfold sector_bytes. rewrite sector_offset_small by (done || apply Hs).
  destruct (decide (current_block s < m)) as [Hlt|Hge].
  - right. rewrite length_take, length_drop. nia.
  - left. rewrite drop_ge by nia. apply take_nil.
Qed.

Lemma overlay_sector_whole (s : RawStream) :
  synced s -> whole s -> sector_bytes s <> [] ->
  overlay (sector_bytes s) (buffer s) = sector_bytes s.
Proof.
  intros Hs Hw Hne. apply overlay_full.
  destruct (sector_bytes_whole s Hs Hw) as [|Hl]; [done|].
  pose proof (whole_buffer s Hw). lia.
Qed.

(** On such a file the outcome of [GetNextBlockImpl] depends on the position
    and the source alone, not on what the buffer holds. *)
Lemma observe_GetNextBlockImpl_whole (s : RawStream) :
  synced s -> whole s ->
  observe (GetNextBlockImpl s) =
    let sb := sector_bytes s in
    if decide (sb = []) then (Return None, current_block s, current_disk_block s)
    else if check_padding (thinning s) (padding s) sb
    then (Return (Some (fBlock (thinning s) (padding s) sb (current_disk_block s))),
          fst (advanced s), snd (advanced s))
    else (Throw PaddingMismatch, current_block s, current_disk_block s).
Proof.
  intros Hs Hw. rewrite observe_GetNextBlockImpl by done. cbv zeta.
  destruct (decide (sector_bytes s = [])); [done|].
  by rewrite overlay_sector_whole.
Qed.

Lemma whole_same_source (s s' : RawStream) :
  same_source s s' -> length (buffer s') = length (buffer s) -> whole s -> whole s'.
Proof.
  intros (HT & HP & Hd & _) Hb [Hf Hbuf Hc].
  unfold stream_S in *.
  constructor; unfold stream_S; rewrite ?HT, ?HP, ?Hd, ?Hb; done.
Qed.

Lemma take_block_buffer (s : RawStream) : buffer (snd (take_block s)) = buffer s.
Proof. unfold take_block. by destruct (_ <=? _). Qed.

Lemma GetNextBlock_buffer_length (B : Thinning) (s : RawStream) :
  Z.of_nat (length (buffer s)) = stream_S s ->
  length (buffer (snd (GetNextBlock B s))) = length (buffer s).
Proof.
  intros Hb. unfold GetNextBlock. destruct (Thinning_eqb _ _); [|done].
  unfold GetNextBlockImpl. destruct (buffer_valid s); [by rewrite take_block_buffer|].
  rewrite ReadDiskBlock_cases. cbv zeta.
  assert (Hl : (length (next_read s) <= length (buffer s))%nat).
  { unfold next_read, FileStream_read. cbn [fst]. rewrite length_take.
    fold (stream_S s). lia. }
  destruct (decide _); [done|].
  destruct (check_padding _ _ _); cbn [snd].
  - rewrite take_block_buffer. cbn [buffer with_buffer_valid with_buffer].
    by apply length_overlay.
  - cbn [buffer with_buffer]. by apply length_overlay.
Qed.

Lemma SeekTo_buffer (fuel : nat) (p : Z) (s : RawStream) :
  seekable (file s) = true ->
  buffer (snd (SeekTo fuel p s)) = buffer s /\ same_source s (snd (SeekTo fuel p s)).
Proof.
  intros Hsk. rewrite SeekTo_seekable by done. by repeat split.
Qed.

Lemma Thinning_eqb_refl (T : Thinning) : Thinning_eqb T T = true.
Proof. by destruct T. Qed.

(** [IsValid] on a synced stream over whole disk blocks returns, and leaves
    the position where it was, with the buffer declared invalid. *)
Lemma IsValid_whole (fuel : nat) (s : RawStream) :
  synced s -> whole s ->
  exists b s',
    IsValid fuel s = (Return b, s') /\ synced s' /\ whole s' /\
    current_block s' = current_block s /\
    current_disk_block s' = current_disk_block s /\
    same_source s s'.
Proof.
  intros Hs Hw. pose proof (sync_static s Hs) as Hst.
  assert (Hex : exists b s', IsValid fuel s = (Return b, s') /\
                             length (buffer s') = length (buffer s)).
  { pose proof (synced_SeekTo fuel 0 s Hst ltac:(lia)) as Hs1.
    rewrite Zdiv_0_l in Hs1. specialize (Hs1 ltac:(lia)).
    destruct (SeekTo_buffer fuel 0 s (st_seekable s Hst)) as [Hb1 Hss1].
    unfold IsValid. rewrite (st_seekable s Hst). cbn [negb].
    destruct (SeekTo fuel 0 s) as [o1 s1] eqn:Hseek.
    assert (Ho1 : o1 = Return tt).
    { rewrite SeekTo_seekable in Hseek by apply Hst. by injection Hseek as <- _. }
    subst o1. cbn [snd] in *.
    assert (Hw1 : whole s1) by (apply (whole_same_source s); [done|by rewrite Hb1|done]).
    assert (Hcb1 : current_block s1 = 0).
    { rewrite SeekTo_seekable in Hseek by apply Hst. injection Hseek as <-.
      cbn. apply Zdiv_0_l. }
    assert (Hsb1 : sector_bytes s1 = take (Z.to_nat (stream_S s1)) (data (file s1))).
    { unfold sector_bytes, sector_offset. rewrite Hcb1. by rewrite drop_0. }
    assert (Hne1 : sector_bytes s1 <> []).
    { rewrite Hsb1. intros Hnil.
      assert (Hl : length (take (Z.to_nat (stream_S s1)) (data (file s1))) = 0%nat)
        by (by rewrite Hnil).
      rewrite length_take in Hl.
      destruct (whole_file s1 Hw1) as (m & Hm & HL).
      pose proof (stream_S_gt_K s1 (sync_static s1 Hs1)).
      pose proof (st_K s1 (sync_static s1 Hs1)). nia. }
    pose proof (observe_GetNextBlock (thinning s1) s1 Hs1) as Ho.
    rewrite Thinning_eqb_refl, observe_GetNextBlockImpl_whole in Ho by done.
    cbv zeta in Ho. rewrite decide_False in Ho by done.
    rewrite Hsb1, (whole_first s1 Hw1) in Ho.
    pose proof (GetNextBlock_buffer_length (thinning s1) s1 (whole_buffer s1 Hw1)) as Hlen.
    pose proof (GetNextBlock_same_source (thinning s1) s1) as Hss2.
    destruct (GetNextBlock (thinning s1) s1) as [o s2].
    unfold observe in Ho. cbn [fst snd] in *.
    injection Ho as -> _ _.
    set (s3 := with_buffer_valid (buffer_valid s) s2).
    assert (Hsk3 : seekable (file s3) = true).
    { destruct Hss1 as (_ & _ & _ & Hk1). destruct Hss2 as (_ & _ & _ & Hk2).
      cbn. rewrite Hk2, Hk1. apply Hst. }
    rewrite (SeekTo_seekable fuel _ s3) by done.
    eexists _, _. split; [reflexivity|].
    unfold s3. cbn [buffer with_file with_buffer_valid with_position].
    by rewrite Hlen, Hb1. }
  destruct Hex as (b & s' & Hv & Hlen).
  destruct (synced_IsValid fuel s b s' Hs Hv) as (Hs' & Hcb & Hcdb & _ & Hss).
  exists b, s'. split; [done|]. split; [done|].
  split; [by apply (whole_same_source s)|]. by split; [|split].
Qed.

(** [IsValid] does not change what the next [GetNextBlock] delivers, on a
    synced stream over whole disk blocks. *)
Lemma IsValid_keeps_next_block (fuel : nat) (B : Thinning) (s : RawStream) :
  synced s -> whole s ->
  exists b s',
    IsValid fuel s = (Return b, s') /\
    observe (GetNextBlock B s') = observe (GetNextBlock B s).
Proof.
  intros Hs Hw.
  destruct (IsValid_whole fuel s Hs Hw) as (b & s' & Hv & Hs' & Hw' & Hcb & Hcdb & Hss).
  exists b, s'. split; [done|].
  rewrite !observe_GetNextBlock by done.
  rewrite !observe_GetNextBlockImpl_whole by done. cbv zeta.
  destruct Hss as (HT & HP & Hd & _).
  assert (Hsb : sector_bytes s' = sector_bytes s).
  { unfold sector_bytes, sector_offset, stream_S. by rewrite HT, HP, Hd, Hcb. }
  assert (Hadv : advanced s' = advanced s).
  { unfold advanced, stream_K. by rewrite HT, Hcb, Hcdb. }
  by rewrite Hsb, Hadv, HT, HP, Hcb, Hcdb.
Qed.

Lemma whole_Create junk stack_junk theName (d : list Byte.byte) s (m : Z) :
  wf_consts -> file_fits d ->
  file_system theName = Some (d, true) ->
  0 < m -> Z.of_nat (length d) = m * stream_S s ->
  Create junk stack_junk theName = Return s ->
  synced s /\ whole s.
Proof.
  intros Hwf Hfit Hfs Hm HL Hc.
  assert (HP : (1 <= padding s <= 2)%nat).
  { revert Hc. unfold Create. destruct (FileStream_open theName); [|discriminate].
    destruct (FileStream_read 8 f) as [bs f']. cbv zeta.
    repeat (destruct (_ =? _);
      [intros Hn; apply RawStream_new_shape in Hn as (_ & -> & _); lia|]).
    discriminate. }
  assert (Hd8 : (8 < length d)%nat).
  { destruct (Hwf (thinning s)) as [HK HB].
    unfold stream_S, sizeof_DiskBlock, kBlocksInDiskBlock in HL. nia. }
  destruct (synced_Create junk stack_junk theName d s Hwf Hfit Hfs Hd8 Hc)
    as (Hs & Hd & Hlen & Hchk).
  split; [done|].
  constructor.
  - exists m. by rewrite Hd.
  - done.
  - rewrite Hd. rewrite overlay_full in Hchk; [done|].
    rewrite length_map, length_seq, length_take.
    pose proof (stream_S_gt_K s (sync_static s Hs)).
    pose proof (st_K s (sync_static s Hs)). nia.
Qed.

Lemma reachable_whole (s0 s : RawStream) :
  synced s0 -> whole s0 -> reachable s0 s -> synced s /\ whole s.
Proof.
  intros Hs0 Hw0 Hr.
  induction Hr as [|B s o s' _ IH Hn|fuel p s s' _ IH Hp Hoff Hsk
                   |fuel s b s' _ IH Hv].
  - done.
  - destruct IH as [Hs Hw]. split; [by apply (synced_GetNextBlock B s o s')|].
    pose proof (GetNextBlock_same_source B s) as Hss.
    pose proof (GetNextBlock_buffer_length B s (whole_buffer s Hw)) as Hlen.
    rewrite Hn in Hss, Hlen. by apply (whole_same_source s).
  - destruct IH as [Hs Hw].
    pose proof (synced_SeekTo fuel p s (sync_static s Hs) Hp Hoff) as Hx.
    destruct (SeekTo_buffer fuel p s (st_seekable s (sync_static s Hs))) as [Hb Hss].
    rewrite Hsk in Hx, Hb, Hss. cbn [snd] in *. split; [done|].
    apply (whole_same_source s); [done|by rewrite Hb|done].
  - destruct IH as [Hs Hw].
    destruct (IsValid_whole fuel s Hs Hw) as (b' & s'' & Hv' & Hs' & Hw' & _).
    rewrite Hv in Hv'. injection Hv' as -> ->. done.
Qed.

(** X28.  On a seekable file made of whole disk blocks of the stream's shape
    (that fits [size_t]), in every state that the stream reaches through
    calls that returned, [IsValid] returns and the [GetNextBlock] behind it
    has the outcome of a [GetNextBlock] without it: the same block, the same
    end of file or the same exception, and the same position afterwards.
    [IsValid] does not put the buffer back; on these files the next
    [GetNextBlock] fills it with the whole disk block of the position. *)
Theorem IsValid_keeps_position (junk : nat -> Byte.byte) (stack_junk : list Byte.byte)
    (theName : string) (d : list Byte.byte) (m : Z) (s0 s : RawStream)
    (fuel : nat) (B : Thinning) :
  wf_consts -> file_fits d -> file_system theName = Some (d, true) ->
  Create junk stack_junk theName = Return s0 ->
  0 < m ->
  Z.of_nat (length d) = m * sizeof_DiskBlock (thinning s0) (padding s0) ->
  reachable s0 s ->
  exists b s',
    IsValid fuel s = (Return b, s') /\
    GetNextPosition s' = GetNextPosition s /\
    observe (GetNextBlock B s') = observe (GetNextBlock B s).
Proof.
  intros Hwf Hfit Hfs Hc Hm HL Hr.
  destruct (whole_Create junk stack_junk theName d s0 m Hwf Hfit Hfs Hm HL Hc)
    as [Hs0 Hw0].
  destruct (reachable_whole s0 s Hs0 Hw0 Hr) as [Hs Hw].
  destruct (IsValid_whole fuel s Hs Hw) as (b & s' & Hv & Hs' & _ & Hcb & Hcdb & Hss).
  destruct (IsValid_keeps_next_block fuel B s Hs Hw) as (b' & s'' & Hv' & Hobs).
  rewrite Hv in Hv'. injection Hv' as <- <-.
  exists b, s'. split; [done|]. split; [|done].
  unfold GetNextPosition. destruct Hss as (-> & _). by rewrite Hcb, Hcdb.
Qed.

End Validate.


Lemma wf_spec_consts : @wf_consts spec_traits.
Proof. intros []; simpl; lia. Qed.

Lemma example_file_fits (d : list Byte.byte) :
  (length d <= 4000)%nat -> @file_fits spec_traits d.
Proof.
  intros Hd T P HP. unfold sizeof_DiskBlock, kBlocksInDiskBlock.
  destruct T; simpl; lia.
Qed.

Lemma reachable_next `{ThinningTraits} `{StreamEnv} (B : Thinning) (s0 s : RawStream) :
  reachable s0 s -> returned (fst (GetNextBlock B s)) = true ->
  reachable s0 (snd (GetNextBlock B s)).
Proof.
  intros Hr Hret. destruct (GetNextBlock B s) as [[o| | |] s'] eqn:Hn; try done.
  by apply (reach_GetNextBlock s0 B s o s').
Qed.

(** C1, witness: the file of two disk blocks starts with the 64-bit word 1248
    and is opened as a thinned stream with 64-bit framing. *)
Lemma Create_resolution_order_witness :
  @Create spec_traits example_env zero_junk [] "two_sectors"
  = @RawStream_new spec_traits Thinned 2 zero_junk
      {| data := file_two_sectors; pos := 8; seekable := true |} "two_sectors"
      (take 8 file_two_sectors)
  /\ forall s, @Create spec_traits example_env zero_junk [] "two_sectors" = Return s ->
               thinning s = Thinned /\ Z.of_nat (padding s) * 32 = 64.
Proof.
  apply (@Create_resolution_order spec_traits example_env zero_junk [] "two_sectors"
           file_two_sectors true).
  - reflexivity.
  - vm_compute. lia.
Defined.



(** C7, counterexample.  The file ends behind the eight bytes that [Create]
    reads.  The constructor gets no byte and leaves the buffer invalid, with
    the source at offset 8.  A [GetNextBlock] now reads at the end of the
    file and returns [false]; behind [SeekTo(GetNextPosition())] it reads the
    eight bytes at offset 0 and throws "Padding mismatch". *)
Lemma seek_to_tell_differs_on_eight_bytes :
  let s := opened "eight_bytes" in
  @Create spec_traits example_env zero_junk [] "eight_bytes" = Return s /\
  @reachable spec_traits example_env s s /\
  fst (@GetNextBlock spec_traits Thinned s) = Return None /\
  fst (@GetNextBlock spec_traits Thinned
         (snd (@SeekTo spec_traits example_env 0 (@GetNextPosition spec_traits s) s)))
  = Throw PaddingMismatch.
Proof.
  intros s. split; [reflexivity|]. split; [apply reach_start|].
  split; vm_compute; reflexivity.
Qed.

(** A refill that gets bytes from the source does not end in [false]. *)
Lemma GetNextBlockImpl_with_bytes `{ThinningTraits} (s : RawStream) :
  buffer_valid s = false -> next_read s <> [] ->
  fst (GetNextBlockImpl s) <> Return None.
Proof.
  intros Hv Hne. unfold GetNextBlockImpl. rewrite Hv, ReadDiskBlock_cases. cbv zeta.
  rewrite decide_False by done.
  destruct (check_padding _ _ _); [|discriminate].
  rewrite take_block_outcome. discriminate.
Qed.

(** The two outcomes on the file of eight bytes differ whatever the memory
    of the buffer and of the local [len64] held: a direct [GetNextBlock]
    returns [false], and behind [SeekTo(GetNextPosition())] it does not. *)
Lemma seek_to_tell_differs_whatever_the_buffer_held
    (junk : nat -> Byte.byte) (stack_junk : list Byte.byte) :
  match @Create spec_traits example_env junk stack_junk "eight_bytes" with
  | Return s =>
      fst (@GetNextBlock spec_traits Thinned s) = Return None /\
      fst (@GetNextBlock spec_traits Thinned
             (snd (@SeekTo spec_traits example_env 0 (@GetNextPosition spec_traits s) s)))
      <> Return None
  | _ => False
  end.
Proof.
  rewrite (@Create_on_file spec_traits example_env junk stack_junk "eight_bytes"
             file_eight_bytes true eq_refl) by (vm_compute; lia).
  cbv zeta.
  change (int64_le file_eight_bytes =? kBytesPerBlock (consts Thinned)) with true.
  cbv iota. unfold RawStream_new.
  change (FileStream_read (sizeof_DiskBlock Thinned 2 - 8)
            {| data := file_eight_bytes; pos := 8; seekable := true |})
    with ([] : list Byte.byte, {| data := file_eight_bytes; pos := 8; seekable := true |}).
  cbv zeta. cbn [length Z.of_nat Z.ltb Z.compare andb].
  set (buf := initial_buffer Thinned 2 junk (take 8 file_eight_bytes) []).
  split.
  - reflexivity.
  - apply (@GetNextBlockImpl_with_bytes spec_traits); [reflexivity|].
    vm_compute. discriminate.
Qed.

(** C7, witness: behind the second block of the file whose third disk block
    is cut off. *)
Lemma seek_to_tell_is_noop_witness :
  let s := after_blocks 2 (opened "truncated") in
  fst (@SeekTo spec_traits example_env 0 (@GetNextPosition spec_traits s) s) = Return tt /\
  @observe (@GetNextBlock spec_traits Thinned
              (snd (@SeekTo spec_traits example_env 0 (@GetNextPosition spec_traits s) s)))
  = @observe (@GetNextBlock spec_traits Thinned s).
Proof.
  intros s.
  apply (@seek_to_tell_is_noop spec_traits example_env zero_junk [] "truncated"
           file_truncated (opened "truncated") s 0%nat Thinned).
  - exact wf_spec_consts.
  - apply example_file_fits. vm_compute. lia.
  - reflexivity.
  - vm_compute. lia.
  - vm_compute. reflexivity.
  - apply (@reachable_next spec_traits example_env); [|reflexivity].
    apply (@reachable_next spec_traits example_env); [|reflexivity].
    apply reach_start.
Defined.

(** C10, the failing input.  [IsValid] does not leave the stream as it was.
    Behind its comment "leave things as they were" it puts back the buffer
    flag and calls [SeekTo] with the position of before; the buffer keeps the
    first disk block, which the [GetNextBlock] of the check has read into it,
    and the [SeekTo] clears the flag that was put back.  The file holds two
    whole disk blocks and the first twelve bytes of a third one.  Behind the
    second block the stream reads these twelve bytes over the buffer, which
    holds the second disk block, and hands out the rest of that block behind
    the tag; after [IsValid], which returns [true], the buffer holds the
    first disk block, and the sub-block handed out ends with the bytes of the
    first one: the block that the next [GetNextBlock] returns is not the one
    it returns without [IsValid]. *)
Lemma IsValid_changes_block_of_cut_sector :
  let s0 := opened "truncated" in
  let s := after_blocks 2 s0 in
  @Create spec_traits example_env zero_junk [] "truncated" = Return s0 /\
  @reachable spec_traits example_env s0 s /\
  fst (@IsValid spec_traits example_env 0 s) = Return true /\
  fst (@GetNextBlock spec_traits Thinned s) = Return (Some (tagged_block tag_EVTH 1)) /\
  fst (@GetNextBlock spec_traits Thinned (snd (@IsValid spec_traits example_env 0 s)))
  = Return (Some (tagged_block tag_EVTH 0)) /\
  tagged_block tag_EVTH 1 <> tagged_block tag_EVTH 0.
Proof.
  intros s0 s. split; [reflexivity|]. split.
  { apply (@reachable_next spec_traits example_env); [|reflexivity].
    apply (@reachable_next spec_traits example_env); [|reflexivity].
    apply reach_start. }
  split; [vm_compute; reflexivity|].
  split; [vm_compute; reflexivity|].
  split; [vm_compute; reflexivity|].
  vm_compute. discriminate.
Qed.

(** X28, witness: behind the second block of the file of three whole disk
    blocks. *)
Lemma IsValid_keeps_position_witness :
  let s := after_blocks 2 (opened "three_sectors") in
  exists b s',
    @IsValid spec_traits example_env 0 s = (Return b, s') /\
    @GetNextPosition spec_traits s' = @GetNextPosition spec_traits s /\
    @observe (@GetNextBlock spec_traits Thinned s')
    = @observe (@GetNextBlock spec_traits Thinned s).
Proof.
  intros s.
  apply (@IsValid_keeps_position spec_traits example_env zero_junk [] "three_sectors"
           file_three_sectors 3 (opened "three_sectors") s 0%nat Thinned).
  - exact wf_spec_consts.
  - apply example_file_fits. vm_compute. lia.
  - reflexivity.
  - vm_compute. reflexivity.
  - lia.
  - vm_compute. reflexivity.
  - apply (@reachable_next spec_traits example_env); [|reflexivity].
    apply (@reachable_next spec_traits example_env); [|reflexivity].
    apply reach_start.
Defined.



Section IteratorProperties.

Context {F B PD S : Type} `{ThinningTraits} `{BlockOps F B PD} `{VRawStream B S}.

Lemma iter_with_id (it : RawParticleIterator B) :
  iter_with it (current_particle it) (valid it) (block it) = it.
Proof. by destruct it. Qed.

(** [GetOneParticle], case by case. *)
Lemma GetOneParticle_cases (it : RawParticleIterator B) (s : S) :
  GetOneParticle (it, s) =
    if current_particle it =? iter_kParticlesInBlock it then
      if negb (valid it) then (Throw IteratorNotValid, (it, s))
      else
        match stream_GetNextBlock (it_thinning it) s with
        | (Return None, s') => (Throw ErrorReadingBlock, (it, s'))
        | (Return (Some b), s') =>
            if is_end_block b
            then (Return None, (iter_with it (current_particle it) false b, s'))
            else (Return (Some (fParticle b 0)), (iter_with it (0 + 1) (valid it) b, s'))
        | (Throw e, s') => (Throw e, (it, s'))
        | (Undefined, s') => (Undefined, (it, s'))
        | (OutOfFuel, s') => (OutOfFuel, (it, s'))
        end
    else (Return (Some (fParticle (block it) (current_particle it))),
          (iter_with it (current_particle it + 1) (valid it) (block it), s)).
Proof.
  unfold GetOneParticle, bind, gets. cbn [fst snd].
  destruct (current_particle it =? iter_kParticlesInBlock it); [|reflexivity].
  destruct (negb (valid it)); [reflexivity|].
  unfold on_iter_stream. cbn [fst snd].
  destruct (stream_GetNextBlock (it_thinning it) s) as [[[b|]| | |] s']; try reflexivity.
  unfold set_block, modify, is_end_block. cbn [fst snd].
  destruct (IsControl b || IsLongitudinal b); reflexivity.
Qed.

(** The end of the iteration leaves the iterator at the end of its block
    and not valid. *)
Lemma GetOneParticle_end (st st' : IterState) :
  GetOneParticle st = (Return None, st') ->
  current_particle (fst st') = iter_kParticlesInBlock (fst st') /\
  valid (fst st') = false.
Proof.
  destruct st as [it s]. rewrite GetOneParticle_cases.
  destruct (current_particle it =? iter_kParticlesInBlock it) eqn:Hcp; [|discriminate].
  destruct (negb (valid it)); [discriminate|].
  destruct (stream_GetNextBlock (it_thinning it) s) as [[[b|]| | |] s']; try discriminate.
  destruct (is_end_block b); [|discriminate].
  intros [= <-]. split; [|reflexivity].
  by apply Z.eqb_eq in Hcp.
Qed.

Lemma GetOneParticle_not_valid (st : IterState) :
  current_particle (fst st) = iter_kParticlesInBlock (fst st) ->
  valid (fst st) = false ->
  GetOneParticle st = (Throw IteratorNotValid, st).
Proof.
  destruct st as [it s]. cbn [fst]. intros Hcp Hv.
  rewrite GetOneParticle_cases, Hcp, Z.eqb_refl, Hv. reflexivity.
Qed.

(** C9.  Once [GetOneParticle] has returned the null pointer (it met a
    Control or Longitudinal block), every later call throws "RawParticleIterator
    not valid" and changes nothing, however many calls were made since. *)
Theorem next_after_end_throws (st st' : IterState) (n : nat) :
  GetOneParticle st = (Return None, st') ->
  GetOneParticle (Nat.iter n (fun x => snd (GetOneParticle x)) st')
  = (Throw IteratorNotValid, st').
Proof.
  intros Hend. destruct (GetOneParticle_end st st' Hend) as [Hcp Hv].
  assert (Hit : Nat.iter n (fun x => snd (GetOneParticle x)) st' = st').
  { induction n as [|n IH]; [reflexivity|].
    rewrite Nat.iter_succ, IH. by rewrite GetOneParticle_not_valid. }
  rewrite Hit. by apply GetOneParticle_not_valid.
Qed.

Lemma particles_app (n m : nat) (st : IterState) :
  particles (n + m) st =
    match particles n st with
    | (ds, Return false, st') =>
        let '(ds', o, st'') := particles m st' in (ds ++ ds', o, st'')
    | r => r
    end.
Proof.
  revert st. induction n as [|n IH]; intros st.
  - cbn. by destruct (particles m st) as [[ds o] st'].
  - cbn [Nat.add particles].
    destruct (GetOneParticle st) as [[[d|]| | |] st1]; try reflexivity.
    rewrite IH. destruct (particles n st1) as [[ds [[]| | |]] st2]; try reflexivity.
    by destruct (particles m st2) as [[ds' o'] st3].
Qed.

(** Inside a block every call returns the record at the index and moves on
    by one, whatever the record holds. *)
Lemma particles_in_block (k : nat) (j : nat) (it : RawParticleIterator B) (s : S) :
  Z.of_nat (j + k) = iter_kParticlesInBlock it ->
  current_particle it = Z.of_nat j ->
  particles k (it, s) =
    (map (fun i => fParticle (block it) (Z.of_nat i)) (seq j k), Return false,
     (iter_with it (iter_kParticlesInBlock it) (valid it) (block it), s)).
Proof.
  revert j it. induction k as [|k IH]; intros j it HK Hcp.
  - cbn. rewrite <- HK, Nat.add_0_r, <- Hcp. by rewrite iter_with_id.
  - cbn [particles]. rewrite GetOneParticle_cases.
    replace (current_particle it =? iter_kParticlesInBlock it) with false
      by (symmetry; apply Z.eqb_neq; lia).
    rewrite (IH (Datatypes.S j)); cbn [current_particle block valid iter_with];
      [|unfold iter_kParticlesInBlock in *; cbn [it_thinning iter_with]; lia|lia].
    cbn [seq map]. rewrite Hcp. reflexivity.
Qed.

(** A whole particle block: as many calls as the block has records return
    them all. *)
Lemma particles_of_block (it : RawParticleIterator B) (s s1 : S) (b : B) :
  0 < iter_kParticlesInBlock it ->
  current_particle it = iter_kParticlesInBlock it -> valid it = true ->
  stream_GetNextBlock (it_thinning it) s = (Return (Some b), s1) ->
  is_end_block b = false ->
  particles (Z.to_nat (iter_kParticlesInBlock it)) (it, s) =
    (block_records (it_thinning it) b, Return false,
     (iter_with it (iter_kParticlesInBlock it) true b, s1)).
Proof.
  intros HK Hcp Hv Hn Hb.
  destruct (Z.to_nat (iter_kParticlesInBlock it)) as [|k] eqn:Hk; [lia|].
  cbn [particles]. rewrite GetOneParticle_cases, Hcp, Z.eqb_refl, Hv, Hn, Hb.
  cbn [negb].
  rewrite (particles_in_block k 1); cbn [current_particle block valid iter_with];
    [|unfold iter_kParticlesInBlock in *; cbn [it_thinning iter_with]; lia|lia].
  unfold block_records. fold (iter_kParticlesInBlock it). rewrite Hk.
  cbn [seq map]. reflexivity.
Qed.

(** C3 (as amended).  From a rewound iterator, when the stream delivers the
    particle blocks [bs] and then a Control or Longitudinal block [c], the
    calls of [GetOneParticle] return every record of every block of [bs], in
    order and none left out (a record whose id is zero is returned like any
    other), and the call after the last record returns the null pointer, with
    the stream behind [c] and the iterator no longer valid. *)
Theorem particles_until_end_block (it : RawParticleIterator B) (s s1 s2 : S)
    (bs : list B) (c : B) :
  0 < iter_kParticlesInBlock it ->
  current_particle it = iter_kParticlesInBlock it -> valid it = true ->
  stream_yields (it_thinning it) s bs s1 ->
  Forall (fun b => is_end_block b = false) bs ->
  stream_GetNextBlock (it_thinning it) s1 = (Return (Some c), s2) ->
  is_end_block c = true ->
  particles (length bs * Z.to_nat (iter_kParticlesInBlock it) + 1) (it, s) =
    (concat (map (block_records (it_thinning it)) bs), Return true,
     (iter_with it (iter_kParticlesInBlock it) false c, s2)).
Proof.
  intros HK Hcp Hv Hy Hbs Hc Hend.
  revert it s HK Hcp Hv Hy Hc.
  induction bs as [|b bs IH]; intros it s HK Hcp Hv Hy Hc.
  - inversion Hy; subst. cbn [length Nat.mul Nat.add particles concat map].
    rewrite GetOneParticle_cases, Hcp, Z.eqb_refl, Hv, Hc, Hend. cbn [negb].
    reflexivity.
  - inversion Hy as [|? ? s' ? ? Hn Hy']; subst.
    apply Forall_cons in Hbs as [Hb Hbs].
    cbn [length Nat.mul]. rewrite <- Nat.add_assoc, particles_app.
    rewrite (particles_of_block it s s' b) by done.
    specialize (IH Hbs (iter_with it (iter_kParticlesInBlock it) true b) s').
    change (iter_kParticlesInBlock (iter_with it (iter_kParticlesInBlock it) true b))
      with (iter_kParticlesInBlock it) in IH.
    change (it_thinning (iter_with it (iter_kParticlesInBlock it) true b))
      with (it_thinning it) in IH.
    rewrite IH by done. cbn [concat map]. reflexivity.
Qed.

End IteratorProperties.

(** C3, counterexample.  The stream delivers a particle block whose second
    record is zeroed.  The second call of [GetOneParticle] returns this
    record, whose id is zero. *)
Lemma zero_id_record_is_returned :
  let it := {| it_thinning := Thinned; start := 0; current_particle := 39;
               valid := true; block := RunHeaderBlock |} in
  let s := {| mem_blocks := [particle_block_with_gap; RunEndBlock]; mem_next := 0 |} in
  exists st,
    @particles fexp DBlock ParticleData MemStream spec_traits DBlock_ops
      MemStream_VRawStream 2 (it, s)
    = ([particle 5001; zero_particle], Return false, st) /\
    fDescription zero_particle = 0.
Proof.
  eexists. split; [vm_compute; reflexivity|reflexivity].
Qed.

(** C9, witness: an iterator that met the run end block, three calls later. *)
Lemma next_after_end_throws_witness :
  let it := {| it_thinning := Thinned; start := 0; current_particle := 39;
               valid := true; block := RunHeaderBlock |} in
  let s := {| mem_blocks := [RunEndBlock]; mem_next := 0 |} in
  let st' := (iter_with it 39 false RunEndBlock, {| mem_blocks := [RunEndBlock]; mem_next := 1 |}) in
  @GetOneParticle fexp DBlock ParticleData MemStream spec_traits DBlock_ops
    MemStream_VRawStream
    (Nat.iter 3 (fun x => snd (@GetOneParticle fexp DBlock ParticleData MemStream
                                  spec_traits DBlock_ops MemStream_VRawStream x)) st')
  = (Throw IteratorNotValid, st').
Proof.
  intros it s st'.
  apply (@next_after_end_throws fexp DBlock ParticleData MemStream spec_traits DBlock_ops
           MemStream_VRawStream (it, s) st' 3).
  reflexivity.
Defined.

(** C3, witness: one particle block of 39 records and the run end block
    behind it; 40 calls return the 39 records, zeroed ones included, and then
    the null pointer. *)
Lemma particles_until_end_block_witness :
  let it := {| it_thinning := Thinned; start := 0; current_particle := 39;
               valid := true; block := RunHeaderBlock |} in
  let s := {| mem_blocks := [particle_block_with_gap; RunEndBlock]; mem_next := 0 |} in
  @particles fexp DBlock ParticleData MemStream spec_traits DBlock_ops
    MemStream_VRawStream (1 * 39 + 1) (it, s)
  = (@block_records fexp DBlock ParticleData spec_traits DBlock_ops Thinned
       particle_block_with_gap ++ [],
     Return true,
     (iter_with it 39 false RunEndBlock,
      {| mem_blocks := [particle_block_with_gap; RunEndBlock]; mem_next := 2 |})).
Proof.
  intros it s.
  apply (@particles_until_end_block fexp DBlock ParticleData MemStream spec_traits
           DBlock_ops MemStream_VRawStream it s
           {| mem_blocks := [particle_block_with_gap; RunEndBlock]; mem_next := 1 |}
           {| mem_blocks := [particle_block_with_gap; RunEndBlock]; mem_next := 2 |}
           [particle_block_with_gap] RunEndBlock).
  - reflexivity.
  - reflexivity.
  - reflexivity.
  - eapply yields_cons; [reflexivity|apply yields_nil].
  - repeat constructor.
  - reflexivity.
  - reflexivity.
Defined.



Section FacadeProperties.

Context {F B PD S GH LF : Type}.
Context `{FloatOps F} `{BlockOps F B PD} `{VRawStream B S} `{Collaborators F GH LF}.

(** C8 (as amended).  On a reader that is open, [FindEvent] of an id that
    the map of the index does not hold returns [eFail] and leaves the reader
    as it was, the current position included. *)
Theorem FindEvent_unknown_id (eventId : Z) (sf : CorsikaShowerFile F GH LF S) :
  IsOpen sf = true ->
  IDToPosition (fIndex sf) !! eventId = None ->
  FindEvent eventId sf = (Return eFail, sf).
Proof.
  intros Hopen Hid. unfold FindEvent. by rewrite Hopen, Hid.
Qed.

(** On a reader that is not open [FindEvent] returns [eEOF] for every id. *)
Lemma FindEvent_closed (eventId : Z) (sf : CorsikaShowerFile F GH LF S) :
  IsOpen sf = false -> FindEvent eventId sf = (Return eEOF, sf).
Proof.
  intros Hopen. unfold FindEvent. by rewrite Hopen.
Qed.

(** With a non-empty list of longitudinal blocks that has no entry for the
    current slot, [Read]'s choice of the profile reader indexes the list
    outside its bounds. *)
Lemma read_profile_out_of_bounds (T : Thinning) (sf : CorsikaShowerFile F GH LF S) :
  longBlocks (fIndex sf) <> [] ->
  Z.of_nat (length (longBlocks (fIndex sf))) <= fCurrentPosition sf ->
  read_profile T sf = (Undefined, sf).
Proof.
  intros Hne Hle. unfold read_profile, bind, gets.
  replace (0 <? Z.of_nat (length (longBlocks (fIndex sf)))) with true.
  2:{ symmetry. apply Z.ltb_lt. destruct (longBlocks (fIndex sf)); [done|simpl; lia]. }
  unfold ReadLongBlocks, bind, gets, at_index.
  destruct (fCurrentPosition sf <? 0) eqn:Hneg; [reflexivity|].
  rewrite lookup_ge_None_2; [reflexivity|]. lia.
Qed.

End FacadeProperties.

(** C8, counterexample.  A reader that was never opened holds an empty map,
    so no id is in it, and [FindEvent] answers [eEOF], not [eFail]. *)
Lemma FindEvent_closed_reader_is_eof :
  IDToPosition (fIndex closed_reader) !! 7 = None /\
  @FindEvent fexp DBlock ParticleData MemStream unit unit fexp_FloatOps DBlock_ops
    MemStream_VRawStream example_collaborators 7 closed_reader
  = (Return eEOF, closed_reader).
Proof.
  split; reflexivity.
Qed.

(** C8, witness: the id 7 on the open reader of the two-event file, whose map
    holds the ids 1 and 2. *)
Lemma FindEvent_unknown_id_witness :
  @FindEvent fexp DBlock ParticleData MemStream unit unit fexp_FloatOps DBlock_ops
    MemStream_VRawStream example_collaborators 7 (two_event_reader 0 1)
  = (Return eFail, two_event_reader 0 1).
Proof.
  apply (@FindEvent_unknown_id fexp DBlock ParticleData MemStream unit unit fexp_FloatOps
           DBlock_ops MemStream_VRawStream example_collaborators 7 (two_event_reader 0 1)).
  - reflexivity.
  - vm_compute. reflexivity.
Defined.

(** C5, the failing input.  The index lists one longitudinal block, for the
    first of two events, and there is no side file.  [Read] of the second
    event takes the in-stream branch and reads [longBlocks[1]], outside the
    vector. *)
Lemma Read_second_event_indexes_out_of_bounds :
  longBlocks (fIndex (two_event_reader 1 1)) !! 1%nat = None /\
  fLongFile (two_event_reader 1 1) = "" /\
  fst (@Read fexp DBlock ParticleData MemStream unit unit fexp_FloatOps DBlock_ops
         MemStream_VRawStream example_collaborators Thinned (two_event_reader 1 1))
  = Undefined.
Proof.
  split; [reflexivity|]. split; [reflexivity|]. vm_compute. reflexivity.
Qed.



(** * Properties of the shower facade *)

(** ** Running the monad backwards from a returned value *)

Lemma bind_Return {St A A'} (m : M St A) (k : A -> M St A') (s s' : St) (a' : A') :
  bind m k s = (Return a', s') ->
  exists a s1, m s = (Return a, s1) /\ k a s1 = (Return a', s').
Proof.
  unfold bind. destruct (m s) as [[a| | |] s1]; try discriminate.
  intros Hk. by exists a, s1.
Qed.

Lemma gets_Return {St A} (f : St -> A) (s s' : St) (a : A) :
  gets f s = (Return a, s') -> a = f s /\ s' = s.
Proof. by intros [= <- <-]. Qed.

Lemma modify_Return {St} (f : St -> St) (s s' : St) (u : unit) :
  modify f s = (Return u, s') -> s' = f s.
Proof. by intros [= <-]. Qed.

Lemma ret_Return {St A} (a a' : A) (s s' : St) :
  ret a s = (Return a', s') -> a' = a /\ s' = s.
Proof. by intros [= <- <-]. Qed.

Lemma at_index_Return {St A} (v : list A) (i : Z) (s s' : St) (a : A) :
  at_index v i s = (Return a, s') ->
  0 <= i /\ v !! Z.to_nat i = Some a /\ s' = s.
Proof.
  unfold at_index. destruct (i <? 0) eqn:Hi; [discriminate|].
  destruct (v !! Z.to_nat i) as [x|]; [|discriminate].
  intros [= <- <-]. apply Z.ltb_ge in Hi. done.
Qed.

Section FacadeFrame.

Context {F B PD S GH LF : Type}.
Context `{FloatOps F} `{BlockOps F B PD} `{VRawStream B S} `{Collaborators F GH LF}.

Lemma on_stream_Return {A} (op : S -> outcome A * S)
    (sf sf' : CorsikaShowerFile F GH LF S) (a : A) :
  on_stream op sf = (Return a, sf') ->
  exists st st', fRawStream sf = Some st /\ op st = (Return a, st') /\
                 sf' = with_fRawStream (Some st') sf.
Proof.
  unfold on_stream. destruct (fRawStream sf) as [st|]; [|discriminate].
  destruct (op st) as [o st'] eqn:Hop. intros [= -> <-]. by exists st, st'.
Qed.


















End FacadeFrame.





Section Assembler.

Context {F B PD S GH LF : Type}.
Context `{FloatOps F} `{BlockOps F B PD} `{VRawStream B S} `{Collaborators F GH LF}.

Lemma push_entry_profile_of (es : list (LongEntry.t F)) (e : LongEntry.t F) :
  push_entry e (profile_of es) = profile_of (es ++ [e]).
Proof.
  unfold push_entry, profile_of. cbn [fdEdX fChargeProfile fGammaProfile
    fElectronProfile fMuonProfile fDepth_dE fDepth].
  by rewrite !map_app.
Qed.

(** The loop over the entries of a block. *)
Lemma collect_entries_spec (entries : nat -> LongEntry.t F) (n j : nat) (i : Z)
    (es : list (LongEntry.t F)) :
  0 <= i ->
  let k := kept_prefix (negb (i =? 0)) (map entries (seq j n)) in
  collect_entries entries n j i (profile_of es)
  = (i + Z.of_nat (length k), profile_of (es ++ k)).
Proof.
  revert j i es. induction n as [|n IH]; intros j i es Hi; cbn [seq map kept_prefix].
  - cbn. rewrite app_nil_r. f_equal. lia.
  - cbn [collect_entries].
    destruct (negb (i =? 0) && Fis_zero (LongEntry.fDepth (entries j))).
    + cbn. rewrite app_nil_r. f_equal. lia.
    + rewrite push_entry_profile_of.
      rewrite (IH (Datatypes.S j) (i + 1)) by lia.
      replace (negb (i + 1 =? 0)) with true
        by (symmetry; apply negb_true_iff, Z.eqb_neq; lia).
      cbn [length]. rewrite <- app_assoc. cbn [app]. f_equal. lia.
Qed.

Lemma length_kept_prefix (started : bool) (es : list (LongEntry.t F)) :
  (length (kept_prefix started es) <= length es)%nat.
Proof.
  revert started. induction es as [|e es IH]; intros started; cbn; [lia|].
  destruct (started && _); cbn; [lia|]. specialize (IH true). lia.
Qed.

Lemma length_kept_chain (i : Z) (lbs : list (LongitudinalBlock F)) :
  (length (kept_chain i lbs) <= length lbs * kLongEntriesPerBlock)%nat.
Proof.
  revert i. induction lbs as [|lb lbs IH]; intros i; cbn [kept_chain length]; [lia|].
  rewrite length_app.
  pose proof (length_kept_prefix (negb (i =? 0)) (entries_of lb)) as Hk.
  unfold entries_of in Hk at 2. rewrite length_map, length_seq in Hk.
  specialize (IH (i + Z.of_nat (length (kept_prefix (negb (i =? 0)) (entries_of lb))))).
  lia.
Qed.

Lemma columns_of_profile_of (es : list (LongEntry.t F)) :
  columns_have_length (profile_of es) (length es).
Proof.
  unfold columns_have_length, profile_of. cbn. by rewrite !length_map.
Qed.

(** The loop over the further blocks of the chain. *)
Lemma more_long_blocks_spec (T : Thinning) (n : nat) (i : Z) (es : list (LongEntry.t F))
    (sf sf' : CorsikaShowerFile F GH LF S) (i' : Z) (aux' : Profile F) :
  0 <= i ->
  more_long_blocks T n i (profile_of es) sf = (Return (Some (i', aux')), sf') ->
  exists blocks,
    reads_blocks T sf blocks sf' /\ length blocks = n /\
    aux' = profile_of (es ++ kept_chain i (map AsLongitudinalBlock blocks)).
Proof.
  revert i es sf. induction n as [|n IH]; intros i es sf Hi; cbn [more_long_blocks].
  - intros [= <- <- <-]. exists []. split; [constructor|]. split; [done|].
    cbn. by rewrite app_nil_r.
  - intros HR. apply bind_Return in HR as (ob & sf1 & Hn & HR).
    destruct ob as [block|]; [|discriminate].
    pose proof (collect_entries_spec (fEntries (AsLongitudinalBlock block))
                  kLongEntriesPerBlock 0 i es Hi) as Hc. cbv zeta in Hc.
    rewrite Hc in HR.
    apply IH in HR as (blocks & Hreads & Hlen & ->); [|lia].
    exists (block :: blocks). split; [by econstructor|]. split; [cbn; lia|].
    cbn [map kept_chain]. fold (entries_of (AsLongitudinalBlock block)).
    by rewrite app_assoc.
Qed.

(** C6 (as amended).  When [ReadLongBlocks] returns [eSuccess], it has
    sought the block that the index lists for the current position, read
    there a Longitudinal block with header word [h] and, behind it, as many
    further blocks as [int(h) % 100 - 1] says (none when that is not
    positive; the number of steps [h / 100] is not looked at); it has taken
    from each block its entries up to the first one with depth zero, the very
    first entry of the chain whatever its depth; and the seven vectors of the
    shower are the columns of the entries taken, so they all have the same
    length, the number of entries taken, which is at most the number of
    blocks times the entries per block. *)
Theorem ReadLongBlocks_assembles (T : Thinning) (sf sf' : CorsikaShowerFile F GH LF S) :
  ReadLongBlocks T sf = (Return eSuccess, sf') ->
  exists longPos sf1 first rest sf2,
    longBlocks (fIndex sf) !! Z.to_nat (fCurrentPosition sf) = Some longPos /\
    on_stream (stream_SeekTo longPos) sf = (Return tt, sf1) /\
    reads_blocks T sf1 (first :: rest) sf2 /\
    IsLongitudinal first = true /\
    length rest
    = Z.to_nat (Z.rem (F_to_int (fStepsAndBlocks (AsLongitudinalBlock first))) 100 - 1) /\
    let kept := kept_chain 0 (map AsLongitudinalBlock (first :: rest)) in
    shower_profile (fCurrentShower sf') = profile_of kept /\
    columns_have_length (shower_profile (fCurrentShower sf')) (length kept) /\
    (length kept <= length (first :: rest) * kLongEntriesPerBlock)%nat.
Proof.
  unfold ReadLongBlocks. intros HR.
  apply bind_Return in HR as (index & sa & Ha & HR). apply gets_Return in Ha as [-> ->].
  apply bind_Return in HR as (position & sb & Hb & HR). apply gets_Return in Hb as [-> ->].
  apply bind_Return in HR as (longPos & sc & Hc & HR).
  apply at_index_Return in Hc as (_ & Hpos & ->).
  apply bind_Return in HR as ([] & sf1 & Hseek & HR).
  apply bind_Return in HR as (ob & sf1' & Hfirst & HR).
  destruct ob as [first|]; [|discriminate].
  destruct (IsLongitudinal first) eqn:Hlong; cbn [negb] in HR; [|discriminate].
  pose proof (collect_entries_spec (fEntries (AsLongitudinalBlock first))
                kLongEntriesPerBlock 0 0 [] ltac:(lia)) as Hc. cbv zeta in Hc.
  change (profile_of []) with (@empty_profile F) in Hc. rewrite Hc in HR.
  cbn [app] in HR.
  apply bind_Return in HR as (r & sf2 & Hmore & HR).
  destruct r as [[i' aux']|]; [|discriminate].
  apply more_long_blocks_spec in Hmore as (rest & Hreads & Hlen & ->); [|lia].
  apply bind_Return in HR as (u & sf3 & Hset & HR).
  apply modify_Return in Hset as ->. apply ret_Return in HR as [_ ->].
  exists longPos, sf1, first, rest, sf2.
  split; [done|]. split; [done|]. split; [by econstructor|]. split; [done|].
  split; [done|]. cbv zeta.
  match goal with |- ?p = ?q /\ _ => assert (Hprof : p = q) by reflexivity end.
  split; [exact Hprof|]. split; [rewrite Hprof; apply columns_of_profile_of|].
  pose proof (length_kept_chain 0 (map AsLongitudinalBlock (first :: rest))) as Hl.
  by rewrite length_map in Hl.
Qed.

End Assembler.

(** C6, counterexample.  The header word 301 of the longitudinal block
    announces 3 steps in 1 block, and the block holds two entries (depths 10
    and 20) before its first zero depth.  [ReadLongBlocks] succeeds and the
    vectors have two elements, not three. *)
Lemma profile_length_is_not_n_steps :
  let r := @ReadLongBlocks fexp DBlock ParticleData MemStream unit unit fexp_FloatOps
             DBlock_ops MemStream_VRawStream Thinned (two_event_reader 0 1) in
  two_event_blocks !! 3%nat = Some long_block_two_entries /\
  @F_to_int fexp fexp_FloatOps
    (fStepsAndBlocks (@AsLongitudinalBlock fexp DBlock ParticleData DBlock_ops
                        long_block_two_entries)) / 100 = 3 /\
  fst r = Return eSuccess /\
  fDepth (shower_profile (fCurrentShower (snd r))) = [FInt 10; FInt 20] /\
  length (fChargeProfile (shower_profile (fCurrentShower (snd r)))) = 2%nat.
Proof.
  vm_compute. repeat split.
Qed.

(** C6, witness: the longitudinal block of the first event of the two-event
    file. *)
Lemma ReadLongBlocks_assembles_witness :
  let sf := two_event_reader 0 1 in
  let sf' := snd (@ReadLongBlocks fexp DBlock ParticleData MemStream unit unit
                    fexp_FloatOps DBlock_ops MemStream_VRawStream Thinned sf) in
  exists longPos sf1 first rest sf2,
    longBlocks (fIndex sf) !! Z.to_nat (fCurrentPosition sf) = Some longPos /\
    @on_stream fexp MemStream unit unit unit
      (@stream_SeekTo DBlock MemStream MemStream_VRawStream longPos) sf = (Return tt, sf1) /\
    @reads_blocks fexp DBlock MemStream unit unit MemStream_VRawStream Thinned sf1
      (first :: rest) sf2 /\
    @IsLongitudinal fexp DBlock ParticleData DBlock_ops first = true /\
    length rest
    = Z.to_nat (Z.rem (@F_to_int fexp fexp_FloatOps
                         (fStepsAndBlocks (@AsLongitudinalBlock fexp DBlock ParticleData
                                             DBlock_ops first))) 100 - 1) /\
    let kept := @kept_chain fexp DBlock ParticleData fexp_FloatOps DBlock_ops 0
                  (map (@AsLongitudinalBlock fexp DBlock ParticleData DBlock_ops)
                       (first :: rest)) in
    shower_profile (fCurrentShower sf') = @profile_of fexp fexp_FloatOps kept /\
    columns_have_length (shower_profile (fCurrentShower sf')) (length kept) /\
    (length kept <= length (first :: rest)
                    * @kLongEntriesPerBlock fexp DBlock ParticleData DBlock_ops)%nat.
Proof.
  intros sf sf'.
  apply (@ReadLongBlocks_assembles fexp DBlock ParticleData MemStream unit unit
           fexp_FloatOps DBlock_ops MemStream_VRawStream Thinned sf sf').
  vm_compute. reflexivity.
Defined.

(** * Further properties of the framed block stream *)

(** ** Seek and tell *)

Section SeekAndTell.

Context `{ThinningTraits} `{StreamEnv}.

Lemma SeekTo_seekable_tell (fuel : nat) (p : Z) (s : RawStream) :
  seekable (file s) = true ->
  0 < kBlocksInDiskBlock (thinning s) ->
  0 <= p < 2 ^ 64 ->
  fst (SeekTo fuel p s) = Return tt /\
  GetNextPosition (snd (SeekTo fuel p s)) = p /\
  buffer_valid (snd (SeekTo fuel p s)) = false.
Proof.
  intros Hsk HK Hp. rewrite SeekTo_seekable by done.
  split; [done|]. split; [|done].
  unfold GetNextPosition, wrap64.
  cbn [snd current_disk_block current_block thinning with_file with_buffer_valid
       with_position].
  unfold stream_K.
  assert (Hdm : p = kBlocksInDiskBlock (thinning s) * (p / kBlocksInDiskBlock (thinning s))
                   + p mod kBlocksInDiskBlock (thinning s)) by (apply Z.div_mod; lia).
  rewrite Z.add_comm, <- Hdm. apply Z.mod_small. lia.
Qed.

(** X1.  On a seekable source [SeekTo(p)] returns for every [p]; behind it
    [GetNextPosition()] is [p], the buffer is declared invalid (also when [p]
    lies in the disk block that the buffer holds, so that the next read
    fetches the disk block again), the bytes of the buffer are kept and the
    source stands at the start of the disk block of [p]. *)
Theorem SeekTo_then_GetNextPosition (fuel : nat) (p : Z) (s : RawStream) :
  seekable (file s) = true ->
  0 < kBlocksInDiskBlock (thinning s) ->
  0 <= p < 2 ^ 64 ->
  exists s',
    SeekTo fuel p s = (Return tt, s') /\
    GetNextPosition s' = p /\
    buffer_valid s' = false /\
    buffer s' = buffer s /\
    pos (file s')
    = Z.to_nat (wrap64 (p / kBlocksInDiskBlock (thinning s)
                        * sizeof_DiskBlock (thinning s) (padding s))).
Proof.
  intros Hsk HK Hp.
  destruct (SeekTo_seekable_tell fuel p s Hsk HK Hp) as (_ & Htell & _).
  rewrite SeekTo_seekable in * by done.
  eexists. split; [reflexivity|]. split; [exact Htell|]. by repeat split.
Qed.

End SeekAndTell.

(** X1, witness: the stream on the file of three disk blocks, behind its
    second block, sent to block 1. *)
Lemma SeekTo_then_GetNextPosition_witness :
  let s := after_blocks 2 (opened "three_sectors") in
  exists s',
    @SeekTo spec_traits example_env 0 1 s = (Return tt, s') /\
    @GetNextPosition spec_traits s' = 1 /\
    buffer_valid s' = false /\
    buffer s' = buffer s /\
    pos (file s')
    = Z.to_nat (wrap64 (1 / @kBlocksInDiskBlock spec_traits (thinning s)
                        * @sizeof_DiskBlock spec_traits (thinning s) (padding s))).
Proof.
  intros s.
  apply (@SeekTo_then_GetNextPosition spec_traits example_env 0%nat 1 s).
  - reflexivity.
  - vm_compute. reflexivity.
  - lia.
Defined.

(** ** Sequential reading *)

Lemma take_drop_take {A} (l : list A) (a n k : nat) :
  (a + n <= k)%nat -> take n (drop a (take k l)) = take n (drop a l).
Proof.
  intros Hle. rewrite skipn_firstn_comm, take_take. f_equal. lia.
Qed.

Section SequentialRead.

Context `{ThinningTraits} `{StreamEnv}.

Lemma reachable_same_source (s0 s : RawStream) :
  synced s0 -> reachable s0 s -> same_source s0 s.
Proof.
  intros Hs0 Hr.
  induction Hr as [|B s o s' Hr IH Hn|fuel p s s' Hr IH Hp Hoff Hsk
                   |fuel s b s' Hr IH Hv].
  - apply same_source_refl.
  - apply (same_source_trans _ s); [done|].
    pose proof (GetNextBlock_same_source B s) as Hss. by rewrite Hn in Hss.
  - apply (same_source_trans _ s); [done|].
    pose proof (reachable_synced s0 s Hs0 Hr) as Hs.
    destruct (SeekTo_buffer fuel p s (st_seekable s (sync_static s Hs))) as [_ Hss].
    by rewrite Hsk in Hss.
  - apply (same_source_trans _ s); [done|].
    pose proof (reachable_synced s0 s Hs0 Hr) as Hs.
    by destruct (synced_IsValid fuel s b s' Hs Hv) as (_ & _ & _ & _ & Hss).
Qed.

(** The position behind a sub-block that was handed out is the position
    before plus one. *)
Lemma advanced_tell (s : RawStream) :
  synced s -> sector_bytes s <> [] ->
  snd (advanced s) + stream_K s * fst (advanced s) = GetNextPosition s + 1.
Proof.
  intros Hs Hne. rewrite GetNextPosition_synced by done.
  pose proof (sync_static s Hs) as Hst.
  pose proof (stream_S_gt_K s Hst) as HKS. pose proof (st_K s Hst) as HK.
  pose proof (st_size s Hst) as Hsize.
  pose proof (sector_bytes_nonempty s Hst (sync_cb s Hs) (sync_off s Hs) Hne) as Hlt.
  pose proof (sync_cdb s Hs) as Hcdb. pose proof (sync_cb s Hs) as Hcb.
  unfold advanced.
  assert (Hw : wrap64 (current_disk_block s + 1) = current_disk_block s + 1).
  { unfold wrap64. apply Z.mod_small. lia. }
  rewrite Hw.
  destruct (stream_K s <=? current_disk_block s + 1) eqn:Hadv; cbn [fst snd].
  - apply Z.leb_le in Hadv.
    assert (Hw' : wrap64 (current_block s + 1) = current_block s + 1).
    { unfold wrap64. apply Z.mod_small. nia. }
    rewrite Hw'. nia.
  - lia.
Qed.

(** X2.  Sequential reading of a seekable file made of whole disk blocks: in
    every state that the stream reaches, [GetNextBlock] for the stream's own
    thinning delivers the sub-block of the file at the position that
    [GetNextPosition] reports and moves that position on by one; behind the
    last disk block it returns [false] and keeps the position; it throws only
    "Padding mismatch", for a disk block whose padding words differ, and keeps
    the position. *)
Theorem GetNextBlock_delivers_the_block_at_the_position
    (junk : nat -> Byte.byte) (stack_junk : list Byte.byte)
    (theName : string) (d : list Byte.byte) (m : Z) (s0 s : RawStream) :
  wf_consts -> file_fits d -> file_system theName = Some (d, true) ->
  Create junk stack_junk theName = Return s0 ->
  0 < m ->
  Z.of_nat (length d) = m * sizeof_DiskBlock (thinning s0) (padding s0) ->
  reachable s0 s ->
  let T := thinning s0 in
  let P := padding s0 in
  let K := kBlocksInDiskBlock T in
  let size := sizeof_DiskBlock T P in
  let p := GetNextPosition s in
  let disk_block := take (Z.to_nat size) (drop (Z.to_nat (p / K * size)) d) in
  match GetNextBlock T s with
  | (Return (Some b), s') =>
      p / K < m /\ padding_equal T P disk_block /\
      b = take (Z.to_nat (sizeof_Block (consts T)))
            (drop (Z.to_nat (p / K * size + 4 * Z.of_nat P
                             + p mod K * sizeof_Block (consts T))) d) /\
      GetNextPosition s' = p + 1
  | (Return None, s') => m <= p / K /\ GetNextPosition s' = p
  | (Throw e, s') =>
      e = PaddingMismatch /\ p / K < m /\ ~ padding_equal T P disk_block /\
      GetNextPosition s' = p
  | _ => False
  end.
Proof.
  intros Hwf Hfit Hfs Hc Hm HL Hr.
  destruct (whole_Create junk stack_junk theName d s0 m Hwf Hfit Hfs Hm HL Hc)
    as [Hs0 Hw0].
  destruct (reachable_whole s0 s Hs0 Hw0 Hr) as [Hs Hw].
  destruct (reachable_same_source s0 s Hs0 Hr) as (HT & HP & Hd & _).
  assert (Hd0 : data (file s0) = d).
  { assert (Hd8 : (8 < length d)%nat).
    { destruct (Hwf (thinning s0)) as [HK HB].
      pose proof (st_P s0 (sync_static s0 Hs0)).
      unfold sizeof_DiskBlock, kBlocksInDiskBlock in HL. nia. }
    by destruct (synced_Create junk stack_junk theName d s0 Hwf Hfit Hfs Hd8 Hc)
      as (_ & ? & _). }
  cbv zeta. rewrite <- HT, <- HP.
  pose proof (sync_static s Hs) as Hst.
  pose proof (stream_S_gt_K s Hst) as HKS. pose proof (st_K s Hst) as HK.
  pose proof (st_Bs s Hst) as HBs.
  pose proof (sync_cdb s Hs) as Hcdb. pose proof (sync_cb s Hs) as Hcb.
  pose proof (sync_off s Hs) as Hoff.
  destruct (tell_div_mod s Hs) as [Hdiv Hmod].
  fold (stream_K s) (stream_S s). rewrite Hdiv, Hmod.
  assert (HLs : Z.of_nat (length d) = m * stream_S s).
  { unfold stream_S. by rewrite HT, HP. }
  assert (Hsb : sector_bytes s
                = take (Z.to_nat (stream_S s))
                       (drop (Z.to_nat (current_block s * stream_S s)) d)).
  { unfold sector_bytes. rewrite sector_offset_small by done. by rewrite Hd, Hd0. }
  rewrite <- Hsb.
  assert (Hempty : sector_bytes s = [] <-> m <= current_block s).
  { split.
    - intros He. destruct (decide (m <= current_block s)); [done|].
      assert (Hl : length (sector_bytes s) = 0%nat) by (by rewrite He).
      rewrite Hsb, length_take, length_drop in Hl. nia.
    - intros Hge. rewrite Hsb, drop_ge by nia. apply take_nil. }
  pose proof (observe_GetNextBlock (thinning s) s Hs) as Ho.
  rewrite Thinning_eqb_refl, observe_GetNextBlockImpl_whole in Ho by done.
  cbv zeta in Ho.
  pose proof (GetNextBlock_same_source (thinning s) s) as Hss.
  pose proof (synced_GetNextBlock (thinning s) s) as Hsync.
  destruct (GetNextBlock (thinning s) s) as [o s'].
  unfold observe in Ho. cbn [fst snd] in Ho, Hss.
  destruct Hss as (HT' & _).
  assert (Hkeep : current_block s' = current_block s ->
                  current_disk_block s' = current_disk_block s ->
                  GetNextPosition s' = GetNextPosition s).
  { intros Hcb' Hcdb'. unfold GetNextPosition. by rewrite HT', Hcb', Hcdb'. }
  destruct (decide (sector_bytes s = [])) as [He|Hne].
  - injection Ho as -> Hcb' Hcdb'. split; [by apply Hempty|by apply Hkeep].
  - assert (Hlt : current_block s < m).
    { destruct (decide (current_block s < m)); [done|].
      exfalso. apply Hne, Hempty. lia. }
    destruct (check_padding (thinning s) (padding s) (sector_bytes s)) eqn:Hchk.
    + injection Ho as -> Hcb' Hcdb'.
      split; [done|]. split; [by apply check_padding_spec|].
      split.
      * unfold fBlock. rewrite Hsb.
        rewrite take_drop_take.
        -- rewrite drop_drop. f_equal. f_equal.
           unfold stream_S, sizeof_DiskBlock in *. nia.
        -- unfold stream_S, sizeof_DiskBlock, stream_K in *. nia.
      * specialize (Hsync _ _ Hs eq_refl).
        rewrite (GetNextPosition_synced s') by done.
        unfold stream_K at 1. rewrite HT'. fold (stream_K s).
        rewrite Hcb', Hcdb'.
        by apply advanced_tell.
    + injection Ho as -> Hcb' Hcdb'.
      split; [done|]. split; [done|]. split; [|by apply Hkeep].
      intros Heq. apply check_padding_spec in Heq. congruence.
Qed.

End SequentialRead.

(** X2, witness: the second block of the file of three whole disk blocks. *)
Lemma GetNextBlock_delivers_the_block_at_the_position_witness :
  let s0 := opened "three_sectors" in
  let s := after_blocks 1 s0 in
  let T := thinning s0 in
  let P := padding s0 in
  let K := @kBlocksInDiskBlock spec_traits T in
  let size := @sizeof_DiskBlock spec_traits T P in
  let p := @GetNextPosition spec_traits s in
  let disk_block :=
    take (Z.to_nat size) (drop (Z.to_nat (p / K * size)) file_three_sectors) in
  match @GetNextBlock spec_traits T s with
  | (Return (Some b), s') =>
      p / K < 3 /\ @padding_equal spec_traits T P disk_block /\
      b = take (Z.to_nat (sizeof_Block (spec_consts T)))
            (drop (Z.to_nat (p / K * size + 4 * Z.of_nat P
                             + p mod K * sizeof_Block (spec_consts T)))
                  file_three_sectors) /\
      @GetNextPosition spec_traits s' = p + 1
  | (Return None, s') => 3 <= p / K /\ @GetNextPosition spec_traits s' = p
  | (Throw e, s') =>
      e = PaddingMismatch /\ p / K < 3 /\ ~ @padding_equal spec_traits T P disk_block /\
      @GetNextPosition spec_traits s' = p
  | _ => False
  end.
Proof.
  intros s0 s.
  apply (@GetNextBlock_delivers_the_block_at_the_position spec_traits example_env
           zero_junk [] "three_sectors" file_three_sectors 3 s0 s).
  - exact wf_spec_consts.
  - apply example_file_fits. vm_compute. lia.
  - reflexivity.
  - vm_compute. reflexivity.
  - lia.
  - vm_compute. reflexivity.
  - apply (@reachable_next spec_traits example_env); [|reflexivity].
    apply reach_start.
Defined.

(** ** The end of the file and rejected disk blocks *)

Section EndOfFile.

Context `{ThinningTraits} `{StreamEnv}.

Lemma GetNextBlockImpl_None (s s' : RawStream) :
  GetNextBlockImpl s = (Return None, s') ->
  buffer_valid s = false /\ next_read s = [] /\
  s' = with_file (snd (FileStream_read (sizeof_DiskBlock (thinning s) (padding s)) (file s))) s.
Proof.
  unfold GetNextBlockImpl. destruct (buffer_valid s) eqn:Hv.
  - intros Hx. pose proof (take_block_outcome s) as Ho. rewrite Hx in Ho. discriminate.
  - rewrite ReadDiskBlock_cases. cbv zeta.
    destruct (decide (next_read s = [])) as [He|Hne].
    + by intros [= <-].
    + destruct (check_padding _ _ _); [|discriminate].
      intros Hx. match type of Hx with take_block ?x = _ =>
        pose proof (take_block_outcome x) as Ho end.
      rewrite Hx in Ho. discriminate.
Qed.

(** The end of the file is a fixed point of [GetNextBlockImpl]: a call that
    returned [false] left the counters and the buffer as they were, and the
    next call returns [false] again and changes nothing. *)
Lemma GetNextBlockImpl_end_fixed (s s' : RawStream) :
  GetNextBlockImpl s = (Return None, s') ->
  GetNextBlockImpl s' = (Return None, s') /\
  thinning s' = thinning s /\ padding s' = padding s /\
  current_block s' = current_block s /\
  current_disk_block s' = current_disk_block s /\
  buffer s' = buffer s /\ buffer_valid s' = false /\
  seekable (file s') = seekable (file s).
Proof.
  intros Hx. destruct (GetNextBlockImpl_None s s' Hx) as (Hv & He & ->).
  unfold next_read, FileStream_read in He. cbn [fst] in He.
  split; [|by repeat split].
  unfold GetNextBlockImpl.
  cbn [buffer_valid with_file]. rewrite Hv.
  unfold ReadDiskBlock, FileStream_read.
  cbn [thinning padding file with_file data pos snd].
  rewrite He. cbn [length]. rewrite Nat.add_0_r, He. cbn [length Z.of_nat Z.leb Z.compare].
  rewrite Nat.add_0_r. reflexivity.
Qed.

(** At the end of the file [GetNextBlock] changes nothing any more. *)
Lemma GetNextBlock_end_fixed (B : Thinning) (s s' : RawStream) :
  GetNextBlock B s = (Return None, s') ->
  GetNextBlock B s' = (Return None, s') /\ GetNextPosition s' = GetNextPosition s.
Proof.
  unfold GetNextBlock, GetNextPosition. destruct (Thinning_eqb B (thinning s)) eqn:HB.
  - intros Hx.
    destruct (GetNextBlockImpl_end_fixed s s' Hx) as (Hfix & HT & _ & Hcb & Hcdb & _).
    by rewrite HT, HB, Hcb, Hcdb.
  - intros [= <-]. by rewrite HB.
Qed.

(** X3.  Once [GetNextBlock] has returned [false], every further call returns
    [false] and leaves the stream as it is: the position that
    [GetNextPosition] reports stays, the buffer is not touched. *)
Theorem end_of_file_is_sticky (B : Thinning) (s s' : RawStream) :
  GetNextBlock B s = (Return None, s') ->
  GetNextBlock B s' = (Return None, s') /\
  GetNextPosition s' = GetNextPosition s /\
  buffer s' = buffer s.
Proof.
  intros Hend. destruct (GetNextBlock_end_fixed B s s' Hend) as [Hfix Htell].
  split; [exact Hfix|]. split; [exact Htell|].
  revert Hend. unfold GetNextBlock. destruct (Thinning_eqb B (thinning s)).
  - intros Hx. by destruct (GetNextBlockImpl_end_fixed s s' Hx) as (_ & _ & _ & _ & _ & Hb & _).
  - by intros [= <-].
Qed.

(** X4.  [GetNextBlockImpl] throws only "Padding mismatch" and only when it
    refills the buffer.  The bytes it read are then in the buffer and the
    source stands behind them, while the counters are as before and the buffer
    is still declared invalid: the next call does not read the rejected disk
    block again but the bytes behind it, under the unchanged position. *)
Theorem padding_mismatch_skips_the_disk_block (s s' : RawStream) (e : exn) :
  GetNextBlockImpl s = (Throw e, s') ->
  e = PaddingMismatch /\
  buffer_valid s = false /\ buffer_valid s' = false /\
  next_read s <> [] /\
  buffer s' = overlay (next_read s) (buffer s) /\
  GetNextPosition s' = GetNextPosition s /\
  pos (file s') = (pos (file s) + length (next_read s))%nat /\
  next_read s'
  = take (Z.to_nat (sizeof_DiskBlock (thinning s) (padding s)))
         (drop (pos (file s) + length (next_read s)) (data (file s))).
Proof.
  unfold GetNextBlockImpl. destruct (buffer_valid s) eqn:Hv.
  - intros Hx. pose proof (take_block_outcome s) as Ho. rewrite Hx in Ho. discriminate.
  - rewrite ReadDiskBlock_cases. cbv zeta.
    destruct (decide (next_read s = [])) as [He|Hne]; [discriminate|].
    destruct (check_padding _ _ _).
    + intros Hx. match type of Hx with take_block ?x = _ =>
        pose proof (take_block_outcome x) as Ho end.
      rewrite Hx in Ho. discriminate.
    + intros [= <- <-]. by repeat split.
Qed.

End EndOfFile.

(** X3, witness: the file of eight bytes, which ends behind the bytes that
    [Create] reads. *)
Lemma end_of_file_is_sticky_witness :
  let s := opened "eight_bytes" in
  let s' := snd (@GetNextBlock spec_traits Thinned s) in
  @GetNextBlock spec_traits Thinned s' = (Return None, s') /\
  @GetNextPosition spec_traits s' = @GetNextPosition spec_traits s /\
  buffer s' = buffer s.
Proof.
  intros s s'.
  apply (@end_of_file_is_sticky spec_traits Thinned s s').
  vm_compute. reflexivity.
Defined.

(** X4, witness: the second disk block of the damaged file is rejected; the
    call behind it hands out the sub-block of the third disk block while
    [GetNextPosition] still reports 1. *)
Lemma padding_mismatch_skips_the_disk_block_witness :
  let s := after_blocks 1 damaged in
  let s' := snd (@GetNextBlockImpl spec_traits s) in
  PaddingMismatch = PaddingMismatch /\
  buffer_valid s = false /\ buffer_valid s' = false /\
  @next_read spec_traits s <> [] /\
  buffer s' = overlay (@next_read spec_traits s) (buffer s) /\
  @GetNextPosition spec_traits s' = @GetNextPosition spec_traits s /\
  pos (file s') = (pos (file s) + length (@next_read spec_traits s))%nat /\
  @next_read spec_traits s'
  = take (Z.to_nat (@sizeof_DiskBlock spec_traits (thinning s) (padding s)))
         (drop (pos (file s) + length (@next_read spec_traits s)) (data (file s))).
Proof.
  intros s s'.
  apply (@padding_mismatch_skips_the_disk_block spec_traits s s' PaddingMismatch).
  vm_compute. reflexivity.
Defined.

Lemma block_behind_the_rejected_disk_block :
  let s := after_blocks 1 damaged in
  let s' := snd (@GetNextBlockImpl spec_traits s) in
  fst (@GetNextBlockImpl spec_traits s) = Throw PaddingMismatch /\
  @GetNextPosition spec_traits s' = 1 /\
  fst (@GetNextBlockImpl spec_traits s') = Return (Some (tagged_block tag_EVTH 2)).
Proof. vm_compute. repeat split. Qed.

(** ** Seeking on a source that cannot seek *)

Section SequentialSeek.

Context `{ThinningTraits} `{StreamEnv}.

(** Handing out a sub-block moves the position on by one (modulo 2^64),
    whatever the source and the buffer are. *)
Lemma take_block_tell (s : RawStream) :
  0 <= current_disk_block s < kBlocksInDiskBlock (thinning s) ->
  kBlocksInDiskBlock (thinning s) < 2 ^ 64 ->
  GetNextPosition (snd (take_block s)) = wrap64 (GetNextPosition s + 1) /\
  0 <= current_disk_block (snd (take_block s)) < kBlocksInDiskBlock (thinning s) /\
  thinning (snd (take_block s)) = thinning s.
Proof.
  intros Hcdb HK. unfold take_block.
  assert (Hw : wrap64 (current_disk_block s + 1) = current_disk_block s + 1).
  { unfold wrap64. apply Z.mod_small. lia. }
  rewrite Hw.
  destruct (kBlocksInDiskBlock (thinning s) <=? current_disk_block s + 1) eqn:Hadv;
    cbn [snd]; unfold GetNextPosition;
    cbn [thinning current_block current_disk_block with_buffer_valid with_position].
  - apply Z.leb_le in Hadv. split; [|split; [lia|done]].
    unfold wrap64. rewrite Z.add_0_l, Z.mul_mod_idemp_r by lia.
    rewrite Zplus_mod_idemp_l. f_equal. lia.
  - apply Z.leb_gt in Hadv. split; [|split; [lia|done]].
    unfold wrap64. rewrite Zplus_mod_idemp_l. f_equal. lia.
Qed.

Lemma GetNextBlockImpl_tell (s s' : RawStream) (b : Block) :
  0 <= current_disk_block s < kBlocksInDiskBlock (thinning s) ->
  kBlocksInDiskBlock (thinning s) < 2 ^ 64 ->
  GetNextBlockImpl s = (Return (Some b), s') ->
  GetNextPosition s' = wrap64 (GetNextPosition s + 1) /\
  0 <= current_disk_block s' < kBlocksInDiskBlock (thinning s') /\
  thinning s' = thinning s.
Proof.
  intros Hcdb HK. unfold GetNextBlockImpl. destruct (buffer_valid s).
  - intros Hx. destruct (take_block_tell s Hcdb HK) as (Ht & Hc & HT).
    rewrite Hx in Ht, Hc, HT. cbn [snd] in *. by rewrite HT.
  - rewrite ReadDiskBlock_cases. cbv zeta.
    destruct (decide _); [discriminate|].
    destruct (check_padding _ _ _); [|discriminate].
    intros Hx.
    match type of Hx with take_block ?x = _ =>
      destruct (take_block_tell x Hcdb HK) as (Ht & Hc & HT) end.
    rewrite Hx in Ht, Hc, HT. cbn [snd] in *. by rewrite HT.
Qed.

Lemma skip_to_read_blocks (p : Z) (n : nat) :
  forall (fuel : nat) (s s' : RawStream),
    0 <= current_disk_block s < kBlocksInDiskBlock (thinning s) ->
    kBlocksInDiskBlock (thinning s) < 2 ^ 64 ->
    GetNextPosition s + Z.of_nat n = p -> p < 2 ^ 64 ->
    read_blocks n s = Some s' ->
    (n <= fuel)%nat ->
    skip_to fuel p s = (Return tt, s') /\ GetNextPosition s' = p.
Proof.
  induction n as [|n IH]; intros fuel s s' Hcdb HK Hp Hlt Hrun Hfuel.
  - injection Hrun as <-. split; [|lia].
    destruct fuel; cbn [skip_to];
      (replace (GetNextPosition s <? p) with false by (symmetry; apply Z.ltb_ge; lia));
      by rewrite andb_false_r.
  - assert (Hge : 0 <= GetNextPosition s).
    { unfold GetNextPosition, wrap64. apply Z.mod_pos_bound. lia. }
    destruct fuel as [|fuel]; [lia|]. cbn [skip_to read_blocks] in *.
    replace (0 <? p) with true by (symmetry; apply Z.ltb_lt; lia).
    replace (GetNextPosition s <? p) with true by (symmetry; apply Z.ltb_lt; lia).
    cbn [andb].
    destruct (GetNextBlock (thinning s) s) as [[[b|]| | |] s1] eqn:Hn; try discriminate.
    unfold GetNextBlock in Hn. rewrite Thinning_eqb_refl in Hn.
    destruct (GetNextBlockImpl_tell s s1 b Hcdb HK Hn) as (Ht & Hc & HT).
    assert (Ht1 : GetNextPosition s1 = GetNextPosition s + 1).
    { rewrite Ht. unfold wrap64. apply Z.mod_small. lia. }
    apply IH; [done|by rewrite HT|lia|done|done|lia].
Qed.

(** X5.  On a source that cannot seek, [SeekTo] to a position [p] at or behind
    the current one is [p - GetNextPosition()] calls of [GetNextBlock]: when
    these calls all return a block, [SeekTo] returns in the state they leave,
    and [GetNextPosition] reports [p]. *)
Theorem sequential_SeekTo_forward (fuel : nat) (p : Z) (s s' : RawStream) :
  seekable (file s) = false ->
  0 <= current_disk_block s < kBlocksInDiskBlock (thinning s) ->
  kBlocksInDiskBlock (thinning s) < 2 ^ 64 ->
  GetNextPosition s <= p < 2 ^ 64 ->
  read_blocks (Z.to_nat (p - GetNextPosition s)) s = Some s' ->
  (Z.to_nat (p - GetNextPosition s) <= fuel)%nat ->
  SeekTo fuel p s = (Return tt, s') /\ GetNextPosition s' = p.
Proof.
  intros Hsk Hcdb HK Hp Hrun Hfuel. unfold SeekTo. rewrite Hsk.
  replace (p <? GetNextPosition s) with false by (symmetry; apply Z.ltb_ge; lia).
  apply (skip_to_read_blocks p (Z.to_nat (p - GetNextPosition s))); try done; lia.
Qed.


(** X7.  On a source that cannot seek, [SeekTo] to a position behind the end
    of the file never returns: the loop calls [GetNextBlock] without looking
    at its result, and at the end of the file the position no longer moves.
    In the model the loop uses up whatever fuel it is given. *)
Theorem sequential_SeekTo_behind_the_end_never_returns
    (fuel : nat) (p : Z) (s s' : RawStream) :
  seekable (file s) = false ->
  GetNextBlock (thinning s) s = (Return None, s') ->
  GetNextPosition s < p ->
  fst (SeekTo fuel p s) = OutOfFuel.
Proof.
  intros Hsk Hend Hp. unfold SeekTo. rewrite Hsk.
  replace (p <? GetNextPosition s) with false by (symmetry; apply Z.ltb_ge; lia).
  assert (Hge : 0 <= GetNextPosition s).
  { unfold GetNextPosition, wrap64. apply Z.mod_pos_bound. lia. }
  clear Hsk. revert s s' Hend Hp Hge.
  induction fuel as [|fuel IH]; intros s s' Hend Hp Hge; cbn [skip_to];
    (replace (0 <? p) with true by (symmetry; apply Z.ltb_lt; lia));
    (replace (GetNextPosition s <? p) with true by (symmetry; apply Z.ltb_lt; lia));
    cbn [andb]; [done|].
  rewrite Hend.
  destruct (GetNextBlock_end_fixed (thinning s) s s' Hend) as (Hfix & Htell).
  assert (HT : thinning s' = thinning s).
  { pose proof (GetNextBlock_same_source (thinning s) s) as Hss.
    rewrite Hend in Hss. apply Hss. }
  apply (IH s' s').
  - by rewrite HT.
  - lia.
  - lia.
Qed.

End SequentialSeek.

(** X5, witness: the file of three disk blocks read through a pipe; from the
    start to block 2. *)
Lemma sequential_SeekTo_forward_witness :
  let s := piped "three_sectors" in
  let s' := after_blocks 2 s in
  @SeekTo spec_traits pipe_env 2 2 s = (Return tt, s') /\
  @GetNextPosition spec_traits s' = 2.
Proof.
  intros s s'.
  apply (@sequential_SeekTo_forward spec_traits pipe_env 2%nat 2 s s').
  - reflexivity.
  - vm_compute. by split.
  - vm_compute. reflexivity.
  - vm_compute. by split.
  - vm_compute. reflexivity.
  - vm_compute. lia.
Defined.


(** X7, witness: the piped file of three disk blocks at its end, asked for
    block 5. *)
Lemma sequential_SeekTo_behind_the_end_never_returns_witness :
  let s := after_blocks 3 (piped "three_sectors") in
  fst (@SeekTo spec_traits pipe_env 1000 5 s) = OutOfFuel.
Proof.
  intros s.
  apply (@sequential_SeekTo_behind_the_end_never_returns spec_traits pipe_env
           1000%nat 5 s (snd (@GetNextBlock spec_traits Thinned s))).
  - reflexivity.
  - vm_compute. reflexivity.
  - vm_compute. reflexivity.
Defined.

(** ** The answer of IsValid *)

Section ValidateAnswer.

Context `{ThinningTraits} `{StreamEnv}.




End ValidateAnswer.


(** ** The size of the blocks and the outcomes of Create *)

Section BlockBounds.

Context `{ThinningTraits} `{StreamEnv}.

Lemma IsValid_buffer_length (fuel : nat) (s : RawStream) :
  seekable (file s) = true ->
  Z.of_nat (length (buffer s)) = stream_S s ->
  length (buffer (snd (IsValid fuel s))) = length (buffer s).
Proof.
  intros Hsk Hlen. unfold IsValid. rewrite Hsk. cbn [negb].
  rewrite (SeekTo_seekable fuel 0 s) by done.
  set (s1 := with_file _ _).
  assert (Hlen1 : Z.of_nat (length (buffer s1)) = stream_S s1) by exact Hlen.
  pose proof (GetNextBlock_buffer_length (thinning s1) s1 Hlen1) as Hb2.
  pose proof (GetNextBlock_same_source (thinning s1) s1) as (_ & _ & _ & Hsk2).
  destruct (GetNextBlock (thinning s1) s1) as [[o| | |] s2]; cbn [snd] in *; try done.
  rewrite SeekTo_seekable by (cbn; by rewrite Hsk2). cbn [snd]. exact Hb2.
Qed.

Lemma reachable_buffer_length (s0 s : RawStream) :
  synced s0 -> Z.of_nat (length (buffer s0)) = stream_S s0 ->
  reachable s0 s -> Z.of_nat (length (buffer s)) = stream_S s.
Proof.
  intros Hs0 Hlen0 Hr.
  induction Hr as [|B s o s' Hr IH Hn|fuel p s s' Hr IH Hp Hoff Hsk
                   |fuel s b s' Hr IH Hv].
  - done.
  - pose proof (GetNextBlock_buffer_length B s IH) as Hb.
    pose proof (GetNextBlock_same_source B s) as (HT & HP & _).
    rewrite Hn in Hb, HT, HP. cbn [snd] in *.
    unfold stream_S in *. by rewrite Hb, HT, HP.
  - pose proof (reachable_synced s0 s Hs0 Hr) as Hs.
    destruct (SeekTo_buffer fuel p s (st_seekable s (sync_static s Hs)))
      as [Hb (HT & HP & _)].
    rewrite Hsk in Hb, HT, HP. cbn [snd] in *.
    unfold stream_S in *. by rewrite Hb, HT, HP.
  - pose proof (reachable_synced s0 s Hs0 Hr) as Hs.
    pose proof (IsValid_buffer_length fuel s (st_seekable s (sync_static s Hs)) IH) as Hb.
    destruct (synced_IsValid fuel s b s' Hs Hv) as (_ & _ & _ & _ & HT & HP & _).
    rewrite Hv in Hb. cbn [snd] in *.
    unfold stream_S in *. by rewrite Hb, HT, HP.
Qed.

Lemma length_fBlock (T : Thinning) (P : nat) (buf : list Byte.byte) (i : Z) :
  0 < sizeof_Block (consts T) -> 0 <= i < kBlocksInDiskBlock T ->
  Z.of_nat (length buf) = sizeof_DiskBlock T P ->
  Z.of_nat (length (fBlock T P buf i)) = sizeof_Block (consts T).
Proof.
  intros HB Hi Hlen. unfold fBlock. rewrite length_take, length_drop.
  unfold sizeof_DiskBlock in Hlen. nia.
Qed.

(** X9.  In every state that the stream reaches on a seekable file (of more
    than the eight bytes that [Create] reads), the index of the next sub-block
    is inside the disk block and the buffer has the size of a disk block;
    every block that [GetNextBlock] hands out has the full size of a
    sub-block, also when the file ends inside a disk block. *)
Theorem blocks_have_the_full_size
    (junk : nat -> Byte.byte) (stack_junk : list Byte.byte)
    (theName : string) (d : list Byte.byte) (s0 s s' : RawStream)
    (B : Thinning) (b : Block) :
  wf_consts -> file_fits d -> file_system theName = Some (d, true) ->
  (8 < length d)%nat ->
  Create junk stack_junk theName = Return s0 ->
  reachable s0 s ->
  GetNextBlock B s = (Return (Some b), s') ->
  0 <= current_disk_block s < kBlocksInDiskBlock (thinning s) /\
  Z.of_nat (length (buffer s)) = sizeof_DiskBlock (thinning s) (padding s) /\
  Z.of_nat (length b) = sizeof_Block (consts B).
Proof.
  intros Hwf Hfit Hfs Hd8 Hc Hr Hn.
  destruct (synced_Create junk stack_junk theName d s0 Hwf Hfit Hfs Hd8 Hc)
    as (Hs0 & _ & Hlen0 & _).
  pose proof (reachable_synced s0 s Hs0 Hr) as Hs.
  pose proof (reachable_buffer_length s0 s Hs0 Hlen0 Hr) as Hlen.
  split; [apply Hs|]. split; [exact Hlen|].
  pose proof (observe_GetNextBlock B s Hs) as Ho.
  destruct (Thinning_eqb B (thinning s)) eqn:HB.
  - assert (B = thinning s) as -> by (by destruct B, (thinning s)).
    rewrite observe_GetNextBlockImpl in Ho by done. cbv zeta in Ho.
    rewrite Hn in Ho. unfold observe in Ho. cbn [fst snd] in Ho.
    destruct (decide _); [discriminate|].
    destruct (check_padding _ _ _); [|discriminate].
    injection Ho as -> _ _.
    apply length_fBlock; [apply Hs|apply Hs|].
    rewrite length_overlay; [done|].
    unfold sector_bytes. rewrite length_take. lia.
  - rewrite Hn in Ho. unfold observe in Ho. cbn [fst snd] in Ho. discriminate.
Qed.

End BlockBounds.

(** X9, witness: the last block of the file whose third disk block is cut off
    behind its first twelve bytes. *)
Lemma blocks_have_the_full_size_witness :
  let s := after_blocks 2 (opened "truncated") in
  let b := tagged_block tag_EVTH 1 in
  0 <= current_disk_block s < @kBlocksInDiskBlock spec_traits (thinning s) /\
  Z.of_nat (length (buffer s)) = @sizeof_DiskBlock spec_traits (thinning s) (padding s) /\
  Z.of_nat (length b) = sizeof_Block (spec_consts Thinned).
Proof.
  intros s b.
  apply (@blocks_have_the_full_size spec_traits example_env zero_junk [] "truncated"
           file_truncated (opened "truncated") s
           (snd (@GetNextBlock spec_traits Thinned s)) Thinned b).
  - exact wf_spec_consts.
  - apply example_file_fits. vm_compute. lia.
  - reflexivity.
  - vm_compute. lia.
  - vm_compute. reflexivity.
  - apply (@reachable_next spec_traits example_env); [|reflexivity].
    apply (@reachable_next spec_traits example_env); [|reflexivity].
    apply reach_start.
  - vm_compute. reflexivity.
Defined.

Section CreateOutcomes.

Context `{ThinningTraits} `{StreamEnv}.

Lemma RawStream_new_outcomes T P junk f name len64 :
  match RawStream_new T P junk f name len64 with
  | Return s =>
      thinning s = T /\ padding s = P /\ filename s = name /\
      current_block s = 0 /\ current_disk_block s = 0 /\
      data (file s) = data f /\ seekable (file s) = seekable f
  | Throw e => e = PaddingMismatch
  | _ => False
  end.
Proof.
  unfold RawStream_new, FileStream_read. cbv zeta.
  destruct (_ && _); [done|]. by repeat split.
Qed.

(** X10.  [Create] throws "Error opening Corsika file" exactly when the file
    cannot be opened; for a file that can be opened it throws nothing but
    "Can't determine type of corsika file" and "Padding mismatch".  A stream
    that it returns carries the name, stands at block 0 and has 32-bit or
    64-bit padding; [GetNextPosition] reports 0. *)
Theorem Create_outcomes (junk : nat -> Byte.byte) (stack_junk : list Byte.byte)
    (theName : string) :
  match Create junk stack_junk theName with
  | Return s =>
      (exists sk, file_system theName = Some (data (file s), sk)
                  /\ seekable (file s) = sk) /\
      filename s = theName /\
      (padding s = 1%nat \/ padding s = 2%nat) /\
      current_block s = 0 /\ current_disk_block s = 0 /\
      GetNextPosition s = 0
  | Throw e =>
      (e = ErrorOpening /\ file_system theName = None) \/
      ((e = CantDetermineType \/ e = PaddingMismatch) /\ file_system theName <> None)
  | _ => False
  end.
Proof.
  unfold Create, FileStream_open.
  destruct (file_system theName) as [[d sk]|] eqn:Hfs; [|by left].
  destruct (FileStream_read 8 _) as [bs f'] eqn:Hread. cbv zeta.
  assert (Hf' : data f' = d /\ seekable f' = sk).
  { unfold FileStream_read in Hread. by injection Hread as _ <-. }
  destruct Hf' as [Hd Hsk].
  assert (Hnew : forall T P, (P = 1 \/ P = 2)%nat ->
    match RawStream_new T P junk f' theName (take 8 (overlay bs stack_junk)) with
    | Return s =>
        (exists sk0, Some (d, sk) = Some (data (file s), sk0)
                     /\ seekable (file s) = sk0) /\
        filename s = theName /\
        (padding s = 1%nat \/ padding s = 2%nat) /\
        current_block s = 0 /\ current_disk_block s = 0 /\
        GetNextPosition s = 0
    | Throw e =>
        (e = ErrorOpening /\ Some (d, sk) = None) \/
        ((e = CantDetermineType \/ e = PaddingMismatch) /\ Some (d, sk) <> @None _)
    | _ => False
    end).
  { intros T P HP.
    pose proof (RawStream_new_outcomes T P junk f' theName
                  (take 8 (overlay bs stack_junk))) as Hx.
    destruct (RawStream_new _ _ _ _ _ _) as [s|e| |]; try done.
    - destruct Hx as (HT & HPs & Hname & Hcb & Hcdb & Hds & Hsks).
      split; [exists sk; by rewrite Hds, Hd, Hsks, Hsk|].
      split; [done|]. split; [by rewrite HPs|]. split; [done|]. split; [done|].
      unfold GetNextPosition, wrap64. rewrite Hcb, Hcdb, Z.mul_0_r. done.
    - right. split; [by right|done]. }
  destruct (_ =? _); [apply Hnew; by right|].
  destruct (_ =? _); [apply Hnew; by right|].
  destruct (_ =? _); [apply Hnew; by left|].
  destruct (_ =? _); [apply Hnew; by left|].
  right. split; [by left|done].
Qed.

(** When the sub-blocks of the two thinning modes differ in size,
    [IsThinned] tells the thinning mode of the stream. *)
Lemma IsThinned_thinning (s : RawStream) :
  kBytesPerBlock (consts Thinned) <> kBytesPerBlock (consts NotThinned) ->
  IsThinned s = Thinning_eqb (thinning s) Thinned.
Proof.
  intros Hne. unfold IsThinned. destruct (thinning s); cbn [Thinning_eqb].
  - apply Z.eqb_refl.
  - apply Z.eqb_neq. congruence.
Qed.

Lemma skip_to_thinning (fuel : nat) (p : Z) (s : RawStream) :
  thinning (snd (skip_to fuel p s)) = thinning s.
Proof.
  revert s. induction fuel as [|fuel IH]; intros s; cbn [skip_to];
    destruct (_ && _); try done.
  pose proof (GetNextBlock_same_source (thinning s) s) as (HT & _).
  destruct (GetNextBlock (thinning s) s) as [[o| | |] s']; cbn [snd] in *; try done.
  by rewrite IH.
Qed.

Lemma SeekTo_thinning (fuel : nat) (p : Z) (s : RawStream) :
  thinning (snd (SeekTo fuel p s)) = thinning s.
Proof.
  unfold SeekTo. destruct (seekable (file s)); [done|].
  destruct (_ <? _).
  - destruct (FileStream_open (filename s)); [|done].
    by rewrite skip_to_thinning.
  - apply skip_to_thinning.
Qed.

End CreateOutcomes.

(** * Further properties of the particle iterator *)

Section IteratorInvariant.

Context {F B PD S : Type} `{ThinningTraits} `{BlockOps F B PD} `{VRawStream B S}.

Lemma Rewind_cases (it : RawParticleIterator B) (s : S) :
  Rewind (it, s) =
    (fst (stream_SeekTo (start it) s),
     (iter_with it (iter_kParticlesInBlock it) true (block it),
      snd (stream_SeekTo (start it) s))).
Proof.
  unfold Rewind, bind, gets, set_current_particle, set_valid, modify, on_iter_stream.
  cbn [fst snd start]. by destruct (stream_SeekTo (start it) s).
Qed.

(** X11.  The index into the records of the current block.  The constructor
    and [Rewind] put it behind the last record; [GetOneParticle] keeps it
    inside the block or just behind it, whatever the stream delivers, and
    every record that it returns is [fParticle[i]] of the current block for an
    index [i] inside the block.  The thinning mode and the start position of
    the iterator never change. *)
Theorem record_index_stays_in_the_block :
  (forall T, 0 < kParticlesInBlock (consts T)) ->
  (forall T block0 stream start0,
     index_in_block (fst (snd (RawParticleIterator_new T block0 stream start0)))) /\
  (forall st, index_in_block (fst (snd (Rewind st)))) /\
  (forall st o st',
     index_in_block (fst st) ->
     GetOneParticle st = (o, st') ->
     index_in_block (fst st') /\
     it_thinning (fst st') = it_thinning (fst st) /\
     start (fst st') = start (fst st) /\
     forall d, o = Return (Some d) ->
       exists i, 0 <= i < iter_kParticlesInBlock (fst st') /\
                 d = fParticle (block (fst st')) i).
Proof.
  intros Hk.
  assert (Hrew : forall st, index_in_block (fst (snd (Rewind st)))).
  { intros [it s]. rewrite Rewind_cases. cbn [fst snd].
    unfold index_in_block, iter_kParticlesInBlock.
    cbn [current_particle it_thinning iter_with]. specialize (Hk (it_thinning it)). lia. }
  split; [|split; [exact Hrew|]].
  - intros T block0 stream start0. unfold RawParticleIterator_new. apply Hrew.
  - intros [it s] o st' Hin. cbn [fst] in Hin. rewrite GetOneParticle_cases.
    unfold index_in_block, iter_kParticlesInBlock in *.
    specialize (Hk (it_thinning it)).
    destruct (current_particle it =? kParticlesInBlock (consts (it_thinning it))) eqn:Hcp.
    + destruct (negb (valid it)).
      { intros [= <- <-]. cbn [fst]. split; [lia|]. by repeat split. }
      destruct (stream_GetNextBlock (it_thinning it) s) as [[[b|]| | |] s1];
        try (intros [= <- <-]; cbn [fst]; split; [lia|]; by repeat split).
      destruct (is_end_block b); intros [= <- <-];
        cbn [fst current_particle it_thinning start block iter_with].
      * split; [lia|]. by repeat split.
      * split; [lia|]. split; [done|]. split; [done|].
        intros d [= <-]. exists 0. split; [lia|done].
    + apply Z.eqb_neq in Hcp. intros [= <- <-].
      cbn [fst current_particle it_thinning start block iter_with].
      split; [lia|]. split; [done|]. split; [done|].
      intros d [= <-]. exists (current_particle it). split; [lia|done].
Qed.

(** The records of a run of particle blocks that ends with a Control or
    Longitudinal block. *)
Lemma particles_of_a_run (it : RawParticleIterator B) (s s1 s2 : S)
    (bs : list B) (c : B) :
  0 < iter_kParticlesInBlock it ->
  current_particle it = iter_kParticlesInBlock it -> valid it = true ->
  stream_yields (it_thinning it) s bs s1 ->
  Forall (fun b => is_end_block b = false) bs ->
  stream_GetNextBlock (it_thinning it) s1 = (Return (Some c), s2) ->
  is_end_block c = true ->
  particles (length bs * Z.to_nat (iter_kParticlesInBlock it) + 1) (it, s) =
    (concat (map (block_records (it_thinning it)) bs), Return true,
     (iter_with it (iter_kParticlesInBlock it) false c, s2)).
Proof.
  intros HK Hcp Hv Hy Hbs Hc Hend.
  revert it s HK Hcp Hv Hy Hc.
  induction bs as [|b bs IH]; intros it s HK Hcp Hv Hy Hc.
  - inversion Hy; subst. cbn [length Nat.mul Nat.add particles concat map].
    rewrite GetOneParticle_cases, Hcp, Z.eqb_refl, Hv, Hc, Hend. cbn [negb].
    reflexivity.
  - inversion Hy as [|? ? s' ? ? Hn Hy']; subst.
    apply Forall_cons in Hbs as [Hb Hbs].
    cbn [length Nat.mul]. rewrite <- Nat.add_assoc, particles_app.
    rewrite (particles_of_block it s s' b) by done.
    specialize (IH Hbs (iter_with it (iter_kParticlesInBlock it) true b) s').
    change (iter_kParticlesInBlock (iter_with it (iter_kParticlesInBlock it) true b))
      with (iter_kParticlesInBlock it) in IH.
    change (it_thinning (iter_with it (iter_kParticlesInBlock it) true b))
      with (it_thinning it) in IH.
    rewrite IH by done. cbn [concat map]. reflexivity.
Qed.

(** X12.  [Rewind] starts the iteration again, in whatever state the iterator
    was (inside a block, at its end, no longer valid): when [SeekTo(start)]
    returns and the stream then delivers the particle blocks [bs] and a
    Control or Longitudinal block [c], the calls of [GetOneParticle] behind
    [Rewind] return the records of [bs] and then the null pointer.  The
    records left in the block that the iterator held are dropped. *)
Theorem Rewind_starts_the_iteration_again (it : RawParticleIterator B)
    (s s0 s1 s2 : S) (bs : list B) (c : B) :
  0 < iter_kParticlesInBlock it ->
  stream_SeekTo (start it) s = (Return tt, s0) ->
  stream_yields (it_thinning it) s0 bs s1 ->
  Forall (fun b => is_end_block b = false) bs ->
  stream_GetNextBlock (it_thinning it) s1 = (Return (Some c), s2) ->
  is_end_block c = true ->
  fst (Rewind (it, s)) = Return tt /\
  particles (length bs * Z.to_nat (iter_kParticlesInBlock it) + 1) (snd (Rewind (it, s)))
  = (concat (map (block_records (it_thinning it)) bs), Return true,
     (iter_with it (iter_kParticlesInBlock it) false c, s2)).
Proof.
  intros HK Hseek Hy Hbs Hc Hend. rewrite Rewind_cases, Hseek. cbn [fst snd].
  split; [done|].
  by rewrite (particles_of_a_run
                (iter_with it (iter_kParticlesInBlock it) true (block it)) s0 s1 s2 bs c).
Qed.

End IteratorInvariant.

(** X11, witness: the first call on a rewound iterator over a particle block.
    *)
Lemma record_index_stays_in_the_block_witness :
  let it := {| it_thinning := Thinned; start := 0; current_particle := 39;
               valid := true; block := RunHeaderBlock |} in
  let s := {| mem_blocks := [particle_block_with_gap; RunEndBlock]; mem_next := 0 |} in
  let r := @GetOneParticle fexp DBlock ParticleData MemStream spec_traits DBlock_ops
             MemStream_VRawStream (it, s) in
  @index_in_block DBlock spec_traits (fst (snd r)) /\
  it_thinning (fst (snd r)) = Thinned /\
  start (fst (snd r)) = 0 /\
  forall d, fst r = Return (Some d) ->
    exists i, 0 <= i < @iter_kParticlesInBlock DBlock spec_traits (fst (snd r)) /\
              d = @fParticle fexp DBlock ParticleData DBlock_ops (block (fst (snd r))) i.
Proof.
  intros it s r.
  apply (proj2 (proj2 (@record_index_stays_in_the_block fexp DBlock ParticleData
                         MemStream spec_traits DBlock_ops MemStream_VRawStream
                         ltac:(intros []; reflexivity)))
           (it, s) (fst r) (snd r)).
  - vm_compute. split; discriminate.
  - reflexivity.
Defined.

(** X12, witness: an iterator that has reached the end of the first event of
    the two-event file is rewound to block 2, the particle block of the event.
    *)
Lemma Rewind_starts_the_iteration_again_witness :
  let it := {| it_thinning := Thinned; start := 2; current_particle := 39;
               valid := false; block := long_block_two_entries |} in
  let s := {| mem_blocks := two_event_blocks; mem_next := 4 |} in
  fst (@Rewind DBlock MemStream spec_traits MemStream_VRawStream (it, s)) = Return tt /\
  @particles fexp DBlock ParticleData MemStream spec_traits DBlock_ops MemStream_VRawStream
    (1 * 39 + 1)
    (snd (@Rewind DBlock MemStream spec_traits MemStream_VRawStream (it, s)))
  = (@block_records fexp DBlock ParticleData spec_traits DBlock_ops Thinned
       particle_block_with_gap ++ [],
     Return true,
     (iter_with it 39 false long_block_two_entries,
      {| mem_blocks := two_event_blocks; mem_next := 4 |})).
Proof.
  intros it s.
  apply (@Rewind_starts_the_iteration_again fexp DBlock ParticleData MemStream
           spec_traits DBlock_ops MemStream_VRawStream it s
           {| mem_blocks := two_event_blocks; mem_next := 2 |}
           {| mem_blocks := two_event_blocks; mem_next := 3 |}
           {| mem_blocks := two_event_blocks; mem_next := 4 |}
           [particle_block_with_gap] long_block_two_entries).
  - reflexivity.
  - reflexivity.
  - apply (yields_cons Thinned _ particle_block_with_gap
             {| mem_blocks := two_event_blocks; mem_next := 3 |}); [reflexivity|].
    apply yields_nil.
  - by repeat constructor.
  - reflexivity.
  - reflexivity.
Defined.

(** ** The iterator over a RawStream *)

Section IteratorOverRawStream.

Context {F PD : Type} `{ThinningTraits} `{StreamEnv} `{BlockOps F Block PD}.

Local Notation "'GetOneParticle_on' fuel" :=
  (@GetOneParticle F Block PD RawStream _ _ (RawStream_VRawStream fuel))
  (at level 10, fuel at level 9).

(** X13.  An iterator over a [RawStream] whose file ends before a Control or
    Longitudinal block never returns the null pointer: the call that meets the
    end of the file throws "Error reading block in CORSIKA file" and leaves
    the iterator valid, and so does every call after it.  The same holds for
    an iterator whose thinning mode is not that of the stream, for which
    [GetNextBlock] returns [false] without reading. *)
Theorem iterator_throws_at_the_end_of_the_file (fuel : nat)
    (it : RawParticleIterator Block) (s s' : RawStream) (n : nat) :
  current_particle it = iter_kParticlesInBlock it -> valid it = true ->
  GetNextBlock (it_thinning it) s = (Return None, s') ->
  GetOneParticle_on fuel
    (Nat.iter n (fun x => snd (GetOneParticle_on fuel x)) (it, s))
  = (Throw ErrorReadingBlock, (it, s')).
Proof.
  intros Hcp Hv Hend.
  assert (Hcall : forall s1, GetNextBlock (it_thinning it) s1 = (Return None, s') ->
            GetOneParticle_on fuel (it, s1) = (Throw ErrorReadingBlock, (it, s'))).
  { intros s1 Hs1. rewrite GetOneParticle_cases, Hcp, Z.eqb_refl, Hv. cbn [negb].
    cbn [stream_GetNextBlock RawStream_VRawStream]. by rewrite Hs1. }
  destruct (GetNextBlock_end_fixed (it_thinning it) s s' Hend) as (Hfix & _).
  destruct n as [|n]; [by apply Hcall|].
  assert (Hit : Nat.iter (Datatypes.S n) (fun x => snd (GetOneParticle_on fuel x)) (it, s)
                = (it, s')).
  { induction n as [|n IH].
    - cbn [Nat.iter nat_rect]. by rewrite (Hcall s Hend).
    - rewrite Nat.iter_succ, IH. by rewrite (Hcall s' Hfix). }
  rewrite Hit. by apply Hcall.
Qed.

(** X14.  [VRawParticleIterator::Create] over a [RawStream] makes the iterator
    of the stream's own thinning mode (when the sub-blocks of the two modes
    differ in size), so that the reads of the iterator are served by
    [GetNextBlockImpl]. *)
Theorem Create_makes_the_iterator_of_the_stream (fuel : nat) (block0 : Block)
    (s : RawStream) (start0 : Z) :
  kBytesPerBlock (consts Thinned) <> kBytesPerBlock (consts NotThinned) ->
  let st := snd (@RawParticleIterator_Create Block RawStream _
                   (RawStream_VRawStream fuel) block0 s start0) in
  it_thinning (fst st) = thinning s /\
  thinning (snd st) = thinning s /\
  @stream_GetNextBlock Block RawStream (RawStream_VRawStream fuel)
    (it_thinning (fst st)) (snd st)
  = GetNextBlockImpl (snd st).
Proof.
  intros Hne st.
  assert (Hst : it_thinning (fst st) = thinning s /\ thinning (snd st) = thinning s).
  { unfold st, RawParticleIterator_Create, RawParticleIterator_new.
    cbn [stream_IsThinned RawStream_VRawStream].
    rewrite (IsThinned_thinning s Hne).
    destruct (thinning s) eqn:HT; cbn [Thinning_eqb]; rewrite Rewind_cases;
      cbn [fst snd it_thinning iter_with start stream_SeekTo RawStream_VRawStream];
      by rewrite SeekTo_thinning. }
  destruct Hst as [Hit Hs]. split; [done|]. split; [done|].
  cbn [stream_GetNextBlock RawStream_VRawStream]. unfold GetNextBlock.
  by rewrite Hit, <- Hs, Thinning_eqb_refl.
Qed.

(** X15.  The constructor on a seekable stream reads no block: it returns with
    the iterator valid and behind the last record of its (unread) block, and
    with the stream at the start position, the buffer declared invalid.  A
    start position 0 stands for the position of the stream at the time of the
    construction. *)
Theorem constructor_leaves_the_stream_at_the_start (fuel : nat) (T : Thinning)
    (block0 : Block) (s : RawStream) (start0 : Z) :
  seekable (file s) = true ->
  0 < kBlocksInDiskBlock (thinning s) ->
  0 <= start0 < 2 ^ 64 ->
  exists it s',
    @RawParticleIterator_new Block RawStream _ (RawStream_VRawStream fuel)
      T block0 s start0 = (Return tt, (it, s')) /\
    start it = (if start0 =? 0 then GetNextPosition s else start0) /\
    GetNextPosition s' = start it /\
    buffer_valid s' = false /\
    valid it = true /\ current_particle it = iter_kParticlesInBlock it /\
    it_thinning it = T /\ block it = block0.
Proof.
  intros Hsk HK Hp. unfold RawParticleIterator_new. rewrite Rewind_cases.
  cbn [fst snd start block iter_with stream_SeekTo stream_GetNextPosition
       RawStream_VRawStream].
  set (p := if start0 =? 0 then GetNextPosition s else start0).
  assert (Hp' : 0 <= p < 2 ^ 64).
  { unfold p. destruct (start0 =? 0); [|done].
    unfold GetNextPosition, wrap64. apply Z.mod_pos_bound. lia. }
  destruct (SeekTo_seekable_tell fuel p s Hsk HK Hp') as (Hret & Htell & Hbv).
  destruct (SeekTo fuel p s) as [o s1]. cbn [fst snd] in *. subst o.
  eexists _, s1. split; [reflexivity|].
  cbn [start valid current_particle it_thinning block iter_with]. by repeat split.
Qed.

End IteratorOverRawStream.

(** X13, witness: an iterator over the file of eight bytes, which holds no
    block. *)
Lemma iterator_throws_at_the_end_of_the_file_witness :
  let it := {| it_thinning := Thinned; start := 0; current_particle := 39;
               valid := true; block := ([] : Block) |} in
  let s := opened "eight_bytes" in
  let next := @GetOneParticle fexp Block (list Byte.byte) RawStream spec_traits
                byte_block_ops (@RawStream_VRawStream spec_traits example_env 0) in
  next (Nat.iter 2 (fun x => snd (next x)) (it, s))
  = (Throw ErrorReadingBlock, (it, snd (@GetNextBlock spec_traits Thinned s))).
Proof.
  intros it s next.
  apply (@iterator_throws_at_the_end_of_the_file fexp (list Byte.byte) spec_traits
           example_env byte_block_ops 0%nat it s
           (snd (@GetNextBlock spec_traits Thinned s)) 2%nat).
  - reflexivity.
  - reflexivity.
  - vm_compute. reflexivity.
Defined.

(** X14, witness: the iterator that [Create] makes over the thinned file of
    three disk blocks. *)
Lemma Create_makes_the_iterator_of_the_stream_witness :
  let s := opened "three_sectors" in
  let st := snd (@RawParticleIterator_Create Block RawStream spec_traits
                   (@RawStream_VRawStream spec_traits example_env 0) [] s 1) in
  it_thinning (fst st) = thinning s /\
  thinning (snd st) = thinning s /\
  @stream_GetNextBlock Block RawStream (@RawStream_VRawStream spec_traits example_env 0)
    (it_thinning (fst st)) (snd st)
  = @GetNextBlockImpl spec_traits (snd st).
Proof.
  intros s.
  apply (@Create_makes_the_iterator_of_the_stream spec_traits example_env 0%nat [] s 1).
  vm_compute. discriminate.
Defined.

(** X15, witness: an iterator constructed with the start position 0 on the
    stream behind its second block. *)
Lemma constructor_leaves_the_stream_at_the_start_witness :
  let s := after_blocks 2 (opened "three_sectors") in
  exists it s',
    @RawParticleIterator_new Block RawStream spec_traits
      (@RawStream_VRawStream spec_traits example_env 0) Thinned [] s 0
    = (Return tt, (it, s')) /\
    start it = (if 0 =? 0 then @GetNextPosition spec_traits s else 0) /\
    @GetNextPosition spec_traits s' = start it /\
    buffer_valid s' = false /\
    valid it = true /\ current_particle it = @iter_kParticlesInBlock Block spec_traits it /\
    it_thinning it = Thinned /\ block it = [].
Proof.
  intros s.
  apply (@constructor_leaves_the_stream_at_the_start spec_traits example_env 0%nat
           Thinned [] s 0).
  - reflexivity.
  - vm_compute. reflexivity.
  - lia.
Defined.

(** * Further properties of the shower facade *)

(** ** The outcomes of Read and FindEvent *)

Section ReadFrame.

Context {F B PD S GH LF : Type}.
Context `{FloatOps F} `{BlockOps F B PD} `{VRawStream B S} `{Collaborators F GH LF}.

Lemma stable_ret {X A} (g : CorsikaShowerFile F GH LF S -> X) (a : A) :
  stable g (ret a).
Proof. by intros sf. Qed.

Lemma stable_gets {X A} (g : CorsikaShowerFile F GH LF S -> X)
    (f : CorsikaShowerFile F GH LF S -> A) : stable g (gets f).
Proof. by intros sf. Qed.

Lemma stable_undefined {X A} (g : CorsikaShowerFile F GH LF S -> X) :
  stable g (@undefined _ A).
Proof. by intros sf. Qed.

Lemma stable_at_index {X A} (g : CorsikaShowerFile F GH LF S -> X) (v : list A) (i : Z) :
  stable g (at_index v i).
Proof.
  intros sf. unfold at_index. destruct (i <? 0); [done|].
  by destruct (v !! Z.to_nat i).
Qed.

Lemma stable_bind {X A A'} (g : CorsikaShowerFile F GH LF S -> X)
    (m : M (CorsikaShowerFile F GH LF S) A)
    (k : A -> M (CorsikaShowerFile F GH LF S) A') :
  stable g m -> (forall a, stable g (k a)) -> stable g (bind m k).
Proof.
  intros Hm Hk sf. unfold bind. specialize (Hm sf).
  destruct (m sf) as [[a| | |] sf1]; try exact Hm.
  cbn [snd] in Hm. by rewrite Hk.
Qed.

Lemma stable_modify {X} (g : CorsikaShowerFile F GH LF S -> X)
    (f : CorsikaShowerFile F GH LF S -> CorsikaShowerFile F GH LF S) :
  (forall sf, g (f sf) = g sf) -> stable g (modify f).
Proof. intros Hf sf. apply Hf. Qed.

Lemma stable_on_stream {X A} (g : CorsikaShowerFile F GH LF S -> X)
    (op : S -> outcome A * S) :
  (forall st sf, g (with_fRawStream st sf) = g sf) -> stable g (on_stream op).
Proof.
  intros Hg sf. unfold on_stream. destruct (fRawStream sf) as [st|]; [|done].
  destruct (op st) as [o st']. apply Hg.
Qed.

Lemma stable_more_long_blocks {X} (g : CorsikaShowerFile F GH LF S -> X)
    (T : Thinning) (n : nat) (i : Z) (aux : Profile F) :
  (forall st sf, g (with_fRawStream st sf) = g sf) ->
  stable g (more_long_blocks T n i aux).
Proof.
  intros Hg. revert i aux. induction n as [|n IH]; intros i aux; cbn [more_long_blocks].
  - apply stable_ret.
  - apply stable_bind; [by apply stable_on_stream|].
    intros [block|]; [|apply stable_ret].
    destruct (collect_entries _ _ _ _ _) as [i' aux']. apply IH.
Qed.

Lemma stable_ReadLongBlocks {X} (g : CorsikaShowerFile F GH LF S -> X) (T : Thinning) :
  (forall st sf, g (with_fRawStream st sf) = g sf) ->
  (forall p gh e sf,
     g (with_fCurrentShower (set_profile p gh e (fCurrentShower sf)) sf) = g sf) ->
  stable g (ReadLongBlocks T).
Proof.
  intros Hg Hp. unfold ReadLongBlocks.
  apply stable_bind; [apply stable_gets|]. intros index.
  apply stable_bind; [apply stable_gets|]. intros position.
  apply stable_bind; [apply stable_at_index|]. intros longPos.
  apply stable_bind; [by apply stable_on_stream|]. intros _.
  apply stable_bind; [by apply stable_on_stream|]. intros [block|]; [|apply stable_ret].
  destruct (negb (IsLongitudinal block)); [apply stable_ret|].
  destruct (collect_entries _ _ _ _ _) as [i aux].
  apply stable_bind; [by apply stable_more_long_blocks|].
  intros [[i' aux']|]; [|apply stable_ret].
  apply stable_bind; [|intros _; apply stable_ret].
  apply stable_modify. intros sf. apply Hp.
Qed.

Lemma stable_ReadLongFile {X} (g : CorsikaShowerFile F GH LF S -> X) :
  (forall lf sf, g (with_fCorsikaLongFile lf sf) = g sf) ->
  (forall p gh e sf,
     g (with_fCurrentShower (set_profile p gh e (fCurrentShower sf)) sf) = g sf) ->
  stable g ReadLongFile.
Proof.
  intros Hl Hp. unfold ReadLongFile.
  apply stable_bind.
  { apply stable_modify. intros sf. destruct (fCorsikaLongFile sf); [done|apply Hl]. }
  intros _.
  apply stable_bind; [apply stable_gets|]. intros olf.
  apply stable_bind; [apply stable_gets|]. intros position.
  destruct olf as [lf|]; [|apply stable_undefined].
  destruct (position <=? CorsikaLongFile_size lf).
  - destruct (CorsikaLongFile_GetProfile position lf) as [p lf'].
    apply stable_bind; [apply stable_modify; intros sf; apply Hl|]. intros _.
    apply stable_bind; [apply stable_modify; intros sf; apply Hp|]. intros _.
    apply stable_ret.
  - apply stable_bind; [apply stable_modify; intros sf; apply Hp|]. intros _.
    apply stable_ret.
Qed.

Lemma stable_read_profile {X} (g : CorsikaShowerFile F GH LF S -> X) (T : Thinning) :
  (forall st sf, g (with_fRawStream st sf) = g sf) ->
  (forall lf sf, g (with_fCorsikaLongFile lf sf) = g sf) ->
  (forall p gh e sf,
     g (with_fCurrentShower (set_profile p gh e (fCurrentShower sf)) sf) = g sf) ->
  stable g (read_profile T).
Proof.
  intros Hg Hl Hp. unfold read_profile.
  apply stable_bind; [apply stable_gets|]. intros index.
  apply stable_bind; [apply stable_gets|]. intros longFile.
  destruct (0 <? _).
  - apply stable_bind; [by apply stable_ReadLongBlocks|]. intros _. apply stable_ret.
  - destruct (negb _); [|apply stable_ret].
    apply stable_bind; [by apply stable_ReadLongFile|]. intros _. apply stable_ret.
Qed.

End ReadFrame.

Section ReadProperties.

Context {F B PD S GH LF : Type}.
Context `{FloatOps F} `{BlockOps F B PD} `{VRawStream B S} `{Collaborators F GH LF}.

Lemma counts_success_bind {A} (m : M (CorsikaShowerFile F GH LF S) A)
    (k : A -> M (CorsikaShowerFile F GH LF S) Status) :
  stable fCurrentPosition m -> (forall a, counts_success (k a)) ->
  counts_success (bind m k).
Proof.
  intros Hm Hk sf. unfold bind. specialize (Hm sf).
  destruct (m sf) as [[a| | |] sf1]; cbn [fst snd] in *; try done.
  by rewrite Hk, Hm.
Qed.

Lemma counts_success_ret (st : Status) :
  st <> eSuccess -> counts_success (ret st : M (CorsikaShowerFile F GH LF S) Status).
Proof. intros Hst sf. cbn. by destruct st. Qed.

(** [Read] leaves alone what the reader knows of the file. *)
Lemma stable_Read (T : Thinning) : stable file_knowledge (Read T).
Proof.
  intros sf. unfold Read. destruct (negb (IsOpen sf) || _); [done|].
  revert sf. refine (_ : stable file_knowledge _).
  apply stable_bind; [apply stable_gets|]. intros index.
  apply stable_bind; [apply stable_gets|]. intros position.
  apply stable_bind; [apply stable_at_index|]. intros headerPos.
  apply stable_bind; [by apply stable_on_stream|]. intros _.
  apply stable_bind; [by apply stable_on_stream|].
  intros [headerBlock|]; [|apply stable_ret].
  destruct (negb (IsEventHeader headerBlock)); [apply stable_ret|]. cbv zeta.
  apply stable_bind; [apply stable_at_index|]. intros trailerPos.
  apply stable_bind; [by apply stable_on_stream|]. intros _.
  apply stable_bind; [by apply stable_on_stream|].
  intros [trailerBlock|]; [|apply stable_ret].
  destruct (negb (IsEventTrailer trailerBlock)); [apply stable_ret|].
  apply stable_bind; [by apply stable_modify|]. intros _.
  apply stable_bind; [apply stable_at_index|]. intros heightObsLevel.
  apply stable_bind; [apply stable_gets|]. intros level.
  apply stable_bind; [apply stable_gets|]. intros thinned.
  apply stable_bind; [by apply stable_modify|]. intros _.
  apply stable_bind; [by apply stable_read_profile|]. intros _.
  apply stable_bind; [by apply stable_modify|]. intros _.
  apply stable_ret.
Qed.

Lemma counts_success_Read (T : Thinning) : counts_success (Read T).
Proof.
  intros sf. unfold Read. destruct (negb (IsOpen sf) || _); [done|].
  revert sf. refine (_ : counts_success _).
  apply counts_success_bind; [apply stable_gets|]. intros index.
  apply counts_success_bind; [apply stable_gets|]. intros position.
  apply counts_success_bind; [apply stable_at_index|]. intros headerPos.
  apply counts_success_bind; [by apply stable_on_stream|]. intros _.
  apply counts_success_bind; [by apply stable_on_stream|].
  intros [headerBlock|]; [|by apply counts_success_ret].
  destruct (negb (IsEventHeader headerBlock)); [by apply counts_success_ret|]. cbv zeta.
  apply counts_success_bind; [apply stable_at_index|]. intros trailerPos.
  apply counts_success_bind; [by apply stable_on_stream|]. intros _.
  apply counts_success_bind; [by apply stable_on_stream|].
  intros [trailerBlock|]; [|by apply counts_success_ret].
  destruct (negb (IsEventTrailer trailerBlock)); [by apply counts_success_ret|].
  apply counts_success_bind; [by apply stable_modify|]. intros _.
  apply counts_success_bind; [apply stable_at_index|]. intros heightObsLevel.
  apply counts_success_bind; [apply stable_gets|]. intros level.
  apply counts_success_bind; [apply stable_gets|]. intros thinned.
  apply counts_success_bind; [by apply stable_modify|]. intros _.
  apply counts_success_bind; [by apply stable_read_profile|]. intros _.
  intros sf. reflexivity.
Qed.

(** X16.  [Read] leaves alone what the reader knows of the file (the index,
    the thinning flag, the scanned flag and the name of the side file), and it
    moves the current position on by one exactly when it returns [eSuccess]:
    with every other status, and when an exception leaves it, the position is
    the one before the call. *)
Theorem Read_moves_on_only_with_success (T : Thinning)
    (sf : CorsikaShowerFile F GH LF S) :
  file_knowledge (snd (Read T sf)) = file_knowledge sf /\
  fCurrentPosition (snd (Read T sf))
  = match fst (Read T sf) with
    | Return eSuccess => fCurrentPosition sf + 1
    | _ => fCurrentPosition sf
    end.
Proof.
  split.
  - apply (stable_Read T).
  - apply (counts_success_Read T).
Qed.

End ReadProperties.

Section ReadOutcomes.

Context {F B PD S GH LF : Type}.
Context `{FloatOps F} `{BlockOps F B PD} `{VRawStream B S} `{Collaborators F GH LF}.

Lemma with_fRawStream_twice (st st' : option S) (sf : CorsikaShowerFile F GH LF S) :
  with_fRawStream st' (with_fRawStream st sf) = with_fRawStream st' sf.
Proof. reflexivity. Qed.

(** The end of [Read] behind the trailer test returns nothing but
    [eSuccess]. *)
Lemma Read_tail_status (T : Thinning) (header : EventHeader F) (trailer : EventTrailer F)
    (headerPos : Z) (sf sf' : CorsikaShowerFile F GH LF S) (st : Status) :
  (let* _ := modify (fun sf =>
                with_fObservationLevel
                  (checked_observation_level header (fObservationLevel sf)) sf) in
   let* heightObsLevel := heightObsLevel_of header in
   let timeShift := time_shift header heightObsLevel in
   let* level := gets fObservationLevel in
   let* thinned := gets fIsThinned in
   let particleIterator :=
     {| pi_header := header; pi_start := headerPos + 1;
        pi_timeShift := timeShift; pi_observationLevel := level;
        pi_isThinned := thinned; pi_keepMuProd := true |} in
   let* _ := modify (with_fCurrentShower
                       (CorsikaShower_new header trailer particleIterator)) in
   let* _ := read_profile T in
   let* _ := modify (fun sf =>
               with_fCurrentPosition (fCurrentPosition sf + 1) sf) in
   ret eSuccess) sf = (Return st, sf') ->
  st = eSuccess /\
  exists timeShift,
    shower_identity sf'
    = (Some header, Some trailer,
       Some {| pi_header := header; pi_start := headerPos + 1;
               pi_timeShift := timeShift;
               pi_observationLevel :=
                 checked_observation_level header (fObservationLevel sf);
               pi_isThinned := fIsThinned sf; pi_keepMuProd := true |}).
Proof.
  intros HR.
  apply bind_Return in HR as (uj & sj & Hj & HR). apply modify_Return in Hj as ->.
  apply bind_Return in HR as (h & sk & Hk & HR).
  apply at_index_Return in Hk as (Hnonneg & Hh & ->).
  apply bind_Return in HR as (level & sl & Hl & HR). apply gets_Return in Hl as [-> ->].
  apply bind_Return in HR as (thinned & sm & Hm & HR). apply gets_Return in Hm as [-> ->].
  apply bind_Return in HR as (un & sn & Hn & HR). apply modify_Return in Hn as ->.
  apply bind_Return in HR as (uo & so & Ho & HR).
  pose proof (stable_read_profile shower_identity T) as Hfr.
  specialize (Hfr ltac:(done) ltac:(done) ltac:(done)). unfold stable in Hfr.
  match type of Ho with read_profile T ?x = _ => specialize (Hfr x) end.
  rewrite Ho in Hfr. cbn [snd] in Hfr.
  apply bind_Return in HR as (up & sp & Hp & HR). apply modify_Return in Hp as ->.
  apply ret_Return in HR as [-> ->]. split; [done|].
  eexists. etransitivity; [exact Hfr|]. reflexivity.
Qed.

(** X17.  When [Read] returns [eEOF] it has changed nothing, and the reader is
    closed or stands behind the last event of the index.  When it returns
    [eFail] the reader is open and is as before but for its stream: the
    current shower, the observation level, the position and the side-file
    reader are those of before the call. *)
Theorem Read_without_success_moves_only_the_stream (T : Thinning)
    (sf sf' : CorsikaShowerFile F GH LF S) (st : Status) :
  Read T sf = (Return st, sf') -> st <> eSuccess ->
  (st = eEOF /\ sf' = sf /\
   (IsOpen sf = false \/
    Z.of_nat (length (eventHeaders (fIndex sf))) <= fCurrentPosition sf)) \/
  (st = eFail /\ IsOpen sf = true /\
   fCurrentPosition sf < Z.of_nat (length (eventHeaders (fIndex sf))) /\
   exists stream', sf' = with_fRawStream (Some stream') sf).
Proof.
  unfold Read. destruct (IsOpen sf) eqn:Hopen; cbn [negb orb].
  2:{ intros [= <- <-] _. left. split; [done|]. split; [done|]. by left. }
  destruct (_ <=? _) eqn:Hpos.
  { intros [= <- <-] _. left. apply Z.leb_le in Hpos.
    split; [done|]. split; [done|]. by right. }
  apply Z.leb_gt in Hpos. intros HR Hst. right.
  apply bind_Return in HR as (index & sa & Ha & HR). apply gets_Return in Ha as [-> ->].
  apply bind_Return in HR as (position & sb & Hb & HR). apply gets_Return in Hb as [-> ->].
  apply bind_Return in HR as (headerPos & sc & Hc & HR).
  apply at_index_Return in Hc as (_ & _ & ->).
  apply bind_Return in HR as (ud & sd & Hd & HR).
  apply on_stream_Return in Hd as (s1 & s1' & Hs1 & _ & ->).
  apply bind_Return in HR as (ob & se & He & HR).
  apply on_stream_Return in He as (s2 & s2' & Hs2 & _ & ->).
  rewrite with_fRawStream_twice in HR.
  assert (Hfail : forall x, ret eFail (with_fRawStream (Some x) sf) = (Return st, sf') ->
            st = eFail /\ true = true /\
            fCurrentPosition sf < Z.of_nat (length (eventHeaders (fIndex sf))) /\
            exists stream', sf' = with_fRawStream (Some stream') sf).
  { intros x Hx. apply ret_Return in Hx as [-> ->]. repeat split; [done|]. by exists x. }
  destruct ob as [headerBlock|]; [|by apply (Hfail s2')].
  destruct (negb (IsEventHeader headerBlock)); [by apply (Hfail s2')|].
  cbv zeta in HR.
  apply bind_Return in HR as (trailerPos & sg & Hg & HR).
  apply at_index_Return in Hg as (_ & _ & ->).
  apply bind_Return in HR as (uh & sh & Hh' & HR).
  apply on_stream_Return in Hh' as (s3 & s3' & Hs3 & _ & ->).
  apply bind_Return in HR as (ob' & si & Hi & HR).
  apply on_stream_Return in Hi as (s4 & s4' & Hs4 & _ & ->).
  rewrite !with_fRawStream_twice in HR.
  destruct ob' as [trailerBlock|]; [|by apply (Hfail s4')].
  destruct (negb (IsEventTrailer trailerBlock)); [by apply (Hfail s4')|].
  apply Read_tail_status in HR as [-> _]. done.
Qed.

(** X18.  When [Read] returns [eSuccess], the current shower holds the event
    of the current position: its header is the block that the stream delivers
    at [eventHeaders[fCurrentPosition]], which is an event header, its trailer
    the block at [eventTrailers[fCurrentPosition]], which is an event trailer,
    and its particle iterator starts at the block behind the header, with the
    thinning flag of the reader and [keepMuProd] set. *)
Theorem Read_success_holds_the_event (T : Thinning)
    (sf sf' : CorsikaShowerFile F GH LF S) :
  Read T sf = (Return eSuccess, sf') ->
  exists headerPos trailerPos headerBlock trailerBlock sfa sfb sfc sfd it,
    0 <= fCurrentPosition sf /\
    eventHeaders (fIndex sf) !! Z.to_nat (fCurrentPosition sf) = Some headerPos /\
    eventTrailers (fIndex sf) !! Z.to_nat (fCurrentPosition sf) = Some trailerPos /\
    on_stream (stream_SeekTo headerPos) sf = (Return tt, sfa) /\
    on_stream (stream_GetNextBlock T) sfa = (Return (Some headerBlock), sfb) /\
    IsEventHeader headerBlock = true /\
    on_stream (stream_SeekTo trailerPos) sfb = (Return tt, sfc) /\
    on_stream (stream_GetNextBlock T) sfc = (Return (Some trailerBlock), sfd) /\
    IsEventTrailer trailerBlock = true /\
    shower_header (fCurrentShower sf') = Some (AsEventHeader headerBlock) /\
    shower_trailer (fCurrentShower sf') = Some (AsEventTrailer trailerBlock) /\
    shower_particles (fCurrentShower sf') = Some it /\
    pi_header it = AsEventHeader headerBlock /\
    pi_start it = headerPos + 1 /\
    pi_isThinned it = fIsThinned sf /\
    pi_keepMuProd it = true.
Proof.
  unfold Read. destruct (negb (IsOpen sf) || _); [discriminate|].
  intros HR.
  apply bind_Return in HR as (index & sa & Ha & HR). apply gets_Return in Ha as [-> ->].
  apply bind_Return in HR as (position & sb & Hb & HR). apply gets_Return in Hb as [-> ->].
  apply bind_Return in HR as (headerPos & sc & Hc & HR).
  apply at_index_Return in Hc as (Hnn & Hhp & ->).
  apply bind_Return in HR as ([] & sfa & Hd & HR).
  apply bind_Return in HR as (ob & sfb & He & HR).
  destruct ob as [headerBlock|]; [|discriminate].
  destruct (IsEventHeader headerBlock) eqn:Hhb; [|discriminate].
  cbn [negb] in HR. cbv zeta in HR.
  apply bind_Return in HR as (trailerPos & sg & Hg & HR).
  apply at_index_Return in Hg as (_ & Htp & ->).
  apply bind_Return in HR as ([] & sfc & Hh' & HR).
  apply bind_Return in HR as (ob' & sfd & Hi & HR).
  destruct ob' as [trailerBlock|]; [|discriminate].
  destruct (IsEventTrailer trailerBlock) eqn:Htb; [|discriminate].
  cbn [negb] in HR.
  apply Read_tail_status in HR as [_ [ts Hid]].
  unfold shower_identity in Hid. injection Hid as Hhdr Htr Hpart.
  exists headerPos, trailerPos, headerBlock, trailerBlock, sfa, sfb, sfc, sfd.
  eexists. split; [done|]. do 8 (split; [done|]).
  split; [done|]. split; [done|]. split; [exact Hpart|].
  cbn [pi_header pi_start pi_isThinned pi_keepMuProd].
  assert (Hth : fIsThinned sfd = fIsThinned sf).
  { apply on_stream_Return in Hd as (? & ? & _ & _ & ->).
    apply on_stream_Return in He as (? & ? & _ & _ & ->).
    apply on_stream_Return in Hh' as (? & ? & _ & _ & ->).
    by apply on_stream_Return in Hi as (? & ? & _ & _ & ->). }
  by rewrite Hth.
Qed.

(** X19.  [FindEvent] of an id that the map holds.  A slot behind the last
    event header gives [eFail] and changes nothing.  Otherwise [FindEvent] is
    [Read] at the slot of the id, for the thinning mode of the reader; behind
    [eSuccess] the current position is the slot after that of the id, and
    behind every other status it is the slot of the id: a failing [Read]
    leaves the position that [FindEvent] has set. *)
Theorem FindEvent_of_a_known_id (eventId slot : Z) (sf : CorsikaShowerFile F GH LF S) :
  IsOpen sf = true ->
  IDToPosition (fIndex sf) !! eventId = Some slot ->
  (Z.of_nat (length (eventHeaders (fIndex sf))) <= slot ->
   FindEvent eventId sf = (Return eFail, sf)) /\
  (slot < Z.of_nat (length (eventHeaders (fIndex sf))) ->
   FindEvent eventId sf
   = Read (if fIsThinned sf then Thinned else NotThinned) (with_fCurrentPosition slot sf) /\
   fCurrentPosition (snd (FindEvent eventId sf))
   = match fst (FindEvent eventId sf) with
     | Return eSuccess => slot + 1
     | _ => slot
     end).
Proof.
  intros Hopen Hid. unfold FindEvent. rewrite Hopen, Hid. cbn [negb]. split.
  - intros Hle. by replace (_ <=? slot) with true by (symmetry; by apply Z.leb_le).
  - intros Hlt. replace (_ <=? slot) with false by (symmetry; by apply Z.leb_gt).
    cbn [fIsThinned with_fCurrentPosition].
    destruct (fIsThinned sf).
    + split; [done|].
      apply (counts_success_Read Thinned (with_fCurrentPosition slot sf)).
    + split; [done|].
      apply (counts_success_Read NotThinned (with_fCurrentPosition slot sf)).
Qed.

(** X20.  [Read] takes the position of the trailer from [eventTrailers] at the
    slot of the header without a look at the size of that vector: with an
    index that holds a header position for the current slot and no trailer
    position (a file that ends inside its last event), [Read] reads the header
    block and then indexes [eventTrailers] outside its bounds. *)
Theorem Read_without_a_trailer_position (T : Thinning)
    (sf sfa sfb : CorsikaShowerFile F GH LF S) (headerPos : Z) (headerBlock : B) :
  IsOpen sf = true ->
  0 <= fCurrentPosition sf ->
  eventHeaders (fIndex sf) !! Z.to_nat (fCurrentPosition sf) = Some headerPos ->
  (length (eventTrailers (fIndex sf)) <= Z.to_nat (fCurrentPosition sf))%nat ->
  on_stream (stream_SeekTo headerPos) sf = (Return tt, sfa) ->
  on_stream (stream_GetNextBlock T) sfa = (Return (Some headerBlock), sfb) ->
  IsEventHeader headerBlock = true ->
  Read T sf = (Undefined, sfb).
Proof.
  intros Hopen Hnn Hhp Htr Hseek Hnext Hhb. unfold Read. rewrite Hopen. cbn [negb orb].
  apply lookup_lt_Some in Hhp as Hlt.
  replace (_ <=? _) with false by (symmetry; apply Z.leb_gt; lia).
  unfold bind, gets, at_index.
  replace (fCurrentPosition sf <? 0) with false by (symmetry; apply Z.ltb_ge; lia).
  rewrite Hhp. cbn [ret]. rewrite Hseek, Hnext, Hhb. cbn [negb].
  rewrite lookup_ge_None_2 by lia. reflexivity.
Qed.

End ReadOutcomes.

(** X17, witness: [Read] behind the last event of the two-event file. *)
Lemma Read_without_success_moves_only_the_stream_witness :
  let sf := two_event_reader 2 1 in
  (eEOF = eEOF /\ sf = sf /\
   (@IsOpen fexp MemStream unit unit sf = false \/
    Z.of_nat (length (eventHeaders (fIndex sf))) <= fCurrentPosition sf)) \/
  (eEOF = eFail /\ @IsOpen fexp MemStream unit unit sf = true /\
   fCurrentPosition sf < Z.of_nat (length (eventHeaders (fIndex sf))) /\
   exists stream', sf = with_fRawStream (Some stream') sf).
Proof.
  intros sf.
  apply (@Read_without_success_moves_only_the_stream fexp DBlock ParticleData MemStream
           unit unit fexp_FloatOps DBlock_ops MemStream_VRawStream example_collaborators
           Thinned sf sf eEOF).
  - reflexivity.
  - discriminate.
Defined.

(** [Read] of an event whose header position holds a particle block returns
    [eFail]; the reader is as before but for the stream. *)
Lemma Read_fails_on_a_wrong_header_position :
  let index := {| eventHeaders := [2]; eventTrailers := [4]; longBlocks := [];
                  IDToPosition := ∅ |} in
  let sf := reader_with_index index 0 in
  @Read fexp DBlock ParticleData MemStream unit unit fexp_FloatOps DBlock_ops
    MemStream_VRawStream example_collaborators Thinned sf
  = (Return eFail,
     with_fRawStream (Some {| mem_blocks := two_event_blocks; mem_next := 3 |}) sf).
Proof. vm_compute. reflexivity. Qed.

(** X18, witness: [Read] of the first event of the two-event file. *)
Lemma Read_success_holds_the_event_witness :
  let sf := two_event_reader 0 1 in
  let sf' := snd (@Read fexp DBlock ParticleData MemStream unit unit fexp_FloatOps
                    DBlock_ops MemStream_VRawStream example_collaborators Thinned sf) in
  exists headerPos trailerPos headerBlock trailerBlock sfa sfb sfc sfd it,
    0 <= fCurrentPosition sf /\
    eventHeaders (fIndex sf) !! Z.to_nat (fCurrentPosition sf) = Some headerPos /\
    eventTrailers (fIndex sf) !! Z.to_nat (fCurrentPosition sf) = Some trailerPos /\
    @on_stream fexp MemStream unit unit unit
      (@stream_SeekTo DBlock MemStream MemStream_VRawStream headerPos) sf
    = (Return tt, sfa) /\
    @on_stream fexp MemStream unit unit (option DBlock)
      (@stream_GetNextBlock DBlock MemStream MemStream_VRawStream Thinned) sfa
    = (Return (Some headerBlock), sfb) /\
    @IsEventHeader fexp DBlock ParticleData DBlock_ops headerBlock = true /\
    @on_stream fexp MemStream unit unit unit
      (@stream_SeekTo DBlock MemStream MemStream_VRawStream trailerPos) sfb
    = (Return tt, sfc) /\
    @on_stream fexp MemStream unit unit (option DBlock)
      (@stream_GetNextBlock DBlock MemStream MemStream_VRawStream Thinned) sfc
    = (Return (Some trailerBlock), sfd) /\
    @IsEventTrailer fexp DBlock ParticleData DBlock_ops trailerBlock = true /\
    shower_header (fCurrentShower sf')
    = Some (@AsEventHeader fexp DBlock ParticleData DBlock_ops headerBlock) /\
    shower_trailer (fCurrentShower sf')
    = Some (@AsEventTrailer fexp DBlock ParticleData DBlock_ops trailerBlock) /\
    shower_particles (fCurrentShower sf') = Some it /\
    pi_header it = @AsEventHeader fexp DBlock ParticleData DBlock_ops headerBlock /\
    pi_start it = headerPos + 1 /\
    pi_isThinned it = fIsThinned sf /\
    pi_keepMuProd it = true.
Proof.
  intros sf sf'.
  apply (@Read_success_holds_the_event fexp DBlock ParticleData MemStream unit unit
           fexp_FloatOps DBlock_ops MemStream_VRawStream example_collaborators
           Thinned sf sf').
  vm_compute. reflexivity.
Defined.

(** X19, witness: the id 2 of the two-event file, at slot 1. *)
Lemma FindEvent_of_a_known_id_witness :
  let sf := two_event_reader 0 1 in
  let find := @FindEvent fexp DBlock ParticleData MemStream unit unit fexp_FloatOps
                DBlock_ops MemStream_VRawStream example_collaborators 2 sf in
  (Z.of_nat (length (eventHeaders (fIndex sf))) <= 1 -> find = (Return eFail, sf)) /\
  (1 < Z.of_nat (length (eventHeaders (fIndex sf))) ->
   find
   = @Read fexp DBlock ParticleData MemStream unit unit fexp_FloatOps DBlock_ops
       MemStream_VRawStream example_collaborators
       (if fIsThinned sf then Thinned else NotThinned) (with_fCurrentPosition 1 sf) /\
   fCurrentPosition (snd find)
   = match fst find with
     | Return eSuccess => 1 + 1
     | _ => 1
     end).
Proof.
  intros sf find.
  apply (@FindEvent_of_a_known_id fexp DBlock ParticleData MemStream unit unit
           fexp_FloatOps DBlock_ops MemStream_VRawStream example_collaborators 2 1 sf).
  - reflexivity.
  - vm_compute. reflexivity.
Defined.

(** An id whose slot lies behind the last event header: [eFail], and the
    position is not moved; and the id 1, whose event cannot be read because
    its longitudinal position is outside the vector, leaves the position at
    its slot. *)
Lemma FindEvent_of_a_stale_slot :
  let sf := reader_with_index misleading_index 1 in
  @FindEvent fexp DBlock ParticleData MemStream unit unit fexp_FloatOps
    DBlock_ops MemStream_VRawStream example_collaborators 3 sf
  = (Return eFail, sf).
Proof. vm_compute. reflexivity. Qed.

(** X20, witness: an index of the two-event file without the trailer position
    of the second event. *)
Lemma Read_without_a_trailer_position_witness :
  let index := {| eventHeaders := [1; 5]; eventTrailers := [4]; longBlocks := [];
                  IDToPosition := <[1 := 0]> (<[2 := 1]> ∅) |} in
  let sf := reader_with_index index 1 in
  @Read fexp DBlock ParticleData MemStream unit unit fexp_FloatOps DBlock_ops
    MemStream_VRawStream example_collaborators Thinned sf
  = (Undefined,
     with_fRawStream (Some {| mem_blocks := two_event_blocks; mem_next := 6 |}) sf).
Proof.
  intros index sf.
  apply (@Read_without_a_trailer_position fexp DBlock ParticleData MemStream unit unit
           fexp_FloatOps DBlock_ops MemStream_VRawStream example_collaborators Thinned sf
           (with_fRawStream (Some {| mem_blocks := two_event_blocks; mem_next := 5 |}) sf)
           (with_fRawStream (Some {| mem_blocks := two_event_blocks; mem_next := 6 |}) sf)
           5 (EventHeaderBlock header_two_levels)).
  - reflexivity.
  - vm_compute. discriminate.
  - reflexivity.
  - vm_compute. lia.
  - reflexivity.
  - reflexivity.
  - reflexivity.
Defined.

(** ** The readers of the profile *)

Section ProfileReaders.

Context {F B PD S GH LF : Type}.
Context `{FloatOps F} `{BlockOps F B PD} `{VRawStream B S} `{Collaborators F GH LF}.

Lemma more_long_blocks_stream (T : Thinning) (n : nat) (i : Z) (aux : Profile F)
    (sf sf' : CorsikaShowerFile F GH LF S) (r : option (Z * Profile F)) (stream : S) :
  fRawStream sf = Some stream ->
  more_long_blocks T n i aux sf = (Return r, sf') ->
  exists stream', sf' = with_fRawStream (Some stream') sf.
Proof.
  revert i aux sf stream. induction n as [|n IH]; intros i aux sf stream Hst;
    cbn [more_long_blocks].
  - intros Hx. apply ret_Return in Hx as [_ ->]. exists stream.
    destruct sf. cbn in Hst. by subst.
  - intros Hx. apply bind_Return in Hx as (ob & sf1 & Hn & Hx).
    apply on_stream_Return in Hn as (s1 & s1' & _ & _ & ->).
    destruct ob as [block|].
    + destruct (collect_entries _ _ _ _ _) as [i' aux'].
      apply (IH i' aux' (with_fRawStream (Some s1') sf) s1' eq_refl) in Hx
        as (stream' & ->).
      by exists stream'.
    + apply ret_Return in Hx as [_ ->]. by exists s1'.
Qed.

(** X21.  When [ReadLongBlocks] returns [eFail] (the first block cannot be
    read or is not a longitudinal block, or a block of the chain cannot be
    read), the reader is as before but for its stream: the vectors of the
    current shower are not touched.  [Read] does not look at the status: its
    choice of the profile reader returns normally, so that [Read] goes on to
    return [eSuccess]. *)
Theorem ReadLongBlocks_failure_is_not_reported (T : Thinning)
    (sf sf' : CorsikaShowerFile F GH LF S) :
  ReadLongBlocks T sf = (Return eFail, sf') ->
  (exists stream', sf' = with_fRawStream (Some stream') sf) /\
  read_profile T sf = (Return tt, sf').
Proof.
  intros HR.
  assert (Hne : (0 <? Z.of_nat (length (longBlocks (fIndex sf)))) = true).
  { unfold ReadLongBlocks in HR.
    apply bind_Return in HR as (index & sa & Ha & HR). apply gets_Return in Ha as [-> ->].
    apply bind_Return in HR as (position & sb & Hb & HR). apply gets_Return in Hb as [-> ->].
    apply bind_Return in HR as (longPos & sc & Hc & _).
    apply at_index_Return in Hc as (_ & Hl & _).
    apply Z.ltb_lt. destruct (longBlocks (fIndex sf)); [done|]. cbn. lia. }
  split.
  - unfold ReadLongBlocks in HR.
    apply bind_Return in HR as (index & sa & Ha & HR). apply gets_Return in Ha as [-> ->].
    apply bind_Return in HR as (position & sb & Hb & HR). apply gets_Return in Hb as [-> ->].
    apply bind_Return in HR as (longPos & sc & Hc & HR).
    apply at_index_Return in Hc as (_ & _ & ->).
    apply bind_Return in HR as (ud & sd & Hd & HR).
    apply on_stream_Return in Hd as (s1 & s1' & Hs1 & _ & ->).
    apply bind_Return in HR as (ob & se & He & HR).
    apply on_stream_Return in He as (s2 & s2' & Hs2 & _ & ->).
    destruct ob as [block|].
    2:{ apply ret_Return in HR as [_ ->]. by exists s2'. }
    destruct (negb (IsLongitudinal block)).
    { apply ret_Return in HR as [_ ->]. by exists s2'. }
    destruct (collect_entries _ _ _ _ _) as [i aux].
    apply bind_Return in HR as (r & sg & Hg & HR).
    eapply more_long_blocks_stream in Hg as (stream' & ->); [|reflexivity].
    destruct r as [[i' aux']|].
    + apply bind_Return in HR as (u & sh & _ & HR).
      apply ret_Return in HR as [[=] _].
    + apply ret_Return in HR as [_ ->]. by exists stream'.
  - unfold read_profile, bind, gets. rewrite Hne. unfold bind in HR |- *.
    by rewrite HR.
Qed.

End ProfileReaders.

(** X21, witness: the index points at the particle block of the first event.
    *)
Lemma ReadLongBlocks_failure_is_not_reported_witness :
  let sf := reader_with_index misleading_index 0 in
  let sf' := snd (@ReadLongBlocks fexp DBlock ParticleData MemStream unit unit
                    fexp_FloatOps DBlock_ops MemStream_VRawStream Thinned sf) in
  (exists stream', sf' = with_fRawStream (Some stream') sf) /\
  @read_profile fexp DBlock ParticleData MemStream unit unit fexp_FloatOps DBlock_ops
    MemStream_VRawStream example_collaborators Thinned sf = (Return tt, sf').
Proof.
  intros sf sf'.
  apply (@ReadLongBlocks_failure_is_not_reported fexp DBlock ParticleData MemStream
           unit unit fexp_FloatOps DBlock_ops MemStream_VRawStream example_collaborators
           Thinned sf sf').
  vm_compute. reflexivity.
Defined.

(** With that index [Read] of the first event returns [eSuccess], and the
    profile of the shower is empty. *)
Lemma Read_succeeds_without_the_profile :
  let r := @Read fexp DBlock ParticleData MemStream unit unit fexp_FloatOps DBlock_ops
             MemStream_VRawStream example_collaborators Thinned
             (reader_with_index misleading_index 0) in
  fst r = Return eSuccess /\
  shower_profile (fCurrentShower (snd r)) = empty_profile.
Proof. vm_compute. by split. Qed.

(** ** Opening, closing and counting *)

Section LifecycleProperties.

Context {F B PD S GH LF : Type}.
Context `{FloatOps F} `{BlockOps F B PD} `{VRawStream B S} `{Collaborators F GH LF}.
Context `{FacadeEnv F GH S}.

(** X23.  A reader behind [Close] is closed: [Read] and [FindEvent] answer
    [eEOF], [GetNEvents] throws "Cannot request number of events from closed
    file", a second [Close] changes nothing, and none of them changes the
    reader.  [IsValid()] on a closed reader calls through the null stream
    pointer.  [Close] resets neither the current position nor the observation
    level, the scanned flag, the name and the reader of the side file or the
    current shower.  A reader that was never opened (made by the default
    constructor, or by the other one with [requireParticleFile] not set) is in
    the state in which [Close] leaves it. *)
Theorem closed_reader_answers (T : Thinning) (eventId : Z) (theFileName : string)
    (sf : CorsikaShowerFile F GH LF S) :
  let c := Close sf in
  IsOpen c = false /\
  Close c = c /\
  Read T c = (Return eEOF, c) /\
  FindEvent eventId c = (Return eEOF, c) /\
  GetNEvents c = (Raised EventsOfClosedFile, c) /\
  CorsikaShowerFile_IsValid c = (Undefined, c) /\
  session c = session sf /\
  fFileScanned c = fFileScanned sf /\ fLongFile c = fLongFile sf /\
  Close (CorsikaShowerFile_new : CorsikaShowerFile F GH LF S) = CorsikaShowerFile_new /\
  CorsikaShowerFile_new_named theFileName false
  = (Done (Return tt), (CorsikaShowerFile_new : CorsikaShowerFile F GH LF S)).
Proof. cbv zeta. by repeat split. Qed.

Lemma scan_into_session (stream : S) (sf : CorsikaShowerFile F GH LF S) :
  session (snd (scan_into stream sf)) = session sf.
Proof.
  unfold scan_into. by destruct (stream_Scan false stream) as [[index| | |] stream'].
Qed.

Lemma Open_session (theFileName : string) (scan : bool)
    (sf : CorsikaShowerFile F GH LF S) :
  session (snd (Open theFileName scan sf)) = session sf.
Proof.
  unfold Open. cbv zeta.
  destruct (RawStreamFactory_Create theFileName) as [stream| | |]; try done.
  destruct (scan && stream_IsSeekable stream).
  - match goal with |- context [scan_into ?s ?x] =>
      pose proof (scan_into_session s x) as Hs; destruct (scan_into s x) as [o sf4] end.
    exact Hs.
  - by destruct (negb (stream_IsSeekable stream)).
Qed.


(** X25.  The ways in which [Open] ends.  When it returns, the reader holds a
    stream that reports itself seekable, and its thinning flag is that of the
    stream; with [scan] the index is the one that [Scan] returned and the
    scanned flag is set, without [scan] the index is empty and the scanned
    flag is the one of before.  When [RawStreamFactory::Create] throws, the
    reader is left closed.  When the stream does not report itself seekable,
    [Open] throws "does not support random access" and leaves the reader open,
    with the stream and an empty index. *)
Theorem Open_outcomes (theFileName : string) (scan : bool)
    (sf : CorsikaShowerFile F GH LF S) :
  match Open theFileName scan sf with
  | (Done (Return _), sf') =>
      exists stream stream',
        RawStreamFactory_Create theFileName = Return stream /\
        stream_IsSeekable stream = true /\
        fRawStream sf' = Some stream' /\
        fIsThinned sf' = stream_IsThinned stream /\
        if scan
        then stream_Scan false stream = (Return (fIndex sf'), stream') /\
             fFileScanned sf' = true
        else stream' = stream /\ fIndex sf' = empty_index /\
             fFileScanned sf' = fFileScanned sf
  | (Raised e, sf') =>
      exists stream,
        RawStreamFactory_Create theFileName = Return stream /\
        stream_IsSeekable stream = false /\
        e = NoRandomAccess theFileName /\
        fRawStream sf' = Some stream /\ fIndex sf' = empty_index
  | (Done o, sf') =>
      fIndex sf' = empty_index /\
      ((RawStreamFactory_Create theFileName = not_returned o /\ IsOpen sf' = false) \/
       (exists stream stream',
          RawStreamFactory_Create theFileName = Return stream /\
          scan = true /\ stream_IsSeekable stream = true /\
          fst (stream_Scan false stream) = not_returned o /\
          snd (stream_Scan false stream) = stream' /\
          fRawStream sf' = Some stream'))
  end.
Proof.
  unfold Open. cbv zeta.
  destruct (RawStreamFactory_Create theFileName) as [stream|e| |] eqn:Hc;
    try (split; [done|left; by split]).
  destruct (stream_IsSeekable stream) eqn:Hsk.
  - destruct scan; cbn [andb negb].
    + unfold scan_into.
      destruct (stream_Scan false stream) as [[index|e| |] stream'] eqn:Hscan;
        cbn [not_returned].
      * by exists stream, stream'.
      * split; [done|]. right. exists stream, stream'.
        repeat split; rewrite ?Hscan; done.
      * split; [done|]. right. exists stream, stream'.
        repeat split; rewrite ?Hscan; done.
      * split; [done|]. right. exists stream, stream'.
        repeat split; rewrite ?Hscan; done.
    + by exists stream, stream.
  - rewrite andb_false_r. cbn [negb]. by exists stream.
Qed.

(** X26.  [GetNEvents] scans the file once.  When it returns, the scanned flag
    is set and the number is the size of the id map of the index.  With the
    flag set before the call it scans nothing and changes nothing, whatever
    the index holds.  A reader that was opened without a scan after it had
    scanned another file therefore reports 0 events, and finds no event:
    [Close] clears the index and leaves the flag set. *)
Theorem GetNEvents_scans_once (sf : CorsikaShowerFile F GH LF S) :
  (forall n sf',
     GetNEvents sf = (Done (Return n), sf') ->
     fFileScanned sf' = true /\
     n = Z.of_nat (size (IDToPosition (fIndex sf'))) /\
     (fFileScanned sf = true -> sf' = sf)) /\
  (forall theFileName sf' (eventId : Z) (T : Thinning),
     fFileScanned sf = true ->
     Open theFileName false sf = (Done (Return tt), sf') ->
     GetNEvents sf' = (Done (Return 0), sf') /\
     FindEvent eventId sf' = (Return eFail, sf') /\
     (0 <= fCurrentPosition sf -> Read T sf' = (Return eEOF, sf'))).
Proof.
  split.
  - intros n sf'. unfold GetNEvents.
    destruct (fRawStream sf) as [stream|]; [|discriminate].
    destruct (negb (stream_IsSeekable stream)); [discriminate|].
    destruct (fFileScanned sf) eqn:Hsc; cbn [negb].
    + intros [= <- <-]. by rewrite Hsc.
    + unfold scan_into.
      destruct (stream_Scan false stream) as [[index| | |] stream']; try discriminate.
      intros [= <- <-]. by repeat split.
  - intros theFileName sf' eventId T Hsc Hopen.
    assert (Ho : exists stream, stream_IsSeekable stream = true /\
                   fRawStream sf' = Some stream /\ fIndex sf' = empty_index /\
                   fFileScanned sf' = fFileScanned sf).
    { revert Hopen. unfold Open. cbv zeta.
      destruct (RawStreamFactory_Create theFileName) as [stream| | |]; try discriminate.
      cbn [andb]. destruct (stream_IsSeekable stream) eqn:Hsk; [|discriminate].
      intros [= <-]. by exists stream. }
    destruct Ho as (stream & Hsk & Hst & Hidx & Hfs).
    pose proof (Open_session theFileName false sf) as Hs. rewrite Hopen in Hs.
    cbn [snd] in Hs. unfold session in Hs. injection Hs as Hpos _ _ _.
    split; [|split].
    + unfold GetNEvents. by rewrite Hst, Hsk, Hfs, Hsc, Hidx.
    + unfold FindEvent, IsOpen. by rewrite Hst, Hidx.
    + intros Hnn. unfold Read, IsOpen. rewrite Hst, Hidx, Hpos. cbn [negb orb].
      by replace (_ <=? _) with true by (symmetry; apply Z.leb_le; cbn; lia).
Qed.

End LifecycleProperties.

Section LifecycleOverRawStream.

Context {F PD GH LF : Type}.
Context `{ThinningTraits} `{StreamEnv}.
Context `{FacadeEnv F GH RawStream}.

(** X27.  The facade asks the stream whether it is seekable, and [RawStream]
    answers [true] whatever its source is.  So over a [RawStream], [Open]
    never throws "does not support random access" and [GetNEvents] never
    throws "It is not seekable", also when the source of the stream cannot
    seek; and [IsValid(theFileName)] answers [true] for such a source without
    reading a block, since [RawStream::IsValid] tests nothing there. *)
Theorem RawStream_always_reports_seekable (fuel : nat) (theFileName : string)
    (scan : bool) (sf : CorsikaShowerFile F GH LF RawStream) :
  (forall e,
     fst (@Open F Block RawStream GH LF (RawStream_VRawStream fuel) _
            theFileName scan sf) <> Raised e) /\
  fst (@GetNEvents F Block RawStream GH LF (RawStream_VRawStream fuel) _ sf)
  <> Raised EventsOfNotSeekable /\
  (forall stream,
     RawStreamFactory_Create theFileName = Return stream ->
     seekable (file stream) = false ->
     @IsValid_file F Block RawStream GH LF (RawStream_VRawStream fuel) _ theFileName
     = Done (Return true)).
Proof.
  split; [|split].
  - intros e. unfold Open. cbv zeta.
    destruct (RawStreamFactory_Create theFileName) as [stream| | |]; try done.
    cbn [stream_IsSeekable RawStream_VRawStream IsSeekable negb].
    rewrite andb_true_r. destruct scan; [|done].
    by destruct (scan_into _ _).
  - unfold GetNEvents. destruct (fRawStream sf) as [stream|]; [|done].
    cbn [stream_IsSeekable RawStream_VRawStream IsSeekable negb].
    destruct (negb (fFileScanned sf)); [|done].
    by destruct (scan_into _ _) as [[| | |] ?].
  - intros stream Hc Hsk. unfold IsValid_file, Open. cbv zeta. rewrite Hc.
    cbn [stream_IsSeekable RawStream_VRawStream IsSeekable negb andb].
    unfold CorsikaShowerFile_IsValid, on_stream.
    cbn [fRawStream with_fIsThinned with_fRawStream stream_IsValid RawStream_VRawStream].
    unfold IsValid. by rewrite Hsk.
Qed.

End LifecycleOverRawStream.

(** X26, witness: a reader that has scanned a file is opened again without a
    scan. *)
Lemma GetNEvents_scans_once_witness :
  let sf := scanned_reader in
  let sf' := snd (@Open fexp DBlock MemStream unit unit MemStream_VRawStream
                    example_facade_env "two_events" false sf) in
  @GetNEvents fexp DBlock MemStream unit unit MemStream_VRawStream example_facade_env sf'
  = (Done (Return 0), sf') /\
  @FindEvent fexp DBlock ParticleData MemStream unit unit fexp_FloatOps DBlock_ops
    MemStream_VRawStream example_collaborators 1 sf' = (Return eFail, sf') /\
  (0 <= fCurrentPosition sf ->
   @Read fexp DBlock ParticleData MemStream unit unit fexp_FloatOps DBlock_ops
     MemStream_VRawStream example_collaborators Thinned sf' = (Return eEOF, sf')).
Proof.
  intros sf sf'.
  apply (proj2 (@GetNEvents_scans_once fexp DBlock ParticleData MemStream unit unit
                  fexp_FloatOps DBlock_ops MemStream_VRawStream example_collaborators
                  example_facade_env sf)
           "two_events" sf' 1 Thinned).
  - reflexivity.
  - reflexivity.
Defined.

(** A reader that was not opened before scans on the first [GetNEvents] and
    reports the two events of the file. *)
Lemma GetNEvents_of_a_fresh_reader :
  let sf := snd (@Open fexp DBlock MemStream unit unit MemStream_VRawStream
                   example_facade_env "two_events" false
                   (@CorsikaShowerFile_new fexp MemStream unit unit example_facade_env)) in
  fst (@GetNEvents fexp DBlock MemStream unit unit MemStream_VRawStream
         example_facade_env sf) = Done (Return 2).
Proof. vm_compute. reflexivity. Qed.


(** X27, witness: the piped file of three disk blocks. *)
Lemma RawStream_always_reports_seekable_witness :
  @IsValid_file fexp Block RawStream unit unit
    (@RawStream_VRawStream spec_traits pipe_env 0) pipe_facade_env "three_sectors"
  = Done (Return true).
Proof.
  apply (proj2 (proj2 (@RawStream_always_reports_seekable fexp unit unit spec_traits
                         pipe_env pipe_facade_env 0%nat "three_sectors" false
                         (@CorsikaShowerFile_new fexp RawStream unit unit
                            pipe_facade_env)))
           (piped "three_sectors")).
  - vm_compute. reflexivity.
  - reflexivity.
Defined.
